(** * ligolw_cafe: coincidence-analysis front end (pylal/ligolw_cafe.py)

    A shallow embedding of the cache packer [CafePacker], of the
    bin splitter [split_bins] and of the driver [ligolw_cafe], together
    with the properties the design document states about them.

    Times are exact rationals ([Qc]); Python dictionaries are finite maps
    ([gmap]); Python exceptions are the [Raise] outcomes of [result].  The
    splitter is given twice: [split_bins] computes its cuts in exact
    rationals, [split_bins_with] in an arithmetic of floats and
    [LIGOTimeGPS] times that is a parameter. *)

From Stdlib Require Import QArith Qcanon Qround Qpower Lqa Ascii.
From stdpp Require Import gmap strings list fin_maps numbers sorting pretty.

Local Open Scope Qc_scope.

(** ** Python outcomes *)

Inductive exn : Set :=
  | ValueError | TypeError | AttributeError | IndexError
  | ZeroDivisionError | AssertionError
  | LoopBudget.   (* not a Python exception: the budget of a modelled while loop ran out *)

Inductive result (A : Type) : Type :=
  | Ok (a : A)
  | Raise (e : exn).
Arguments Ok {A} a.
Arguments Raise {A} e.

Global Instance result_ret : MRet result := λ A a, Ok a.
Global Instance result_bind : MBind result :=
  λ A B f m, match m with Ok a => f a | Raise e => Raise e end.

(** [foldM f a l]: the loop [for x in l: a = f(a, x)], stopping at the first
    exception. *)
Fixpoint foldM {A B} (f : A → B → result A) (a : A) (l : list B) : result A :=
  match l with
  | [] => Ok a
  | x :: l' => a' ← f a x; foldM f a' l'
  end.

(** ** Python orderings and [list.sort] *)

Section py_sort.
Context {A : Type} (lt : A → A → bool).

(** [sort_insert x l] puts [x] in front of the first element that is not
    smaller than [x]; with [x] taken from the front of the list this is a
    stable sort, as Python's is. *)
Fixpoint sort_insert (x : A) (l : list A) : list A :=
  match l with
  | [] => [x]
  | y :: l' => if lt y x then y :: sort_insert x l' else x :: l
  end.

Definition py_sort (l : list A) : list A := foldr sort_insert [] l.

(** Python's comparison of two lists: the first position that differs
    decides, a proper prefix is smaller. *)
Fixpoint list_lt (l1 l2 : list A) : bool :=
  match l1, l2 with
  | [], [] => false
  | [], _ :: _ => true
  | _ :: _, [] => false
  | x :: l1', y :: l2' =>
      if lt x y then true else if lt y x then false else list_lt l1' l2'
  end.
End py_sort.

Definition Qc_lt (x y : Qc) : bool := bool_decide (x < y).
Definition Qc_le (x y : Qc) : bool := bool_decide (x ≤ y).
Definition Qc_min (x y : Qc) : Qc := if Qc_lt y x then y else x.
Definition Qc_max (x y : Qc) : Qc := if Qc_lt x y then y else x.

(** [min(l)] and [max(l)] of Python: [ValueError] on an empty sequence. *)
Definition py_min (l : list Qc) : result Qc :=
  match l with
  | [] => Raise ValueError
  | x :: l' => Ok (foldl Qc_min x l')
  end.

Definition py_max (l : list Qc) : result Qc :=
  match l with
  | [] => Raise ValueError
  | x :: l' => Ok (foldl Qc_max x l')
  end.

(** Ordering of 2-tuples. *)
Definition pair_lt {A B} `{EqDecision A} (ltA : A → A → bool) (ltB : B → B → bool)
    (p q : A * B) : bool :=
  if decide (p.1 = q.1) then ltB p.2 q.2 else ltA p.1 q.1.

(** ** The segment-set library (glue.segments) *)

Module segments.

(** glue.segments is an external collaborator, not part of the sources at
    hand.  Every definition of this module is modelled from its contract in
    the design (section 6: union, coalesce, intersection, offset shift,
    coincidence test restricted to a key set, disjointness test, bounding
    extent), with exact arithmetic. *)

(** Modelled from the spec: a segment is the pair of its end points. *)
Definition segment : Type := Qc * Qc.

(** Modelled from the spec: [segment(a, b)] orders its end points. *)
Definition mk_segment (a b : Qc) : segment := if Qc_le a b then (a, b) else (b, a).

(** Modelled from the spec: segments compare as tuples do. *)
Definition segment_lt : segment → segment → bool := pair_lt Qc_lt Qc_lt.

(** Modelled from the spec: [abs(seg)], the duration. *)
Definition segment_abs (s : segment) : Qc := s.2 - s.1.

(** Modelled from the spec: [a.intersects(b)], the intersection is not a
    null segment. *)
Definition segment_intersects (a b : segment) : bool :=
  Qc_lt b.1 a.2 && Qc_lt a.1 b.2.

(** Modelled from the spec: [a.disjoint(b)] is [1] when [a] lies above [b],
    [-1] when below, [0] when they intersect or touch. *)
Definition segment_disjoint (a b : segment) : Z :=
  if Qc_lt b.2 a.1 then 1%Z else if Qc_lt a.2 b.1 then (-1)%Z else 0%Z.

(** Modelled from the spec: [s.protract(x)] moves both ends outwards by [x]. *)
Definition segment_protract (s : segment) (x : Qc) : segment :=
  mk_segment (s.1 - x) (s.2 + x).

(** Modelled from the spec: [s.shift(x)]. *)
Definition segment_shift (s : segment) (x : Qc) : segment := (s.1 + x, s.2 + x).

(** Modelled from the spec: the intersection of two segments, when it is not
    a null segment. *)
Definition segment_and (a b : segment) : option segment :=
  let lo := Qc_max a.1 b.1 in
  let hi := Qc_min a.2 b.2 in
  if Qc_lt lo hi then Some (lo, hi) else None.

Abbreviation segmentlist := (list segment).

(** Modelled from the spec: [l.shift(x)]. *)
Definition segmentlist_shift (l : segmentlist) (x : Qc) : segmentlist :=
  (λ s, segment_shift s x) <$> l.

(** Modelled from the spec: [l.intersects_segment(s)] and [l1.intersects(l2)],
    some segment of the one intersects some segment of the other. *)
Definition segmentlist_intersects_segment (l : segmentlist) (s : segment) : bool :=
  existsb (λ a, segment_intersects a s) l.

Definition segmentlist_intersects (l1 l2 : segmentlist) : bool :=
  existsb (λ a, segmentlist_intersects_segment l2 a) l1.

(** Modelled from the spec: [coalesce()] sorts, then merges the segments that
    intersect or touch. *)
Fixpoint coalesce_from (cur : segment) (l : segmentlist) : segmentlist :=
  match l with
  | [] => [cur]
  | s :: l' =>
      if Qc_le s.1 cur.2 then coalesce_from (cur.1, Qc_max cur.2 s.2) l'
      else cur :: coalesce_from s l'
  end.

Definition coalesce (l : segmentlist) : segmentlist :=
  match py_sort segment_lt l with
  | [] => []
  | s :: l' => coalesce_from s l'
  end.

(** Modelled from the spec: [l1 | l2] and [l1 & l2] on coalesced lists. *)
Definition segmentlist_or (l1 l2 : segmentlist) : segmentlist := coalesce (l1 ++ l2).

Definition segmentlist_and (l1 l2 : segmentlist) : segmentlist :=
  coalesce (a ← l1; omap (segment_and a) l2).

(** Modelled from the spec: a [segmentlistdict] holds the lists, stored
    shifted, and the offset that is currently applied to each of them. *)
Record segmentlistdict : Type := Segmentlistdict {
  lists : gmap string segmentlist;
  offsets : gmap string Qc
}.

Definition empty_dict : segmentlistdict := Segmentlistdict ∅ ∅.

Definition keys (d : segmentlistdict) : gset string := dom (lists d).

Definition offset_of (d : segmentlistdict) (k : string) : Qc := default 0 (offsets d !! k).

(** Modelled from the spec: [d.offsets.update(v)] moves every list named by
    [v] to the offset [v] gives it; names without a list are ignored, lists
    that [v] does not name keep the offset they have. *)
Definition offsets_update (d : segmentlistdict) (v : gmap string Qc) : segmentlistdict :=
  {| lists := map_imap (λ k l, Some (match v !! k with
                                     | Some o => segmentlist_shift l (o - offset_of d k)
                                     | None => l
                                     end)) (lists d);
     offsets := map_imap (λ k _, Some (match v !! k with
                                       | Some o => o
                                       | None => offset_of d k
                                       end)) (lists d) |}.

(** Modelled from the spec: [d.offsets.clear()] takes every list back to
    offset 0. *)
Definition offsets_clear (d : segmentlistdict) : segmentlistdict :=
  {| lists := map_imap (λ k l, Some (segmentlist_shift l (0 - offset_of d k))) (lists d);
     offsets := (λ _, 0) <$> lists d |}.

(** All segments of all lists. *)
Definition all_segments (d : segmentlistdict) : list segment :=
  mjoin (map_to_list (lists d)).*2.

(** Modelled from the spec: [d.extent_all()] is the tightest segment around
    every list; the extent of nothing is undefined, a [ValueError]. *)
Definition extent_all (d : segmentlistdict) : result segment :=
  match all_segments d with
  | [] => Raise ValueError
  | s :: l => Ok (foldl Qc_min s.1 l.*1, foldl Qc_max s.2 l.*2)
  end.

(** Modelled from the spec: [self.is_coincident(other, keys)], some list of
    [self] intersects some list of [other], among the lists whose names are
    in [keys]. *)
Definition named_lists (d : segmentlistdict) (ks : gset string) : list segmentlist :=
  (map_to_list (filter (λ kv, kv.1 ∈ ks) (lists d))).*2.

Definition is_coincident (self other : segmentlistdict) (ks : gset string) : bool :=
  existsb (λ a, existsb (λ b, segmentlist_intersects a b) (named_lists other ks))
          (named_lists self ks).

(** Modelled from the spec: [self.intersects_all(other)], [other] is not
    empty and each of its lists intersects the list of the same name in
    [self]. *)
Definition intersects_all (self other : segmentlistdict) : bool :=
  forallb (λ kv, match lists self !! kv.1 with
                 | Some l => segmentlist_intersects l kv.2
                 | None => false
                 end) (map_to_list (lists other))
  && negb (bool_decide (lists other = ∅)).

(** Modelled from the spec: [self.intersects_segment(seg)], some list
    intersects the segment. *)
Definition intersects_segment (self : segmentlistdict) (seg : segment) : bool :=
  existsb (λ l, segmentlist_intersects_segment l seg) (map_to_list (lists self)).*2.

(** Modelled from the spec: [self |= other], union list by list; a new name
    starts at offset 0. *)
Definition ior (self other : segmentlistdict) : segmentlistdict :=
  {| lists := union_with (λ a b, Some (segmentlist_or a b)) (lists self) (lists other);
     offsets := offsets self ∪ ((λ _, 0) <$> lists other) |}.

(** Modelled from the spec: [segments.infinity()], for the segments that
    clip. *)
Inductive bound : Type := NegInfinity | Finite (t : Qc) | PosInfinity.

Definition clip_segment (lo hi : bound) (s : segment) : option segment :=
  let a := match lo with Finite t => Qc_max s.1 t | _ => s.1 end in
  let b := match hi with Finite t => Qc_min s.2 t | _ => s.2 end in
  match lo, hi with
  | PosInfinity, _ | _, NegInfinity => None
  | _, _ => if Qc_lt a b then Some (a, b) else None
  end.

(** Modelled from the spec:
    [self & segmentlistdict.fromkeys(self, segmentlist([segment(lo, hi)]))],
    every list clipped to the one segment. *)
Definition and_segment (self : segmentlistdict) (lo hi : bound) : segmentlistdict :=
  {| lists := (λ l : segmentlist, omap (clip_segment lo hi) l) <$> lists self;
     offsets := offsets self |}.

End segments.
Export segments.

(** An offset vector: instrument ↦ offset. *)
Abbreviation offset_vector := (gmap string Qc).

(** ** Cache entries (glue.lal.CacheEntry) *)

Module lal.

(** Modelled from the spec: glue.lal is not part of the sources at hand.  An
    Entry is a file reference ([url]) with the instruments it covers
    ([observatory]) and one bounding interval ([segment], possibly absent). *)
Record CacheEntry : Type := {
  observatory : list string;
  segment : option segments.segment;
  url : string
}.

(** Modelled from the spec: [to_segmentlistdict] gives every instrument of
    the entry the list holding its interval, or the empty list. *)
Definition to_segmentlistdict (c : CacheEntry) : segmentlistdict :=
  {| lists := list_to_map ((λ i, (i, match segment c with
                                     | Some s => [s]
                                     | None => []
                                     end)) <$> observatory c);
     offsets := list_to_map ((λ i, (i, 0)) <$> observatory c) |}.

End lal.
Abbreviation CacheEntry := lal.CacheEntry.

(** Subscripting an attribute that may still be [None], and reading an
    attribute that may not have been set. *)
Definition subscript {A} (o : option A) : result A :=
  match o with Some a => Ok a | None => Raise TypeError end.

Definition getattr {A} (o : option A) : result A :=
  match o with Some a => Ok a | None => Raise AttributeError end.

(** [l[n]] *)
Definition item {A} (l : list A) (n : nat) : result A :=
  match l !! n with Some a => Ok a | None => Raise IndexError end.

(** Python 2 orders [None] before every tuple. *)
Definition extent_lt (a b : option segment) : bool :=
  match a, b with
  | None, None => false
  | None, Some _ => true
  | Some _, None => false
  | Some x, Some y => segment_lt x y
  end.

(** ** Bins *)

(** [LALCacheBin]: the [objects] and [size] of packing.Bin, and [extent]. *)
Record LALCacheBin : Type := {
  objects : list CacheEntry;
  size : segmentlistdict;
  extent : option segment
}.

Module packing.

(** Modelled from the spec: pylal.packing is not part of the sources at
    hand.  A new [Bin] has no members; its [size] is replaced at once by the
    empty dictionary of [LALCacheBin.__init__]. *)
Definition Bin_init : LALCacheBin :=
  {| objects := []; size := empty_dict; extent := None |}.

(** Modelled from the spec: [Bin.add] of pylal.packing appends the entry to
    the members and unions its segments into [size] (section 4.1). *)
Definition Bin_add (self : LALCacheBin) (obj : CacheEntry) (sz : segmentlistdict)
    : LALCacheBin :=
  {| objects := objects self ++ [obj]; size := ior (size self) sz; extent := extent self |}.

(** Modelled from the spec: [Bin.__iadd__] of pylal.packing unions the
    members and the [size] of two bins (section 4.1). *)
Definition Bin_iadd (self other : LALCacheBin) : LALCacheBin :=
  {| objects := objects self ++ objects other;
     size := ior (size self) (size other);
     extent := extent self |}.

End packing.

Definition LALCacheBin_init : LALCacheBin :=
  {| objects := objects packing.Bin_init;
     size := empty_dict;
     extent := None |}.

Definition set_extent (self : LALCacheBin) : result LALCacheBin :=
  e ← extent_all (size self);
  Ok {| objects := objects self; size := size self; extent := Some e |}.

Definition LALCacheBin_add (self : LALCacheBin) (obj : CacheEntry) (sz : segmentlistdict)
    : result LALCacheBin :=
  set_extent (packing.Bin_add self obj sz).

Definition LALCacheBin_iadd (self other : LALCacheBin) : result LALCacheBin :=
  set_extent (packing.Bin_iadd self other).

(** [__cmp__]: bins compare as their extents do. *)
Definition LALCacheBin_lt (self other : LALCacheBin) : bool :=
  extent_lt (extent self) (extent other).

Definition with_size (b : LALCacheBin) (sz : segmentlistdict) : LALCacheBin :=
  {| objects := objects b; size := sz; extent := extent b |}.

(** ** The packer *)

(** [offset_vectors] and [max_gap] are attributes that exist only once
    [set_offset_vectors] has run. *)
Record CafePacker : Type := {
  bins : list LALCacheBin;
  offset_vectors : option (list offset_vector);
  max_gap : option Qc
}.

(** [packing.Packer.__init__(bins)] *)
Definition CafePacker_init (bins : list LALCacheBin) : CafePacker :=
  {| bins := bins; offset_vectors := None; max_gap := None |}.

Definition string_lt (a b : string) : bool := String.ltb a b.

(** [sorted(offset_vector.items())] *)
Definition sorted_items (v : offset_vector) : list (string * Qc) :=
  py_sort (pair_lt string_lt Qc_lt) (map_to_list v).

Definition offset_vector_lt (v w : offset_vector) : bool :=
  list_lt (pair_lt string_lt Qc_lt) (sorted_items v) (sorted_items w).

Definition values (v : offset_vector) : list Qc := (map_to_list v).*2.

(** [mapM f l]: a generator expression, evaluated item by item. *)
Fixpoint mapM_result {A B} (f : A → result B) (l : list A) : result (list B) :=
  match l with
  | [] => Ok []
  | x :: l' => y ← f x; ys ← mapM_result f l'; Ok (y :: ys)
  end.

Definition set_offset_vectors (self : CafePacker) (offset_vectors : list offset_vector)
    : result CafePacker :=
  let sorted := py_sort offset_vector_lt offset_vectors in
  mins ← mapM_result (λ v, py_min (values v)) offset_vectors;
  min_offset ← py_min mins;
  maxs ← mapM_result (λ v, py_max (values v)) offset_vectors;
  max_offset ← py_max maxs;
  let gap := max_offset - min_offset in
  if Qc_le 0 gap
  then Ok {| bins := bins self; offset_vectors := Some sorted; max_gap := Some gap |}
  else Raise AssertionError.

(** The loop over the offset vectors for one bin: both dictionaries are moved
    to each vector in turn, and the loop stops at the first vector under
    which they are coincident.  Returns the two dictionaries as the loop
    leaves them, and whether a vector matched. *)
Fixpoint match_offset_vectors (vs : list offset_vector) (new_size bin_size : segmentlistdict)
    : segmentlistdict * segmentlistdict * bool :=
  match vs with
  | [] => (new_size, bin_size, false)
  | v :: vs' =>
      let new_size := offsets_update new_size v in
      let bin_size := offsets_update bin_size v in
      if is_coincident bin_size new_size (dom v) then (new_size, bin_size, true)
      else match_offset_vectors vs' new_size bin_size
  end.

(** [bin.extent[1] < new.extent[0] - self.max_gap] *)
Definition bail_out (bin_extent new_extent : segment) (gap : Qc) : bool :=
  Qc_lt bin_extent.2 (new_extent.1 - gap).

(** The loop [for n in xrange(len(self.bins) - 1, -1, -1)], with [k = n + 1]
    bins still to visit.  Returns the bins, the new bin, and the matching
    indices in the order they were appended. *)
Fixpoint scan_bins (self : CafePacker) (k : nat) (bins : list LALCacheBin)
    (new : LALCacheBin) (matching_bins : list nat)
    : result (list LALCacheBin * LALCacheBin * list nat) :=
  match k with
  | O => Ok (bins, new, matching_bins)
  | S n =>
      bin ← item bins n;
      bin_extent ← subscript (extent bin);
      new_extent ← subscript (extent new);
      gap ← getattr (max_gap self);
      if bail_out bin_extent new_extent gap
      then Ok (bins, new, matching_bins)                       (* break *)
      else
        vs ← getattr (offset_vectors self);
        let '(new_size, bin_size, hit) := match_offset_vectors vs (size new) (size bin) in
        let bin := with_size bin (offsets_clear bin_size) in
        scan_bins self n (<[n := bin]> bins) (with_size new new_size)
                  (if hit then matching_bins ++ [n] else matching_bins)
  end.

(** [for n in matching_bins: dest += self.bins.pop(n)], where [dest] is the
    bin at index [d].  The indices come in descending order and [d] is the
    smallest of them, so popping never moves [dest]. *)
Fixpoint merge_bins (d : nat) (ns : list nat) (bins : list LALCacheBin)
    : result (list LALCacheBin) :=
  match ns with
  | [] => Ok bins
  | n :: ns' =>
      other ← item bins n;
      let bins := delete n bins in
      dest ← item bins d;
      dest ← LALCacheBin_iadd dest other;
      merge_bins d ns' (<[d := dest]> bins)
  end.

Definition pack (self : CafePacker) (cache_entry : CacheEntry) : result CafePacker :=
  new ← LALCacheBin_add LALCacheBin_init cache_entry (lal.to_segmentlistdict cache_entry);
  '(bins, new, matching_bins) ← scan_bins self (length (bins self)) (bins self) new [];
  let new := with_size new (offsets_clear (size new)) in
  bins ← match last matching_bins with
         | None => Ok (bins ++ [new])
         | Some d =>
             dest ← item bins d;
             dest ← LALCacheBin_iadd dest new;
             merge_bins d (removelast matching_bins) (<[d := dest]> bins)
         end;
  Ok {| bins := py_sort LALCacheBin_lt bins;
        offset_vectors := offset_vectors self;
        max_gap := max_gap self |}.

(** ** Splitting bins *)

(** [segment(lo, hi)] on bounds: the end points are put in order. *)
Definition bound_le (a b : bound) : bool :=
  match a, b with
  | NegInfinity, _ | _, PosInfinity => true
  | Finite x, Finite y => Qc_le x y
  | _, _ => false
  end.

Definition mk_bounds (p : bound * bound) : bound * bound :=
  if bound_le p.1 p.2 then p else (p.2, p.1).

(** The [n - 1] cut times of a bin whose extent is [e]: [e[0] + i * (e[1] - e[0]) / n]
    for [i] in [range(1, n)], in exact rationals; [split_times_with] has the
    floats and the [LIGOTimeGPS] of the code. *)
Definition split_times (e : segment) (n : Z) : list Qc :=
  (λ i : Z, e.1 + Qc_of_Z i * (e.2 - e.1) / Qc_of_Z n) <$> seqZ 1 (n - 1).

(** The [n] clipping segments: consecutive pairs of -infinity, the cuts,
    +infinity. *)
Definition split_segments (e : segment) (n : Z) : list (bound * bound) :=
  let splits := [NegInfinity] ++ (Finite <$> split_times e n) ++ [PosInfinity] in
  mk_bounds <$> zip (removelast splits) (tail splits).

(** [for key in tuple(size): if not size[key]: del size[key]] *)
Definition del_empty (d : segmentlistdict) : segmentlistdict :=
  {| lists := filter (λ kv, kv.2 ≠ []) (lists d); offsets := offsets d |}.

(** One new bin: the clipped [size], its extent, no members yet. *)
Definition new_split_bin (origbin : LALCacheBin) (split : bound * bound) : result LALCacheBin :=
  let sz := del_empty (and_segment (size origbin) split.1 split.2) in
  e ← extent_all sz;
  Ok {| objects := []; size := sz; extent := Some e |}.

(** The loop over the offset vectors for one entry and one new bin: the
    entry's dictionary is moved to each vector in turn (the offsets stay
    applied from one vector to the next) and the loop stops at the first
    vector under which it intersects the bin's extent. *)
Fixpoint entry_intersects (vs : list offset_vector) (cache_entry_segs : segmentlistdict)
    (bin_extent : segment) : bool :=
  match vs with
  | [] => false
  | v :: vs' =>
      let cache_entry_segs := offsets_update cache_entry_segs v in
      if intersects_segment cache_entry_segs bin_extent then true
      else entry_intersects vs' cache_entry_segs bin_extent
  end.

(** The loop over [origbin.objects] for one new bin; returns the entries
    appended to [bin.objects], in order. *)
Fixpoint collect_objects (cafepacker : CafePacker) (bin_extent bin_extent_plus_max_gap : segment)
    (cache : list CacheEntry) : result (list CacheEntry) :=
  match cache with
  | [] => Ok []
  | cache_entry :: cache' =>
      seg ← getattr (lal.segment cache_entry);
      if decide (segment_disjoint seg bin_extent_plus_max_gap ≠ 0%Z)
      then collect_objects cafepacker bin_extent bin_extent_plus_max_gap cache'   (* continue *)
      else
        vs ← getattr (offset_vectors cafepacker);
        let hit := entry_intersects vs (lal.to_segmentlistdict cache_entry) bin_extent in
        rest ← collect_objects cafepacker bin_extent bin_extent_plus_max_gap cache';
        Ok (if hit then cache_entry :: rest else rest)
  end.

Definition populate_bin (cafepacker : CafePacker) (origbin bin : LALCacheBin)
    : result LALCacheBin :=
  bin_extent ← getattr (extent bin);
  gap ← getattr (max_gap cafepacker);
  let bin_extent_plus_max_gap := segment_protract bin_extent gap in
  objs ← collect_objects cafepacker bin_extent bin_extent_plus_max_gap (objects origbin);
  Ok {| objects := objects bin ++ objs; size := size bin; extent := extent bin |}.

(** [int(math.ceil(float(abs(origbin.extent)) / extentlimit))], the quotient
    in exact rationals; [split_count_with] has the floats of the code. *)
Definition split_count (origbin : LALCacheBin) (extentlimit : Qc) : result Z :=
  e ← subscript (extent origbin);
  if decide (extentlimit = 0) then Raise ZeroDivisionError
  else Ok (Qceiling (segment_abs e / extentlimit)).

(** The bins that replace [origbin] when it is cut in [n > 1] pieces. *)
Definition split_bin (cafepacker : CafePacker) (origbin : LALCacheBin) (n : Z)
    : result (list LALCacheBin) :=
  e ← subscript (extent origbin);
  newbins ← mapM_result (new_split_bin origbin) (split_segments e n);
  mapM_result (populate_bin cafepacker origbin) newbins.

(** The [while idx < len(cafepacker.bins)] loop; [budget] bounds the number
    of iterations ([split_bins] gives it one iteration per bin, which is what
    the loop takes: see [split_loop_spec]). *)
Fixpoint split_loop (budget : nat) (cafepacker : CafePacker) (extentlimit : Qc)
    (idx : nat) (bins : list LALCacheBin) : result (list LALCacheBin) :=
  match bins !! idx with
  | None => Ok bins
  | Some origbin =>
      match budget with
      | O => Raise LoopBudget
      | S budget =>
          n ← split_count origbin extentlimit;
          if decide (n ≤ 1)%Z then split_loop budget cafepacker extentlimit (S idx) bins
          else
            newbins ← split_bin cafepacker origbin n;
            split_loop budget cafepacker extentlimit (idx + length newbins)
                       (take idx bins ++ newbins ++ drop (S idx) bins)
      end
  end.

Definition split_bins (cafepacker : CafePacker) (extentlimit : Qc) : result CafePacker :=
  bins ← split_loop (length (bins cafepacker)) cafepacker extentlimit 0 (bins cafepacker);
  Ok {| bins := bins;
        offset_vectors := offset_vectors cafepacker;
        max_gap := max_gap cafepacker |}.

(** ** Splitting bins, in the arithmetic of the code *)

(** [split_bins] takes the count from a quotient of floats, and computes
    every cut in floats before it makes a [LIGOTimeGPS] of it.  The
    definitions above compute both in exact rationals.  Here the conversions
    and the operations on floats are parameters, glue and the interpreter
    not being part of the sources at hand:
    [float(x)], [x * y] and [x / y] on floats, and [lsctables.LIGOTimeGPS(x)],
    the last applied to the sum of the start of the extent, a [LIGOTimeGPS],
    and a float. *)
Record arithmetic : Type := Arithmetic {
  float : Qc → Qc;
  float_mul : Qc → Qc → Qc;
  float_div : Qc → Qc → Qc;
  LIGOTimeGPS : Qc → Qc
}.

Section arithmetic.
Context (py : arithmetic).

(** [LIGOTimeGPS(e[0] + i * float(e[1] - e[0]) / n)] for [i] in [range(1, n)]. *)
Definition split_times_with (e : segment) (n : Z) : list Qc :=
  (λ i : Z, LIGOTimeGPS py
              (e.1 + float_div py (float_mul py (Qc_of_Z i) (float py (e.2 - e.1)))
                                  (Qc_of_Z n)))
    <$> seqZ 1 (n - 1).

Definition split_segments_with (e : segment) (n : Z) : list (bound * bound) :=
  let splits := [NegInfinity] ++ (Finite <$> split_times_with e n) ++ [PosInfinity] in
  mk_bounds <$> zip (removelast splits) (tail splits).

(** [int(math.ceil(float(abs(origbin.extent)) / extentlimit))] *)
Definition split_count_with (origbin : LALCacheBin) (extentlimit : Qc) : result Z :=
  e ← subscript (extent origbin);
  if decide (extentlimit = 0) then Raise ZeroDivisionError
  else Ok (Qceiling (float_div py (float py (segment_abs e)) extentlimit)).

Definition split_bin_with (cafepacker : CafePacker) (origbin : LALCacheBin) (n : Z)
    : result (list LALCacheBin) :=
  e ← subscript (extent origbin);
  newbins ← mapM_result (new_split_bin origbin) (split_segments_with e n);
  mapM_result (populate_bin cafepacker origbin) newbins.

Fixpoint split_loop_with (budget : nat) (cafepacker : CafePacker) (extentlimit : Qc)
    (idx : nat) (bins : list LALCacheBin) : result (list LALCacheBin) :=
  match bins !! idx with
  | None => Ok bins
  | Some origbin =>
      match budget with
      | O => Raise LoopBudget
      | S budget =>
          n ← split_count_with origbin extentlimit;
          if decide (n ≤ 1)%Z then split_loop_with budget cafepacker extentlimit (S idx) bins
          else
            newbins ← split_bin_with cafepacker origbin n;
            split_loop_with budget cafepacker extentlimit (idx + length newbins)
                            (take idx bins ++ newbins ++ drop (S idx) bins)
      end
  end.

Definition split_bins_with (cafepacker : CafePacker) (extentlimit : Qc)
    : result CafePacker :=
  bins ← split_loop_with (length (bins cafepacker)) cafepacker extentlimit 0
                         (bins cafepacker);
  Ok {| bins := bins;
        offset_vectors := offset_vectors cafepacker;
        max_gap := max_gap cafepacker |}.

End arithmetic.

(** Arithmetic that rounds nothing: the definitions of the section before. *)
Definition exact : arithmetic :=
  {| float := λ x, x; float_mul := Qcmult; float_div := Qcdiv; LIGOTimeGPS := λ x, x |}.

(** The integer nearest to [x], the even one of two that are as near. *)
Definition round_half_even (x : Q) : Z :=
  let f := Qfloor x in
  match (x - inject_Z f ?= 1 # 2)%Q with
  | Lt => f
  | Gt => (f + 1)%Z
  | Eq => if Z.even f then f else (f + 1)%Z
  end.

(** The power of two at or below [|x|], for [x] other than 0. *)
Definition binade (x : Q) : Z :=
  let a := (Z.abs (Qnum x) # Qden x)%Q in
  let k := (Z.log2 (Qnum a) - Z.log2 (Zpos (Qden a)))%Z in
  if Qle_bool (2 ^ k)%Q a then k else (k - 1)%Z.

(** The double nearest to [x]: a significand of 53 bits, ties to the even
    one.  Overflow and subnormal numbers are left out, times and durations
    being far from both. *)
Definition nearest (x : Q) : Q :=
  let ulp := (2 ^ (binade x - 52))%Q in
  (inject_Z (round_half_even (x / ulp)) * ulp)%Q.

Definition binary64 (x : Qc) : Qc :=
  if decide (x = 0) then 0 else Q2Qc (nearest x).

(** A time in whole nanoseconds: what is left of a float below the
    nanosecond is dropped. *)
Definition nanoseconds (x : Qc) : Qc :=
  Q2Qc (inject_Z (Qfloor (x * 1000000000)) / 1000000000).

(** Doubles with every operation correctly rounded, and [LIGOTimeGPS]
    times in whole nanoseconds. *)
Definition python : arithmetic :=
  {| float := binary64;
     float_mul := λ x y, binary64 (x * y);
     float_div := λ x y, binary64 (x / y);
     LIGOTimeGPS := nanoseconds |}.

(** ** Input helpers *)

(** [cache_to_seglistdict]: the union of the entries' dictionaries. *)
Definition cache_to_seglistdict (cache : list CacheEntry) : segmentlistdict :=
  foldl (λ s c, ior s (lal.to_segmentlistdict c)) empty_dict cache.

(** [segmentlistdict_normalize]: times relative to [origin].  With
    [origin = None] the subtraction raises [TypeError] as soon as there is a
    segment to convert.  The conversion of the differences to floats is left
    out, times staying exact rationals. *)
Definition segmentlistdict_normalize (seglistdict : segmentlistdict) (origin : option Qc)
    : result segmentlistdict :=
  match origin with
  | Some o =>
      Ok {| lists := (λ seglist : segmentlist,
                        (λ seg, mk_segment (seg.1 - o) (seg.2 - o)) <$> seglist)
                     <$> lists seglistdict;
            offsets := offsets seglistdict |}
  | None =>
      if decide (all_segments seglistdict = []) then Ok seglistdict else Raise TypeError
  end.

(** [segmentlistdict_unnormalize]: back to absolute times. *)
Definition segmentlistdict_unnormalize (seglistdict : segmentlistdict) (origin : option Qc)
    : result segmentlistdict :=
  match origin with
  | Some o =>
      Ok {| lists := (λ seglist : segmentlist,
                        (λ seg, mk_segment (o + seg.1) (o + seg.2)) <$> seglist)
                     <$> lists seglistdict;
            offsets := offsets seglistdict |}
  | None =>
      if decide (all_segments seglistdict = []) then Ok seglistdict else Raise TypeError
  end.

Module ligolw_tisi.

(** Modelled from the spec: the ways of choosing [n] items of a list, in
    order (the sub-combinations of step 3 of the driver). *)
Fixpoint choices {A} (l : list A) (n : nat) : list (list A) :=
  match n, l with
  | O, _ => [[]]
  | S _, [] => []
  | S n', x :: l' => ((x ::.) <$> choices l' n') ++ choices l' n
  end.

(** Modelled from the spec: pylal.ligolw_tisi is not part of the sources at
    hand.  [time_slide_component_vectors offset_vectors n] lists every
    [n]-instrument sub-combination implied by the configured offset vectors
    (step 3 of the driver, section 4.4 of the design). *)
Definition time_slide_component_vectors (offset_vectors : list offset_vector) (n : nat)
    : list offset_vector :=
  v ← offset_vectors; list_to_map <$> choices (map_to_list v) n.

End ligolw_tisi.

Module llwapp.

(** Modelled from the spec: the intersection of the shifted coverage of the
    instruments named by [v] (step 3 of the driver). *)
Definition common_segments (seglistdict : segmentlistdict) (v : offset_vector)
    : segmentlist :=
  let shifted (kv : string * Qc) :=
    segmentlist_shift (default [] (lists seglistdict !! kv.1)) kv.2 in
  match map_to_list v with
  | [] => []
  | kv :: kvs => foldl (λ acc kv', segmentlist_and acc (shifted kv')) (shifted kv) kvs
  end.

(** Modelled from the spec: pylal.llwapp is not part of the sources at
    hand.  For every given vector the shifted coverage of the instruments
    it names is intersected, the result is shifted back for each of them,
    and these results are unioned into one coincident-coverage map (step 3
    of the driver, section 4.4 of the design). *)
Definition get_coincident_segmentlistdict (seglistdict : segmentlistdict)
    (offset_vectors : list offset_vector) : segmentlistdict :=
  let names : gset string := ⋃ (dom <$> offset_vectors) in
  let coinc (k : string) : segmentlist :=
    coalesce (v ← offset_vectors;
              match v !! k with
              | Some o => segmentlist_shift (common_segments seglistdict v) (0 - o)
              | None => []
              end) in
  {| lists := map_imap (λ k _, Some (coinc k)) (gset_to_gmap () names);
     offsets := gset_to_gmap 0 names |}.

End llwapp.

(** ** The driver *)

(** [min([min(seg[0] for seg in seglist) for seglist in seglists.values() if seglist] or [None])] *)
Definition epoch_of (seglists : segmentlistdict) : option Qc :=
  match all_segments seglists with
  | [] => None
  | s :: l => Some (foldl Qc_min s.1 l.*1)
  end.

(** [cache.sort(key = lambda x: x.segment)] compares the entries' segments. *)
Definition segment_key_lt (a b : CacheEntry) : bool :=
  extent_lt (lal.segment a) (lal.segment b).

(** Modelled from the spec: the comparison of two entries is that of glue.lal,
    outside the sources at hand; entries are ordered by their bounding
    interval (section 6, and step 8 of the driver in section 4.4).  It
    decides the order of the members within a bin and nothing else. *)
Definition CacheEntry_lt (a b : CacheEntry) : bool :=
  extent_lt (lal.segment a) (lal.segment b).

Definition sort_objects (b : LALCacheBin) : LALCacheBin :=
  {| objects := py_sort CacheEntry_lt (objects b); size := size b; extent := extent b |}.

(** The coincident-coverage map of a cache (first half of [ligolw_cafe]). *)
Definition coincident_seglists (cache : list CacheEntry) (offset_vectors : list offset_vector)
    : result segmentlistdict :=
  let seglists := cache_to_seglistdict cache in
  let epoch := epoch_of seglists in
  seglists ← segmentlistdict_normalize seglists epoch;
  let seglists :=
    llwapp.get_coincident_segmentlistdict seglists
      (filter (λ offset_vector : offset_vector, dom offset_vector ⊆ keys seglists)
              (ligolw_tisi.time_slide_component_vectors offset_vectors 2)) in
  segmentlistdict_unnormalize seglists epoch.

(** The entries that take part in a coincidence, in time order. *)
Definition filter_cache (seglists : segmentlistdict) (cache : list CacheEntry)
    : list CacheEntry :=
  filter (λ c, intersects_all seglists (lal.to_segmentlistdict c) = true) cache.

Definition ligolw_cafe (cache : list CacheEntry) (offset_vectors : list offset_vector)
    (extentlimit : option Qc) : result (segmentlistdict * list LALCacheBin) :=
  seglists ← coincident_seglists cache offset_vectors;
  let cache := filter_cache seglists cache in
  let cache := py_sort segment_key_lt cache in
  let packer := CafePacker_init [] in
  packer ← set_offset_vectors packer offset_vectors;
  packer ← foldM pack packer cache;
  packer ← match extentlimit with
           | Some limit => split_bins packer limit
           | None => Ok packer
           end;
  Ok (seglists, sort_objects <$> bins packer).

(** ** Output *)

(** The files on disk: name ↦ the lines printed to the file. *)
Abbreviation files := (gmap string (list string)).

(** What [write_caches] is handed for [instruments]: a Python [set], or a
    [list], as [write_single_instrument_caches] hands it. *)
Inductive instrument_names : Type :=
  | PySet (s : gset string)
  | PyList (l : list string).

(** [instruments & set(...)]: [&] is defined between two sets; with a list
    on its left it raises [TypeError]. *)
Definition py_and (instruments : instrument_names) (other : gset string)
    : result (gset string) :=
  match instruments with
  | PySet s => Ok (s ∩ other)
  | PyList _ => Raise TypeError
  end.

(** [for instrument in instruments] *)
Definition py_iter (instruments : instrument_names) : list string :=
  match instruments with
  | PySet s => elements s
  | PyList l => l
  end.

(** ["%0Nd" % n]: the decimal digits of [n], with zeros in front up to the
    width [N]. *)
Definition zeros (k : nat) : string := Nat.iter k (String "0"%char) ""%string.

Definition zero_padded (width n : nat) : string :=
  zeros (width - String.length (pretty n)) +:+ pretty n.

(** [int(math.log10(len(bins)) + 1)]: the number of decimal digits of the
    number of bins ([math.log10] taken as exact, which it is below 10^15). *)
Definition pattern_width (len : nat) : nat := String.length (pretty len).

(** ["%s%0Nd.cache" % (base, n)] *)
Definition cache_filename (base : string) (width n : nat) : string :=
  base +:+ zero_padded width n +:+ ".cache"%string.

Section output.
(** [str(cacheentry)], of glue.lal. *)
Context (CacheEntry_str : CacheEntry → string).

(** The loop over [bin.objects] for one file: returns the lines printed, and
    the exception that ended the loop, if one did. *)
Fixpoint write_entries (instruments : instrument_names) (cache : list CacheEntry)
    (lines : list string) : list string * option exn :=
  match cache with
  | [] => (lines, None)
  | cacheentry :: cache' =>
      match py_and instruments (keys (lal.to_segmentlistdict cacheentry)) with
      | Raise e => (lines, Some e)
      | Ok common =>
          write_entries instruments cache'
            (if decide (common = ∅) then lines else lines ++ [CacheEntry_str cacheentry])
      end
  end.

(** The loop [for n, bin in enumerate(bins)]: every file is opened for
    writing, which empties it, before its lines are printed.  Returns the
    files as the loop leaves them, and the names, or the exception. *)
Fixpoint write_bins (base : string) (width : nat) (instruments : instrument_names)
    (n : nat) (bins : list LALCacheBin) (fs : files) (filenames : list string)
    : files * result (list string) :=
  match bins with
  | [] => (fs, Ok filenames)
  | bin :: bins' =>
      let filename := cache_filename base width n in
      let filenames := filenames ++ [filename] in
      let '(lines, raised) := write_entries instruments (objects bin) [] in
      let fs := <[filename := lines]> fs in
      match raised with
      | Some e => (fs, Raise e)
      | None => write_bins base width instruments (S n) bins' fs filenames
      end
  end.

Definition write_caches (base : string) (bins : list LALCacheBin)
    (instruments : instrument_names) (fs : files) : files * result (list string) :=
  write_bins base (pattern_width (length bins)) instruments 0 bins fs [].

(** The loop of [write_single_instrument_caches], which hands [write_caches]
    the list [[instrument]]. *)
Fixpoint write_instruments (base : string) (bins : list LALCacheBin)
    (instruments : list string) (fs : files) : files * result () :=
  match instruments with
  | [] => (fs, Ok ())
  | instrument :: instruments' =>
      match write_caches (base +:+ instrument +:+ "_"%string) bins (PyList [instrument]) fs with
      | (fs, Raise e) => (fs, Raise e)
      | (fs, Ok _) => write_instruments base bins instruments' fs
      end
  end.

Definition write_single_instrument_caches (base : string) (bins : list LALCacheBin)
    (instruments : instrument_names) (fs : files) : files * result () :=
  write_instruments base bins (py_iter instruments) fs.
End output.

(** * Specification *)

(** ** Orders, least and greatest *)

(** A boolean [lt] that is a strict total order. *)
Class StrictTotal {A} (lt : A → A → bool) : Prop := {
  lt_irrefl x : lt x x = false;
  lt_trans x y z : lt x y = true → lt y z = true → lt x z = true;
  lt_connex x y : lt x y = false → lt y x = false → x = y
}.

(** [x] is not after [y]. *)
Definition not_after {A} (lt : A → A → bool) (x y : A) : Prop := lt y x = false.

(** [m] is the least, resp. greatest, element of [l]. *)
Definition is_min (m : Qc) (l : list Qc) : Prop := m ∈ l ∧ ∀ y, y ∈ l → m ≤ y.
Definition is_max (m : Qc) (l : list Qc) : Prop := m ∈ l ∧ ∀ y, y ∈ l → y ≤ m.

(** ** Members and order of the bins *)

(** All the members of a list of bins, bin after bin. *)
Definition members (bs : list LALCacheBin) : list CacheEntry := bs ≫= objects.

(** Strictly descending indices. *)
Definition descending (ns : list nat) : Prop := StronglySorted (λ a b, (b < a)%nat) ns.

(** The indices [pack] finds to match, in the order the scan records them. *)
Definition matching_bins_of (self : CafePacker) (cache_entry : CacheEntry)
    : result (list nat) :=
  new ← LALCacheBin_add LALCacheBin_init cache_entry (lal.to_segmentlistdict cache_entry);
  r ← scan_bins self (length (bins self)) (bins self) new [];
  Ok r.2.

(** Ascending order of segments: by start, ties broken by end. *)
Definition segment_le (x y : segment) : Prop := x.1 < y.1 ∨ (x.1 = y.1 ∧ x.2 ≤ y.2).

Definition extent_le (a b : option segment) : Prop :=
  match a, b with
  | None, _ => True
  | Some _, None => False
  | Some x, Some y => segment_le x y
  end.

Definition bins_sorted (bs : list LALCacheBin) : Prop :=
  StronglySorted (λ a b, extent_le (extent a) (extent b)) bs.

(** ** The splitter *)

(** What replaces one bin: itself when it needs no splitting, else its
    pieces. *)
Definition split_one (cafepacker : CafePacker) (extentlimit : Qc) (origbin : LALCacheBin)
    : result (list LALCacheBin) :=
  n ← split_count origbin extentlimit;
  if decide (n ≤ 1)%Z then Ok [origbin] else split_bin cafepacker origbin n.

Fixpoint split_list (cafepacker : CafePacker) (extentlimit : Qc) (bs : list LALCacheBin)
    : result (list LALCacheBin) :=
  match bs with
  | [] => Ok []
  | b :: bs' =>
      pieces ← split_one cafepacker extentlimit b;
      rest ← split_list cafepacker extentlimit bs';
      Ok (pieces ++ rest)
  end.

(** The test that puts an entry in a new bin: its segment is not disjoint
    from the bin's extent protracted by [max_gap], and some offset vector
    makes its segments intersect the bin's extent. *)
Definition assigned (vs : list offset_vector) (gap : Qc) (bin_extent : segment)
    (c : CacheEntry) : bool :=
  match lal.segment c with
  | Some seg =>
      bool_decide (segment_disjoint seg (segment_protract bin_extent gap) = 0%Z)
      && entry_intersects vs (lal.to_segmentlistdict c) bin_extent
  | None => false
  end.

(** A piece made from the clipping segment [split]: its [size] is the
    original [size] clipped, its extent is that of its [size], and its
    members are the original members that pass the test. *)
Definition is_piece (cafepacker : CafePacker) (origbin : LALCacheBin)
    (split : bound * bound) (b : LALCacheBin) : Prop :=
  ∃ e gap,
    size b = del_empty (and_segment (size origbin) split.1 split.2) ∧
    extent_all (size b) = Ok e ∧ extent b = Some e ∧
    max_gap cafepacker = Some gap ∧
    objects b =
      filter (λ c, assigned (default [] (offset_vectors cafepacker)) gap e c = true)
             (objects origbin).

(** The consecutive pairs of [lo], the cuts, +infinity. *)
Definition pairs_from (lo : bound) (cuts : list Qc) : list (bound * bound) :=
  zip (lo :: (Finite <$> cuts)) ((Finite <$> cuts) ++ [PosInfinity]).

(** The end points a clipping segment stands for inside the extent [e]. *)
Definition lower (e : segment) (lo : bound) : Qc :=
  match lo with Finite t => t | _ => e.1 end.
Definition upper (e : segment) (hi : bound) : Qc :=
  match hi with Finite t => t | _ => e.2 end.

(** The Bin invariant: the cached extent is the extent of [size]. *)
Definition bin_consistent (b : LALCacheBin) : Prop :=
  ∃ e, extent b = Some e ∧ extent_all (size b) = Ok e.

(** A bin whose extent is no longer than [limit]. *)
Definition within_limit (limit : Qc) (b : LALCacheBin) : Prop :=
  ∃ e, extent b = Some e ∧ segment_abs e ≤ limit.

(** What [split_bins] puts in the place of [origbin]: the bin itself when it
    is within the limit, else [n = ceil(d / limit)] pieces made from the
    [n - 1] cuts that are [d / n] apart, the outermost clipping segments
    reaching to -infinity and +infinity. *)
Definition replaces (cafepacker : CafePacker) (limit : Qc) (origbin : LALCacheBin)
    (ps : list LALCacheBin) : Prop :=
  ∃ e, extent origbin = Some e ∧
    if decide (segment_abs e ≤ limit) then ps = [origbin]
    else
      let n := Qceiling (segment_abs e / limit) in
      length ps = Z.to_nat n ∧
      ∃ cuts,
        length cuts = Z.to_nat (n - 1) ∧
        (∀ (i : nat) c, cuts !! i = Some c →
           c = e.1 + Qc_of_Z (Z.of_nat (S i)) * (segment_abs e / Qc_of_Z n)) ∧
        Forall2 (is_piece cafepacker origbin) (pairs_from NegInfinity cuts) ps.

(** A bin that [split_bins] can split: it has an extent, its members have
    segments, and no clipping segment misses its [size] altogether. *)
Definition splittable (limit : Qc) (b : LALCacheBin) : Prop :=
  ∃ e, extent b = Some e ∧
    Forall (λ c, is_Some (lal.segment c)) (objects b) ∧
    Forall (λ split : bound * bound,
              all_segments (del_empty (and_segment (size b) split.1 split.2)) ≠ [])
           (split_segments e (Qceiling (segment_abs e / limit))).

(** ** Example data *)

Module examples.
Open Scope string_scope.

Definition t (z : Z) : Qc := Qc_of_Z z.

Definition entry (instruments : list string) (lo hi : Z) (name : string) : CacheEntry :=
  {| lal.observatory := instruments; lal.segment := Some (t lo, t hi); lal.url := name |}.

Definition names (bs : list LALCacheBin) : list (list string) :=
  (λ b, lal.url <$> objects b) <$> bs.

(** Scenario A of the design: two instruments, no shift. *)
Definition zero_lag : offset_vector := {[ "X" := t 0; "Y" := t 0 ]}.
Definition a1 := entry ["X"] 0 10 "a1".
Definition a2 := entry ["Y"] 5 15 "a2".
Definition a3 := entry ["X"] 1000 1010 "a3".

(** Two long files over the same stretch of time. *)
Definition b1 := entry ["X"] 0 100 "b1".
Definition b2 := entry ["Y"] 0 100 "b2".

(** A long file of X, a short pair in Y and Z at its start, and a later
    pair in X and Y; Y and Z are read 20 s early. *)
Definition early : offset_vector := {[ "X" := t 0; "Y" := t (-20); "Z" := t (-20) ]}.
Definition c1 := entry ["X"] 0 1000 "c1".
Definition c2 := entry ["Y"] 5 10 "c2".
Definition c3 := entry ["Z"] 5 10 "c3".
Definition c4 := entry ["X"] 500 510 "c4".
Definition c5 := entry ["Y"] 520 530 "c5".

Definition configured (vs : list offset_vector) : CafePacker :=
  match set_offset_vectors (CafePacker_init []) vs with
  | Ok p => p
  | Raise _ => CafePacker_init []
  end.

Definition packed (vs : list offset_vector) (cache : list CacheEntry) : CafePacker :=
  match foldM pack (configured vs) cache with
  | Ok p => p
  | Raise _ => CafePacker_init []
  end.

Definition split (p : CafePacker) (limit : Qc) : CafePacker :=
  match split_bins p limit with
  | Ok p' => p'
  | Raise _ => p
  end.

Definition run (cache : list CacheEntry) (vs : list offset_vector) (limit : option Qc)
    : segmentlistdict * list LALCacheBin :=
  match ligolw_cafe cache vs limit with
  | Ok r => r
  | Raise _ => (empty_dict, [])
  end.

Definition cache : list CacheEntry := [c1; c2; c3; c4; c5].

(** Two short files 1000 s apart, coincident when Y is read 1000 s early. *)
Definition far : offset_vector := {[ "X" := t 0; "Y" := t (-1000) ]}.
Definition g1 := entry ["X"] 0 10 "g1".
Definition g2 := entry ["Y"] 1000 1010 "g2".
End examples.

(** ** Coincidence closure and the bail-out *)

Global Instance CacheEntry_eq_dec : EqDecision CacheEntry.
Proof. solve_decision. Defined.

(** Two entries are together when some bin holds both. *)
Definition together (a b : CacheEntry) (bs : list LALCacheBin) : Prop :=
  Exists (λ bin, a ∈ objects bin ∧ b ∈ objects bin) bs.

Global Instance together_dec a b bs : Decision (together a b bs).
Proof. unfold together. apply _. Defined.

(** The coincidence of two entries under an offset vector [v]: on some
    instrument that both have and that [v] names, their segments, shifted as
    [v] says, intersect. *)
Definition coincident_on_shared (v : offset_vector) (a b : CacheEntry) : bool :=
  let sa := offsets_update (lal.to_segmentlistdict a) v in
  let sb := offsets_update (lal.to_segmentlistdict b) v in
  existsb (λ k, match lists sa !! k, lists sb !! k with
                | Some la, Some lb => segmentlist_intersects la lb
                | _, _ => false
                end) (elements (dom v)).

(** The closure of the bins of [ligolw_cafe] under coincidence. *)
Definition coincidence_closure (cache : list CacheEntry) (vs : list offset_vector) : Prop :=
  ∀ seglists outbins a b,
    ligolw_cafe cache vs None = Ok (seglists, outbins) →
    a ∈ filter_cache seglists cache → b ∈ filter_cache seglists cache →
    (∃ v, v ∈ vs ∧ coincident_on_shared v a b = true) →
    together a b outbins.

(** The bail-out of [pack] is sound when no bin before the one that stops
    the scan matches the new entry. *)
Definition bail_out_sound (self : CafePacker) (cache_entry : CacheEntry) : Prop :=
  ∀ new vs gap (n j : nat) bin skipped bin_extent new_extent,
    LALCacheBin_add LALCacheBin_init cache_entry (lal.to_segmentlistdict cache_entry)
      = Ok new →
    offset_vectors self = Some vs → max_gap self = Some gap →
    bins self !! n = Some bin → extent bin = Some bin_extent →
    extent new = Some new_extent →
    bail_out bin_extent new_extent gap = true →
    (j < n)%nat → bins self !! j = Some skipped →
    (match_offset_vectors vs (size new) (size skipped)).2 = false.

(** ** Well-formed dictionaries, bins and packers *)

(** A dictionary at rest: every list is at offset 0. *)
Definition normal (d : segmentlistdict) : Prop := offsets d = (λ _, 0) <$> lists d.

(** [d] holds the lists of [base], each moved to the offset [d] records. *)
Definition tracks (base d : segmentlistdict) : Prop :=
  ∀ k, lists d !! k = (λ l, segmentlist_shift l (offset_of d k)) <$> (lists base !! k).

(** The extent of a bin is that of its [size], which is at rest. *)
Definition bin_ok (b : LALCacheBin) : Prop := bin_consistent b ∧ normal (size b).

(** A packer on which [set_offset_vectors] has run. *)
Definition is_configured (self : CafePacker) : Prop :=
  is_Some (offset_vectors self) ∧ is_Some (max_gap self).

(** ** Bins and the segments of their members *)

(** [s] lies within [s']. *)
Definition within (s s' : segment) : Prop := s'.1 ≤ s.1 ∧ s.2 ≤ s'.2.

(** The [size] of a bin is made of the segments of its members: every
    segment of [size] starts where a member starts and ends where a member
    ends, and the segment of every member lies within a segment of [size]. *)
Definition size_covers (b : LALCacheBin) : Prop :=
  (∀ s, s ∈ all_segments (size b) →
     (∃ c s1, c ∈ objects b ∧ lal.segment c = Some s1 ∧ s1.1 = s.1) ∧
     (∃ c s2, c ∈ objects b ∧ lal.segment c = Some s2 ∧ s2.2 = s.2)) ∧
  (∀ c, c ∈ objects b →
     ∃ s0 s, lal.segment c = Some s0 ∧ s ∈ all_segments (size b) ∧ within s0 s).

(** The extent of a bin is the tightest segment around the segments of its
    members. *)
Definition spans (b : LALCacheBin) : Prop :=
  ∃ e, extent b = Some e ∧
    (∀ c, c ∈ objects b → ∃ s, lal.segment c = Some s ∧ within s e) ∧
    (∃ c s, c ∈ objects b ∧ lal.segment c = Some s ∧ s.1 = e.1) ∧
    (∃ c s, c ∈ objects b ∧ lal.segment c = Some s ∧ s.2 = e.2).

(** ** Bins in order of end *)

(** The bins end in ascending order: no bin ends after a bin that comes
    later in the list. *)
Definition ends_ascending (bs : list LALCacheBin) : Prop :=
  ∀ (i j : nat) bi bj ei ej,
    (i ≤ j)%nat → bs !! i = Some bi → bs !! j = Some bj →
    extent bi = Some ei → extent bj = Some ej → ei.2 ≤ ej.2.

(** ** Segments in order *)

(** Every segment of the dictionary has its start before its end, as the
    segments of glue.segments have. *)
Definition ordered (d : segmentlistdict) : Prop :=
  Forall (λ s : segment, s.1 ≤ s.2) (all_segments d).

(** ** Bins in time order *)

(** [a] ends before [b] starts, both extents being in order themselves. *)
Definition before (a b : LALCacheBin) : Prop :=
  ∃ ea eb, extent a = Some ea ∧ extent b = Some eb ∧
    ea.1 ≤ ea.2 ∧ ea.2 ≤ eb.1 ∧ eb.1 ≤ eb.2.

(** ** More example data *)

Module cases.
Import examples.

(** The bin [pack] makes of one entry before it looks for matches. *)
Definition bin_of (c : CacheEntry) : LALCacheBin :=
  match LALCacheBin_add LALCacheBin_init c (lal.to_segmentlistdict c) with
  | Ok b => b
  | Raise _ => LALCacheBin_init
  end.

(** The bin at index [n]. *)
Definition nth_bin (p : CafePacker) (n : nat) : LALCacheBin :=
  default LALCacheBin_init (bins p !! n).

(** The long file of X and the short pair of Y and Z, packed. *)
Definition three : CafePacker := packed [early] [c1; c2; c3].

(** A file of X that is coincident with both bins of [three]. *)
Definition both := entry ["X"] (-12) 5 "both".

(** An entry that names no instrument, and one that has no segment. *)
Definition nameless : CacheEntry :=
  {| lal.observatory := []; lal.segment := Some (t 0, t 5); lal.url := "nameless" |}.
Definition timeless : CacheEntry :=
  {| lal.observatory := ["X"]; lal.segment := None; lal.url := "timeless" |}.

(** One vector that reads X and Y 100 s late, both. *)
Definition shifted : offset_vector := {[ "X" := t 100; "Y" := t 100 ]}.
End cases.

(** ** The splitter in the arithmetic of the code *)

Section arithmetic_spec.
Context (py : arithmetic).

Definition split_one_with (cafepacker : CafePacker) (extentlimit : Qc)
    (origbin : LALCacheBin) : result (list LALCacheBin) :=
  n ← split_count_with py origbin extentlimit;
  if decide (n ≤ 1)%Z then Ok [origbin] else split_bin_with py cafepacker origbin n.

Fixpoint split_list_with (cafepacker : CafePacker) (extentlimit : Qc)
    (bs : list LALCacheBin) : result (list LALCacheBin) :=
  match bs with
  | [] => Ok []
  | b :: bs' =>
      pieces ← split_one_with cafepacker extentlimit b;
      rest ← split_list_with cafepacker extentlimit bs';
      Ok (pieces ++ rest)
  end.

(** The cuts of a bin of extent [e] in [n] pieces are no further than [δ]
    from the times that are [d / n] apart. *)
Definition cuts_near (δ : Qc) (e : segment) (n : Z) : Prop :=
  ∀ (i : nat) c, split_times_with py e n !! i = Some c →
    e.1 + Qc_of_Z (1 + Z.of_nat i) * (segment_abs e / Qc_of_Z n) - δ ≤ c ∧
    c ≤ e.1 + Qc_of_Z (1 + Z.of_nat i) * (segment_abs e / Qc_of_Z n) + δ.

(** What rounding keeps of the order: [float] is monotone and leaves the
    limit, a float, as it is, and the quotient of a float by one that is no
    smaller is 1 at most. *)
Definition rounds_in_order (limit : Qc) : Prop :=
  (∀ x y, x ≤ y → float py x ≤ float py y) ∧
  float py limit = limit ∧
  (∀ x y, 0 < y → x ≤ y → float_div py x y ≤ 1).

(** What [split_bins] puts in the place of [origbin]: the bin itself when
    the count [n] it computes is 1 at most, as it is for a bin within the
    limit; else [n] pieces, one for each clipping segment, each with an
    extent within the extent of the bin and the finite ends of its clipping
    segment, and so no longer than [d / n] and twice what the cuts are off
    the even times, which is the limit and twice that when [n] is no less
    than [d / limit]. *)
Definition replaces_with (cafepacker : CafePacker) (limit : Qc) (origbin : LALCacheBin)
    (ps : list LALCacheBin) : Prop :=
  ∃ e n, extent origbin = Some e ∧
    n = Qceiling (float_div py (float py (segment_abs e)) limit) ∧
    (rounds_in_order limit → 0 < limit → segment_abs e ≤ limit → ps = [origbin]) ∧
    if decide (n ≤ 1)%Z then ps = [origbin]
    else
      length ps = Z.to_nat n ∧
      Forall2 (λ split b,
                 is_piece cafepacker origbin split b ∧
                 ∃ eb, extent b = Some eb ∧ within eb e ∧
                       (∀ t, split.1 = Finite t → t ≤ eb.1) ∧
                       (∀ t, split.2 = Finite t → eb.2 ≤ t))
              (split_segments_with py e n) ps ∧
      ∀ δ, 0 ≤ δ → e.1 ≤ e.2 → cuts_near δ e n →
           Forall (λ b, ∃ eb, extent b = Some eb ∧
                              segment_abs eb ≤ segment_abs e / Qc_of_Z n + 2 * δ ∧
                              (0 < limit → segment_abs e / limit ≤ Qc_of_Z n →
                               segment_abs eb ≤ limit + 2 * δ)) ps.

End arithmetic_spec.

Module rounding.
Import examples.

(** One file of X over [0, 1), in a bin of its own. *)
Definition second : CafePacker := packed [zero_lag] [entry ["X"] 0 1 "u"].

(** The floats [0.33333333334303] and [1.0 / 3]. *)
Definition limit : Qc := binary64 (Qc_of_Z 33333333334303 / Qc_of_Z 100000000000000).
Definition third : Qc := binary64 (Qc_of_Z 1 / Qc_of_Z 3).

Definition split_with (py : arithmetic) (p : CafePacker) (limit : Qc) : CafePacker :=
  match split_bins_with py p limit with
  | Ok p' => p'
  | Raise _ => p
  end.

End rounding.

(** ** Reading a decimal numeral *)

(** The number a string of decimal digits stands for, zeros in front
    counting for nothing. *)
Definition digit_value (c : ascii) : N := (N_of_ascii c - 48)%N.

Fixpoint decimal_value (acc : N) (s : string) : N :=
  match s with
  | EmptyString => acc
  | String c s' => decimal_value (10 * acc + digit_value c) s'
  end.

(** The entries [write_caches] prints for a set of instruments: those that
    name one of them. *)
Definition names_one_of (s : gset string) (c : CacheEntry) : Prop :=
  s ∩ keys (lal.to_segmentlistdict c) ≠ ∅.

Global Instance names_one_of_dec s c : Decision (names_one_of s c).
Proof. unfold names_one_of. apply _. Defined.

(** * Properties *)

(** ** Orders *)

Lemma lt_asym {A} (lt : A → A → bool) `{!StrictTotal lt} x y :
  lt x y = true → lt y x = false.
Proof.
  intros Hxy. destruct (lt y x) eqn:Hyx; [|done].
  pose proof (lt_trans x y x Hxy Hyx) as H. by rewrite lt_irrefl in H.
Qed.

Lemma not_after_trans {A} (lt : A → A → bool) `{!StrictTotal lt} :
  Transitive (not_after lt).
Proof.
  intros x y z Hxy Hyz. unfold not_after in *.
  destruct (lt z x) eqn:Hzx; [|done].
  destruct (lt y x) eqn:E1; [done|]. destruct (lt x y) eqn:E2.
  - by rewrite (lt_trans (lt:=lt) z x y Hzx E2) in Hyz.
  - apply lt_connex in E1; [|done]. by subst; rewrite Hzx in Hyz.
Qed.

Lemma not_after_antisym {A} (lt : A → A → bool) `{!StrictTotal lt} :
  AntiSymm (=) (not_after lt).
Proof. intros x y Hxy Hyx. by apply (lt_connex (lt:=lt)). Qed.

Lemma Qc_lt_true x y : Qc_lt x y = true ↔ x < y.
Proof. unfold Qc_lt. by rewrite bool_decide_eq_true. Qed.
Lemma Qc_lt_false x y : Qc_lt x y = false ↔ y ≤ x.
Proof. unfold Qc_lt. by rewrite bool_decide_eq_false, Qcle_ngt. Qed.
Lemma Qc_le_true x y : Qc_le x y = true ↔ x ≤ y.
Proof. unfold Qc_le. by rewrite bool_decide_eq_true. Qed.
Lemma Qc_le_false x y : Qc_le x y = false ↔ y < x.
Proof. unfold Qc_le. by rewrite bool_decide_eq_false, Qclt_nge. Qed.

Global Instance Qc_lt_strict_total : StrictTotal Qc_lt.
Proof.
  split.
  - intros x. apply Qc_lt_false. reflexivity.
  - intros x y z. rewrite !Qc_lt_true. apply Qclt_trans.
  - intros x y. rewrite !Qc_lt_false. intros. by apply Qcle_antisym.
Qed.

Global Instance pair_lt_strict_total {A B} `{EqDecision A}
    (ltA : A → A → bool) (ltB : B → B → bool)
    `{!StrictTotal ltA, !StrictTotal ltB} : StrictTotal (pair_lt ltA ltB).
Proof.
  split.
  - intros [a b]. unfold pair_lt; simpl. rewrite decide_True by done. apply lt_irrefl.
  - intros [a1 b1] [a2 b2] [a3 b3]. unfold pair_lt; simpl.
    repeat case_decide; subst; try done.
    + apply lt_trans.
    + intros H1 H2. by rewrite (lt_asym ltA _ _ H1) in H2.
    + apply lt_trans.
  - intros [a1 b1] [a2 b2]. unfold pair_lt; simpl.
    repeat case_decide; subst; try done.
    + intros. f_equal. by apply (lt_connex (lt:=ltB)).
    + intros H1 H2. by destruct H; apply (lt_connex (lt:=ltA)).
Qed.

Global Instance segment_lt_strict_total : StrictTotal segment_lt.
Proof. unfold segment_lt. apply _. Qed.

Global Instance list_lt_strict_total {A} (lt : A → A → bool) `{!StrictTotal lt} :
  StrictTotal (list_lt lt).
Proof.
  split.
  - intros l. induction l as [|x l IH]; simpl; [done|]. by rewrite lt_irrefl.
  - intros l1. induction l1 as [|x l1 IH]; intros [|y l2] [|z l3]; simpl; try done.
    destruct (lt x y) eqn:Exy.
    + intros _. destruct (lt y z) eqn:Eyz.
      * by rewrite (lt_trans (lt:=lt) x y z Exy Eyz).
      * destruct (lt z y) eqn:Ezy; [done|].
        apply lt_connex in Eyz; [|done]. subst. by rewrite Exy.
    + destruct (lt y x) eqn:Eyx; [done|].
      apply lt_connex in Exy; [|done]. subst.
      intros H1. destruct (lt x z); [done|]. destruct (lt z x); [done|]. by apply IH.
  - intros l1. induction l1 as [|x l1 IH]; intros [|y l2]; simpl; try done.
    destruct (lt x y) eqn:Exy; [done|]. destruct (lt y x) eqn:Eyx; [done|].
    apply lt_connex in Exy; [|done]. subst. intros. f_equal. by apply IH.
Qed.

(** Python 2 compares strings byte by byte. *)
Lemma ascii_compare_trans a b c :
  Ascii.compare a b = Lt → Ascii.compare b c = Lt → Ascii.compare a c = Lt.
Proof. unfold Ascii.compare. rewrite !N.compare_lt_iff. lia. Qed.

Lemma ascii_compare_eq a b : Ascii.compare a b = Eq → a = b.
Proof.
  unfold Ascii.compare. rewrite N.compare_eq_iff. intros H.
  by rewrite <-(Ascii.ascii_N_embedding a), <-(Ascii.ascii_N_embedding b), H.
Qed.

Lemma ascii_compare_refl a : Ascii.compare a a = Eq.
Proof. unfold Ascii.compare. apply N.compare_refl. Qed.

Lemma string_compare_trans s1 s2 s3 :
  String.compare s1 s2 = Lt → String.compare s2 s3 = Lt → String.compare s1 s3 = Lt.
Proof.
  revert s2 s3. induction s1 as [|a s1 IH]; intros [|b s2] [|c s3]; simpl; try done.
  destruct (Ascii.compare a b) eqn:Eab; try done.
  - apply ascii_compare_eq in Eab. subst. destruct (Ascii.compare b c); try done. apply IH.
  - intros _. destruct (Ascii.compare b c) eqn:Ebc; try done.
    + apply ascii_compare_eq in Ebc. subst. by rewrite Eab.
    + by rewrite (ascii_compare_trans a b c Eab Ebc).
Qed.

Global Instance string_lt_strict_total : StrictTotal string_lt.
Proof.
  unfold string_lt, String.ltb. split.
  - intros s. pose proof (String.compare_antisym s s) as H.
    by destruct (String.compare s s).
  - intros x y z. destruct (String.compare x y) eqn:E1; try done.
    destruct (String.compare y z) eqn:E2; try done.
    by rewrite (string_compare_trans x y z E1 E2).
  - intros x y. destruct (String.compare x y) eqn:E1; try done.
    + intros. by apply String.compare_eq_iff.
    + by rewrite String.compare_antisym, E1.
Qed.

(** ** [py_sort] *)

Section py_sort_facts.
Context {A : Type} (lt : A → A → bool).

Lemma sort_insert_Permutation x l : sort_insert lt x l ≡ₚ x :: l.
Proof.
  induction l as [|y l IH]; simpl; [done|].
  destruct (lt y x); [|done]. by rewrite IH, Permutation_swap.
Qed.

Lemma py_sort_Permutation l : py_sort lt l ≡ₚ l.
Proof.
  induction l as [|x l IH]; simpl; [done|].
  by rewrite sort_insert_Permutation, IH.
Qed.

Lemma py_sort_length l : length (py_sort lt l) = length l.
Proof. by rewrite py_sort_Permutation. Qed.

Lemma py_sort_elem_of x l : x ∈ py_sort lt l ↔ x ∈ l.
Proof. by rewrite py_sort_Permutation. Qed.

(** Sortedness needs no more than asymmetry. *)
Hypothesis asym : ∀ x y, lt x y = true → lt y x = false.

Lemma sort_insert_Sorted x l :
  Sorted (not_after lt) l → Sorted (not_after lt) (sort_insert lt x l).
Proof.
  induction 1 as [|y l Hl IH Hhd]; simpl; [by repeat constructor|].
  destruct (lt y x) eqn:Hyx.
  - constructor; [done|]. destruct Hhd as [|z l Hz]; simpl.
    + constructor. by apply asym.
    + destruct (lt z x); constructor; [done|]. by apply asym.
  - constructor; [by constructor|]. by constructor.
Qed.

Lemma py_sort_Sorted l : Sorted (not_after lt) (py_sort lt l).
Proof. induction l; simpl; [constructor|]. by apply sort_insert_Sorted. Qed.
End py_sort_facts.

(** Sorting with a strict total order forgets the order of the input. *)
Lemma py_sort_unique {A} (lt : A → A → bool) `{!StrictTotal lt} l1 l2 :
  l1 ≡ₚ l2 → py_sort lt l1 = py_sort lt l2.
Proof.
  intros Hp.
  pose proof (not_after_trans lt). pose proof (not_after_antisym lt).
  apply (Sorted_unique (not_after lt)).
  - apply py_sort_Sorted. by apply lt_asym.
  - apply py_sort_Sorted. by apply lt_asym.
  - by rewrite !py_sort_Permutation.
Qed.

(** ** The result monad *)

Lemma bind_Ok {A B} (f : A → result B) (m : result A) (b : B) :
  m ≫= f = Ok b ↔ ∃ a, m = Ok a ∧ f a = Ok b.
Proof.
  destruct m as [a|e]; unfold mbind, result_bind; split.
  - intros. by exists a.
  - by intros (a' & [= <-] & ?).
  - done.
  - by intros (a' & ? & ?).
Qed.

Lemma bind_Raise {A B} (f : A → result B) (m : result A) (e : exn) :
  m ≫= f = Raise e ↔ m = Raise e ∨ ∃ a, m = Ok a ∧ f a = Raise e.
Proof.
  destruct m as [a|e']; unfold mbind, result_bind; split.
  - intros. right. by exists a.
  - by intros [?|(a' & [= <-] & ?)].
  - intros [= ->]. by left.
  - by intros [[= ->]|(a' & ? & ?)].
Qed.

Lemma mapM_result_Ok {A B} (f : A → result B) l ys :
  mapM_result f l = Ok ys ↔ Forall2 (λ x y, f x = Ok y) l ys.
Proof.
  revert ys. induction l as [|x l IH]; intros ys; simpl.
  - split; [intros [= <-]; constructor | by inversion 1].
  - rewrite bind_Ok. split.
    + intros (y & Hy & H). apply bind_Ok in H as (ys' & Hys & [= <-]).
      constructor; [done|]. by apply IH.
    + inversion 1 as [|? y ? ys' Hy Hys]; subst. exists y. split; [done|].
      apply IH in Hys. by rewrite Hys.
Qed.

Lemma mapM_result_Raise {A B} (f : A → result B) l e :
  mapM_result f l = Raise e → ∃ x, x ∈ l ∧ f x = Raise e.
Proof.
  induction l as [|x l IH]; simpl; [done|].
  destruct (f x) eqn:Hx; simpl.
  - destruct (mapM_result f l); simpl; [done|]. intros [= ->].
    destruct IH as (y & ? & ?); [done|]. exists y. split; [by right|done].
  - intros [= ->]. exists x. split; [by left|done].
Qed.

(** ** [min] and [max] *)

Lemma Qc_min_spec x y : (Qc_min x y = x ∧ x ≤ y) ∨ (Qc_min x y = y ∧ y ≤ x).
Proof.
  unfold Qc_min. destruct (Qc_lt y x) eqn:E.
  - right. split; [done|]. apply Qc_lt_true in E. by apply Qclt_le_weak.
  - left. split; [done|]. by apply Qc_lt_false in E.
Qed.

Lemma Qc_max_spec x y : (Qc_max x y = x ∧ y ≤ x) ∨ (Qc_max x y = y ∧ x ≤ y).
Proof.
  unfold Qc_max. destruct (Qc_lt x y) eqn:E.
  - right. split; [done|]. apply Qc_lt_true in E. by apply Qclt_le_weak.
  - left. split; [done|]. by apply Qc_lt_false in E.
Qed.

Lemma foldl_Qc_min x l :
  foldl Qc_min x l ∈ x :: l ∧ ∀ y, y ∈ x :: l → foldl Qc_min x l ≤ y.
Proof.
  revert x. induction l as [|z l IH]; intros x; simpl.
  - split; [by left|]. intros y ->%list_elem_of_singleton. apply Qcle_refl.
  - destruct (IH (Qc_min x z)) as [Hin Hle]. split.
    + apply elem_of_cons in Hin as [Hin|Hin]; [|by do 2 right].
      rewrite Hin. destruct (Qc_min_spec x z) as [[-> _]|[-> _]]; [by left|right; by left].
    + intros y Hy. assert (Qc_min x z ≤ y ∨ y ∈ l) as [H|H].
      { apply elem_of_cons in Hy as [->|Hy].
        - left. destruct (Qc_min_spec x z) as [[-> ?]|[-> ?]]; [apply Qcle_refl|done].
        - apply elem_of_cons in Hy as [->|Hy]; [|by right].
          left. destruct (Qc_min_spec x z) as [[-> ?]|[-> ?]]; [done|apply Qcle_refl]. }
      * eapply Qcle_trans; [|exact H]. apply Hle. by left.
      * apply Hle. by right.
Qed.

Lemma foldl_Qc_max x l :
  foldl Qc_max x l ∈ x :: l ∧ ∀ y, y ∈ x :: l → y ≤ foldl Qc_max x l.
Proof.
  revert x. induction l as [|z l IH]; intros x; simpl.
  - split; [by left|]. intros y ->%list_elem_of_singleton. apply Qcle_refl.
  - destruct (IH (Qc_max x z)) as [Hin Hle]. split.
    + apply elem_of_cons in Hin as [Hin|Hin]; [|by do 2 right].
      rewrite Hin. destruct (Qc_max_spec x z) as [[-> _]|[-> _]]; [by left|right; by left].
    + intros y Hy. assert (y ≤ Qc_max x z ∨ y ∈ l) as [H|H].
      { apply elem_of_cons in Hy as [->|Hy].
        - left. destruct (Qc_max_spec x z) as [[-> ?]|[-> ?]]; [apply Qcle_refl|done].
        - apply elem_of_cons in Hy as [->|Hy]; [|by right].
          left. destruct (Qc_max_spec x z) as [[-> ?]|[-> ?]]; [done|apply Qcle_refl]. }
      * eapply Qcle_trans; [exact H|]. apply Hle. by left.
      * apply Hle. by right.
Qed.

Lemma py_min_Ok l m : py_min l = Ok m → is_min m l.
Proof. destruct l as [|x l]; simpl; [done|]. intros [= <-]. apply foldl_Qc_min. Qed.

Lemma py_max_Ok l m : py_max l = Ok m → is_max m l.
Proof. destruct l as [|x l]; simpl; [done|]. intros [= <-]. apply foldl_Qc_max. Qed.

Lemma py_min_nonempty l : l ≠ [] → ∃ m, py_min l = Ok m.
Proof. destruct l; [done|]. by eexists. Qed.

Lemma py_max_nonempty l : l ≠ [] → ∃ m, py_max l = Ok m.
Proof. destruct l; [done|]. by eexists. Qed.

Lemma py_min_Raise l e : py_min l = Raise e → l = [] ∧ e = ValueError.
Proof. destruct l; simpl; [by intros [= <-]|done]. Qed.

Lemma py_max_Raise l e : py_max l = Raise e → l = [] ∧ e = ValueError.
Proof. destruct l; simpl; [by intros [= <-]|done]. Qed.

Lemma values_nonempty (v : offset_vector) : values v ≠ [] ↔ v ≠ ∅.
Proof.
  unfold values. rewrite <-(map_to_list_empty_iff v).
  destruct (map_to_list v); simpl; naive_solver.
Qed.

(** The least of the least offsets of the vectors is the least offset of
    all, and likewise for the greatest. *)
Lemma is_min_nested (vs : list offset_vector) mins m :
  Forall2 (λ v x, is_min x (values v)) vs mins → is_min m mins →
  is_min m (vs ≫= values).
Proof.
  intros HF [Hin Hle]. split.
  - apply list_elem_of_lookup in Hin as [i Hi].
    destruct (Forall2_lookup_r _ _ _ _ _ HF Hi) as (v & Hv & [Hm _]).
    apply list_elem_of_bind. exists v. split; [done|]. by eapply list_elem_of_lookup_2.
  - intros y (v & Hy & Hv)%list_elem_of_bind.
    apply list_elem_of_lookup in Hv as [i Hi].
    destruct (Forall2_lookup_l _ _ _ _ _ HF Hi) as (x & Hx & [_ Hxle]).
    eapply Qcle_trans; [|by apply Hxle]. apply Hle. by eapply list_elem_of_lookup_2.
Qed.

Lemma is_max_nested (vs : list offset_vector) maxs m :
  Forall2 (λ v x, is_max x (values v)) vs maxs → is_max m maxs →
  is_max m (vs ≫= values).
Proof.
  intros HF [Hin Hle]. split.
  - apply list_elem_of_lookup in Hin as [i Hi].
    destruct (Forall2_lookup_r _ _ _ _ _ HF Hi) as (v & Hv & [Hm _]).
    apply list_elem_of_bind. exists v. split; [done|]. by eapply list_elem_of_lookup_2.
  - intros y (v & Hy & Hv)%list_elem_of_bind.
    apply list_elem_of_lookup in Hv as [i Hi].
    destruct (Forall2_lookup_l _ _ _ _ _ HF Hi) as (x & Hx & [_ Hxle]).
    eapply Qcle_trans; [by apply Hxle|]. apply Hle. by eapply list_elem_of_lookup_2.
Qed.

Lemma is_min_le_is_max lo hi l : is_min lo l → is_max hi l → lo ≤ hi.
Proof. intros [Hin _] [_ Hle]. by apply Hle. Qed.

(** ** [set_offset_vectors] *)

(** What [set_offset_vectors] computes when it returns. *)
Lemma set_offset_vectors_Ok self vs p :
  set_offset_vectors self vs = Ok p →
  ∃ lo hi, is_min lo (vs ≫= values) ∧ is_max hi (vs ≫= values) ∧
    p = {| bins := bins self;
           offset_vectors := Some (py_sort offset_vector_lt vs);
           max_gap := Some (hi - lo) |}.
Proof.
  unfold set_offset_vectors. intros H.
  apply bind_Ok in H as (mins & Hmins & H). apply bind_Ok in H as (lo & Hlo & H).
  apply bind_Ok in H as (maxs & Hmaxs & H). apply bind_Ok in H as (hi & Hhi & H).
  destruct (Qc_le 0 (hi - lo)); [|done]. injection H as <-.
  exists lo, hi. split_and!; [| |done].
  - eapply is_min_nested; [|by apply py_min_Ok].
    apply mapM_result_Ok in Hmins. eapply Forall2_impl; [done|].
    intros v x. apply py_min_Ok.
  - eapply is_max_nested; [|by apply py_max_Ok].
    apply mapM_result_Ok in Hmaxs. eapply Forall2_impl; [done|].
    intros v x. apply py_max_Ok.
Qed.

Lemma mapM_result_total {A B} (f : A → result B) l :
  Forall (λ x, ∃ y, f x = Ok y) l → ∃ ys, mapM_result f l = Ok ys ∧ length ys = length l.
Proof.
  induction 1 as [|x l [y Hy] _ (ys & Hys & Hlen)]; simpl; [by exists []|].
  exists (y :: ys). rewrite Hy, Hys. simpl. by rewrite Hlen.
Qed.

Lemma Qc_sub_nonneg (lo hi : Qc) : lo ≤ hi → 0 ≤ hi - lo.
Proof.
  intros H. apply (Qcplus_le_mono_r _ _ lo).
  by replace (hi - lo + lo) with hi by ring; rewrite Qcplus_0_l.
Qed.

(** The outcomes of [set_offset_vectors]: it returns, or raises the
    [ValueError] of a [min] over nothing. *)
Lemma set_offset_vectors_outcome self vs :
  match set_offset_vectors self vs with
  | Ok p => ∃ gap, max_gap p = Some gap ∧ 0 ≤ gap
  | Raise e => e = ValueError ∧ (vs = [] ∨ ∅ ∈ vs)
  end.
Proof.
  destruct (set_offset_vectors self vs) as [p|e] eqn:H.
  - apply set_offset_vectors_Ok in H as (lo & hi & Hlo & Hhi & ->). simpl.
    eexists. split; [done|]. apply Qc_sub_nonneg. by eapply is_min_le_is_max.
  - unfold set_offset_vectors in H.
    assert (∀ v : offset_vector, v ∈ vs → values v = [] → vs = [] ∨ ∅ ∈ vs) as Hempty.
    { intros v Hv Hnil. right. destruct (decide (v = ∅)) as [<-|Hne]; [done|].
      by apply values_nonempty in Hne. }
    apply bind_Raise in H as [H|(mins & Hmins & H)].
    { apply mapM_result_Raise in H as (v & Hv & [? ->]%py_min_Raise). eauto. }
    apply bind_Raise in H as [H|(lo & Hlo & H)].
    { apply py_min_Raise in H as [-> ->]. split; [done|]. left.
      apply mapM_result_Ok, Forall2_length in Hmins. by destruct vs. }
    apply bind_Raise in H as [H|(maxs & Hmaxs & H)].
    { apply mapM_result_Raise in H as (v & Hv & [? ->]%py_max_Raise). eauto. }
    apply bind_Raise in H as [H|(hi & Hhi & H)].
    { apply py_max_Raise in H as [-> ->]. split; [done|]. left.
      apply mapM_result_Ok, Forall2_length in Hmaxs. by destruct vs. }
    exfalso. destruct (Qc_le 0 (hi - lo)) eqn:Hle; [done|].
    apply Qc_le_false in Hle. apply (Qclt_not_le _ _ Hle). apply Qc_sub_nonneg.
    apply (is_min_le_is_max _ _ (vs ≫= values)).
    + eapply is_min_nested; [|by apply py_min_Ok].
      apply mapM_result_Ok in Hmins. eapply Forall2_impl; [done|].
      intros v x. apply py_min_Ok.
    + eapply is_max_nested; [|by apply py_max_Ok].
      apply mapM_result_Ok in Hmaxs. eapply Forall2_impl; [done|].
      intros v x. apply py_max_Ok.
Qed.

Lemma set_offset_vectors_total self vs :
  vs ≠ [] → Forall (λ v : offset_vector, v ≠ ∅) vs → ∃ p, set_offset_vectors self vs = Ok p.
Proof.
  intros Hne Hall. pose proof (set_offset_vectors_outcome self vs) as H.
  destruct (set_offset_vectors self vs) as [p|e]; [by exists p|].
  destruct H as [_ [?|Hin]]; [done|]. rewrite Forall_forall in Hall. by destruct (Hall _ Hin).
Qed.

(** ** Bins and their members *)

Lemma members_lookup (bs : list LALCacheBin) i b :
  bs !! i = Some b → members bs ≡ₚ objects b ++ members (delete i bs).
Proof. intros H. unfold members. by rewrite (delete_Permutation bs i b H) at 1. Qed.

Lemma members_insert (bs : list LALCacheBin) i b :
  (i < length bs)%nat → members (<[i:=b]> bs) ≡ₚ objects b ++ members (delete i bs).
Proof.
  intros H. unfold members. rewrite insert_take_drop, delete_take_drop by done.
  rewrite !bind_app, bind_cons. by rewrite (assoc (++)), (comm (++) _ (objects b)), <-(assoc (++)).
Qed.

Lemma members_app bs1 bs2 : members (bs1 ++ bs2) = members bs1 ++ members bs2.
Proof. apply bind_app. Qed.

Lemma members_objects_eq bs1 bs2 :
  objects <$> bs1 = objects <$> bs2 → members bs1 = members bs2.
Proof.
  intros H. unfold members.
  change (bs1 ≫= objects) with (bs1 ≫= id ∘ objects).
  change (bs2 ≫= objects) with (bs2 ≫= id ∘ objects).
  by rewrite <-!list_fmap_bind, H.
Qed.

Lemma item_Ok {A} (l : list A) n a : item l n = Ok a ↔ l !! n = Some a.
Proof. unfold item. destruct (l !! n); split; congruence. Qed.

(** ** The scan of [pack] *)

(** The scan changes no bin's members or extent, nor those of the new bin,
    and records matching indices below [k] in strictly descending order. *)
Lemma scan_bins_spec self k bs new ms bs' new' ms' :
  scan_bins self k bs new ms = Ok (bs', new', ms') →
  objects <$> bs' = objects <$> bs ∧ extent <$> bs' = extent <$> bs ∧
  objects new' = objects new ∧ extent new' = extent new ∧
  ∃ extra, ms' = ms ++ extra ∧ Forall (λ n, (n < k)%nat) extra ∧ descending extra.
Proof.
  revert bs new ms. induction k as [|n IH]; intros bs new ms; simpl.
  - intros [= <- <- <-]. split_and!; try done. exists []. rewrite app_nil_r.
    split_and!; [done|constructor|constructor].
  - intros H. apply bind_Ok in H as (bin & Hbin%item_Ok & H).
    apply bind_Ok in H as (bin_extent & _ & H).
    apply bind_Ok in H as (new_extent & _ & H).
    apply bind_Ok in H as (gap & _ & H).
    destruct (bail_out bin_extent new_extent gap).
    { injection H as <- <- <-. split_and!; try done. exists []. rewrite app_nil_r.
      split_and!; [done|constructor|constructor]. }
    apply bind_Ok in H as (vs & _ & H).
    destruct (match_offset_vectors vs (size new) (size bin)) as [[new_size bin_size] hit].
    apply IH in H as (Hobjs & Hexts & Hnew & Hnewext & extra & -> & Hlt & Hdesc).
    assert (∀ {B} (f : LALCacheBin → B) sz,
      f (with_size bin sz) = f bin → f <$> <[n:=with_size bin sz]> bs = f <$> bs) as Hupd.
    { intros B f sz Hf. rewrite list_fmap_insert, Hf. apply list_insert_id.
      by rewrite list_lookup_fmap, Hbin. }
    rewrite Hupd in Hobjs by done. rewrite Hupd in Hexts by done.
    split_and!; try done.
    exists ((if hit then [n] else []) ++ extra). split_and!.
    + destruct hit; by rewrite <-?(assoc (++)).
    + apply Forall_app. split; [destruct hit; repeat constructor|].
      eapply Forall_impl; [done|]. simpl. lia.
    + destruct hit; [|done]. simpl. by constructor.
Qed.

(** ** The merge of [pack] *)

Lemma LALCacheBin_iadd_objects dest other b :
  LALCacheBin_iadd dest other = Ok b → objects b = objects dest ++ objects other.
Proof.
  unfold LALCacheBin_iadd, set_extent. intros H.
  apply bind_Ok in H as (e & _ & [= <-]). done.
Qed.

Lemma LALCacheBin_add_objects self obj sz b :
  LALCacheBin_add self obj sz = Ok b → objects b = objects self ++ [obj].
Proof.
  unfold LALCacheBin_add, set_extent. intros H.
  apply bind_Ok in H as (e & _ & [= <-]). done.
Qed.

Lemma merge_bins_spec d ns bs bs' :
  merge_bins d ns bs = Ok bs' →
  descending ns → Forall (λ n, (d < n < length bs)%nat) ns →
  members bs' ≡ₚ members bs ∧ (length bs' + length ns = length bs)%nat.
Proof.
  revert bs. induction ns as [|n ns IH]; intros bs; simpl.
  - intros [= <-]. split; [done|lia].
  - intros H Hdesc Hrange.
    apply bind_Ok in H as (other & Hother%item_Ok & H).
    apply bind_Ok in H as (dest & Hdest%item_Ok & H).
    apply bind_Ok in H as (dest' & Hdest' & H).
    apply StronglySorted_inv in Hdesc as [Hdesc Hn].
    apply Forall_cons in Hrange as [[Hdn Hnlen] Hrange].
    apply LALCacheBin_iadd_objects in Hdest'.
    assert (length (delete n bs) = pred (length bs)) as Hlen.
    { rewrite length_delete; [lia|done]. }
    apply IH in H as [Hmem Hlens]; [|done|].
    + split; [|rewrite length_insert, Hlen in Hlens; lia].
      rewrite Hmem, members_insert by (rewrite Hlen; lia).
      rewrite (members_lookup bs n other Hother).
      rewrite (members_lookup (delete n bs) d dest Hdest), Hdest'.
      rewrite <-(assoc (++)). apply Permutation_app_swap_app.
    + rewrite length_insert, Hlen.
      rewrite Forall_forall in Hn, Hrange |- *. intros m Hm.
      specialize (Hn m Hm). specialize (Hrange m Hm). simpl in *. lia.
Qed.

(** ** [pack] *)

Lemma pack_attrs self e p :
  pack self e = Ok p → offset_vectors p = offset_vectors self ∧ max_gap p = max_gap self.
Proof.
  unfold pack. intros H.
  apply bind_Ok in H as (new & _ & H). apply bind_Ok in H as ([[bs new'] ms] & _ & H).
  apply bind_Ok in H as (bs' & _ & [= <-]). done.
Qed.

Lemma pack_spec self e p :
  pack self e = Ok p →
  ∃ ms, matching_bins_of self e = Ok ms ∧
    members (bins p) ≡ₚ members (bins self) ++ [e] ∧
    (length (bins p) + length ms = S (length (bins self)))%nat.
Proof.
  unfold pack, matching_bins_of. intros H.
  apply bind_Ok in H as (new & Hnew & H). rewrite Hnew. simpl.
  apply bind_Ok in H as ([[bs new'] ms] & Hscan & H). rewrite Hscan. simpl.
  exists ms. split; [done|].
  apply bind_Ok in H as (bs' & Hbs' & [= <-]). simpl.
  rewrite py_sort_length. unfold members at 1. rewrite py_sort_Permutation.
  fold (members bs').
  apply scan_bins_spec in Hscan
    as (Hobjs & _ & Hnewobjs & _ & extra & Hms & Hlt & Hdesc). simpl in Hms. subst extra.
  apply LALCacheBin_add_objects in Hnew. simpl in Hnew.
  apply members_objects_eq in Hobjs as Hmem.
  assert (length bs = length (bins self)) as Hlen.
  { by rewrite <-(length_fmap objects bs), Hobjs, length_fmap. }
  destruct (last ms) as [d|] eqn:Hlast.
  - apply last_Some in Hlast as [ns ->]. rewrite removelast_last in Hbs'.
    apply bind_Ok in Hbs' as (dest & Hdest%item_Ok & H).
    apply bind_Ok in H as (dest' & Hdest' & H).
    apply LALCacheBin_iadd_objects in Hdest'. simpl in Hdest'.
    apply StronglySorted_app in Hdesc as (Hgt & Hdesc & _).
    apply Forall_app in Hlt as [Hlt Hd]. apply Forall_inv in Hd.
    apply merge_bins_spec in H as [Hmem' Hlens]; [|done|].
    + rewrite length_insert in Hlens. rewrite length_app. simpl. split; [|lia].
      rewrite Hmem', members_insert by lia. rewrite Hdest', Hnewobjs, Hnew, <-Hmem.
      rewrite (members_lookup bs d dest Hdest).
      rewrite <-!(assoc (++)). f_equiv. apply (comm (++)).
    + rewrite length_insert. rewrite Forall_forall in Hlt |- *. intros n Hn.
      split; [|rewrite Hlen; by apply Hlt].
      apply (Hgt n d); [done|by left].
  - apply last_None in Hlast as ->. injection Hbs' as <-. simpl.
    rewrite length_app, members_app. simpl. split; [|lia].
    unfold members at 2. simpl. by rewrite app_nil_r, Hnewobjs, Hnew, Hmem.
Qed.

(** ** The order of the bins *)

Global Instance extent_lt_strict_total : StrictTotal extent_lt.
Proof.
  split.
  - intros [x|]; simpl; [apply lt_irrefl|done].
  - intros [x|] [y|] [z|]; simpl; try done. apply lt_trans.
  - intros [x|] [y|]; simpl; try done. intros. f_equal. by apply (lt_connex (lt:=segment_lt)).
Qed.

Lemma not_after_segment_lt x y : not_after segment_lt x y ↔ segment_le x y.
Proof.
  unfold not_after, segment_lt, pair_lt, segment_le. case_decide as Heq.
  - rewrite Qc_lt_false. split; [by right|]. intros [Hlt|[_ ?]]; [|done].
    rewrite Heq in Hlt. by destruct (Qclt_not_eq _ _ Hlt).
  - rewrite Qc_lt_false. split.
    + intros Hle. left. destruct (Qcle_lt_or_eq _ _ Hle); [done|]. by destruct Heq.
    + intros [Hlt|[? _]]; [by apply Qclt_le_weak|]. by destruct Heq.
Qed.

Lemma not_after_extent_lt a b : not_after extent_lt a b ↔ extent_le a b.
Proof.
  destruct a as [x|], b as [y|]; unfold not_after; simpl; try done.
  apply not_after_segment_lt.
Qed.

Lemma StronglySorted_weaken {A} (R R' : relation A) l :
  (∀ x y, R x y → R' x y) → StronglySorted R l → StronglySorted R' l.
Proof.
  intros HR. induction 1 as [|x l _ IH Hx]; constructor; [done|].
  eapply Forall_impl; [done|]. apply HR.
Qed.

Lemma py_sort_bins_sorted bs : bins_sorted (py_sort LALCacheBin_lt bs).
Proof.
  unfold bins_sorted.
  assert (Transitive (not_after LALCacheBin_lt)) as Htrans.
  { intros a b c. unfold not_after, LALCacheBin_lt.
    apply (not_after_trans extent_lt (extent a) (extent b) (extent c)). }
  eapply StronglySorted_weaken; last first.
  - apply (Sorted_StronglySorted (not_after LALCacheBin_lt)), py_sort_Sorted.
    intros a b. unfold LALCacheBin_lt. apply (lt_asym extent_lt).
  - intros a b. apply not_after_extent_lt.
Qed.

(** ** [split_bins] as a map over the bins *)

(** The loop visits every bin once, front to back; one iteration per bin is
    all it takes, so the budget [split_bins] gives it never runs out. *)
Lemma split_loop_spec budget cafepacker extentlimit idx bs :
  (length bs - idx ≤ budget)%nat →
  split_loop budget cafepacker extentlimit idx bs =
    (rest ← split_list cafepacker extentlimit (drop idx bs); Ok (take idx bs ++ rest)).
Proof.
  revert idx bs. induction budget as [|budget IH]; intros idx bs Hbudget.
  - assert (length bs ≤ idx)%nat as Hidx by lia.
    destruct bs as [|b bs]; simpl; [by rewrite drop_nil, take_nil|].
    rewrite (lookup_ge_None_2 (b :: bs) idx Hidx).
    rewrite drop_ge, take_ge by done. simpl. by rewrite app_nil_r.
  - simpl. destruct (bs !! idx) as [origbin|] eqn:Hidx.
    + rewrite (drop_S bs origbin idx Hidx). simpl. unfold split_one.
      apply lookup_lt_Some in Hidx as Hlt.
      destruct (split_count origbin extentlimit) as [n|e]; simpl; [|done].
      case_decide as Hn.
      * rewrite IH by lia. simpl.
        rewrite (take_S_r bs idx origbin Hidx).
        destruct (split_list cafepacker extentlimit (drop (S idx) bs)); simpl; [|done].
        by rewrite <-(assoc (++)).
      * destruct (split_bin cafepacker origbin n) as [newbins|e]; simpl; [|done].
        assert (length (take idx bs) = idx) as Htake by (rewrite length_take; lia).
        rewrite IH.
        -- assert (idx + length newbins = length (take idx bs ++ newbins))%nat as Hlen
             by (rewrite length_app; lia).
           rewrite (assoc (++) (take idx bs)).
           rewrite (drop_app_length' (take idx bs ++ newbins) _ _ Hlen).
           destruct (split_list cafepacker extentlimit (drop (S idx) bs)); simpl; [|done].
           rewrite (assoc (++) (take idx bs)).
           rewrite (take_app_length' (take idx bs ++ newbins) _ _ Hlen).
           by rewrite <-(assoc (++)).
        -- rewrite !length_app, length_drop, Htake. lia.
    + apply lookup_ge_None_1 in Hidx.
      rewrite drop_ge, take_ge by done. simpl. by rewrite app_nil_r.
Qed.

Lemma split_bins_spec cafepacker extentlimit :
  split_bins cafepacker extentlimit =
    (bs ← split_list cafepacker extentlimit (bins cafepacker);
     Ok {| bins := bs;
           offset_vectors := offset_vectors cafepacker;
           max_gap := max_gap cafepacker |}).
Proof.
  unfold split_bins. rewrite split_loop_spec by lia. rewrite drop_0, take_0.
  by destruct (split_list cafepacker extentlimit (bins cafepacker)).
Qed.

(** [split_list] pairs every bin with its replacement. *)
Lemma split_list_Ok cafepacker extentlimit bs bs' :
  split_list cafepacker extentlimit bs = Ok bs' ↔
  ∃ pieces, Forall2 (λ b ps, split_one cafepacker extentlimit b = Ok ps) bs pieces ∧
            bs' = mjoin pieces.
Proof.
  revert bs'. induction bs as [|b bs IH]; intros bs'; simpl.
  - split.
    + intros [= <-]. exists []. split; [constructor|done].
    + intros (pieces & HF & ->). by inversion HF.
  - rewrite bind_Ok. split.
    + intros (ps & Hps & H). apply bind_Ok in H as (rest & Hrest & [= <-]).
      apply IH in Hrest as (pieces & HF & ->).
      exists (ps :: pieces). split; [by constructor|done].
    + intros (pieces & HF & ->). inversion HF as [|? ps ? pieces' Hps HF']; subst.
      exists ps. split; [done|].
      assert (split_list cafepacker extentlimit bs = Ok (mjoin pieces')) as ->.
      { apply IH. by exists pieces'. }
      done.
Qed.

(** ** The pieces of a split bin *)

Lemma collect_objects_Ok cafepacker bin_extent gap cache objs :
  collect_objects cafepacker bin_extent (segment_protract bin_extent gap) cache = Ok objs →
  objs = filter (λ c, assigned (default [] (offset_vectors cafepacker)) gap bin_extent c = true)
                cache.
Proof.
  revert objs. induction cache as [|c cache IH]; intros objs; simpl.
  - by intros [= <-].
  - intros H. apply bind_Ok in H as (seg & Hseg & H).
    destruct (lal.segment c) as [seg'|] eqn:Hc; [|done]. injection Hseg as ->.
    case_decide as Hdisj.
    + rewrite filter_cons_False; [by apply IH|].
      unfold assigned. rewrite Hc, bool_decide_eq_false_2 by done. done.
    + apply bind_Ok in H as (vs & Hvs & H).
      destruct (offset_vectors cafepacker) as [vs'|]; [|done]. injection Hvs as ->.
      apply bind_Ok in H as (rest & Hrest & [= <-]). apply IH in Hrest as ->. simpl.
      destruct (entry_intersects vs _ bin_extent) eqn:Hhit.
      * rewrite filter_cons_True; [done|].
        unfold assigned. by rewrite Hc, bool_decide_eq_true_2, Hhit.
      * rewrite filter_cons_False; [done|].
        unfold assigned. by rewrite Hc, bool_decide_eq_true_2, Hhit.
Qed.

Lemma split_bin_spec cafepacker origbin n newbins :
  split_bin cafepacker origbin n = Ok newbins →
  ∃ e0, extent origbin = Some e0 ∧
        Forall2 (is_piece cafepacker origbin) (split_segments e0 n) newbins.
Proof.
  unfold split_bin. intros H. apply bind_Ok in H as (e0 & He0 & H).
  destruct (extent origbin) as [e0'|]; [|done]. injection He0 as ->.
  exists e0. split; [done|].
  apply bind_Ok in H as (empties & Hempties%mapM_result_Ok & Hpop%mapM_result_Ok).
  revert newbins Hpop.
  induction Hempties as [|split b0 splits empties Hb0 _ IH]; intros newbins Hpop.
  - inversion Hpop. constructor.
  - inversion Hpop as [|? b ? newbins' Hb Hpop']; subst. constructor; [|by apply IH].
    unfold new_split_bin in Hb0. apply bind_Ok in Hb0 as (e & He & [= <-]).
    unfold populate_bin in Hb. simpl in Hb.
    apply bind_Ok in Hb as (gap & Hgap & Hb).
    destruct (max_gap cafepacker) as [gap'|] eqn:Hmax; [|done]. injection Hgap as ->.
    apply bind_Ok in Hb as (objs & Hobjs & [= <-]).
    exists e, gap. split_and!; try done. simpl. by apply collect_objects_Ok.
Qed.

(** ** Arithmetic of the cuts *)

Lemma Qc_eq_Qeq (x y : Qc) : x = y → (this x == this y)%Q.
Proof. by intros ->. Qed.

(** Linear arithmetic on [Qc], by way of [Q]. *)
Ltac Qc_linear :=
  repeat match goal with
         | H : @eq Qc _ _ |- _ => apply Qc_eq_Qeq in H
         | |- @eq Qc _ _ => apply Qc_is_canon
         end;
  unfold Qcle, Qclt, Qcminus, Qcplus, Qcopp in *; simpl in *;
  rewrite ?Qred_correct in *; lra.

Lemma Qc_of_Z_add (a b : Z) : Qc_of_Z (a + b) = Qc_of_Z a + Qc_of_Z b.
Proof. apply Qc_is_canon. simpl. by rewrite Qred_correct, inject_Z_plus. Qed.

Lemma Qc_of_Z_1 : Qc_of_Z 1 = 1.
Proof. by apply Qc_is_canon. Qed.

Lemma Qc_of_Z_lt (a b : Z) : (a < b)%Z → Qc_of_Z a < Qc_of_Z b.
Proof. intros H. unfold Qclt. simpl. by rewrite <-Zlt_Qlt. Qed.

Lemma Qc_of_Z_pos_ne (n : Z) : (0 < n)%Z → Qc_of_Z n ≠ 0.
Proof. intros H%Qc_of_Z_lt Heq. rewrite Heq in H. by apply (Qclt_not_eq 0 0). Qed.

Lemma Qc_pos_ne (L : Qc) : 0 < L → L ≠ 0.
Proof. intros H ->. by apply (Qclt_not_eq 0 0). Qed.

(** With [n = ceil(d / L)] pieces, a piece is no longer than [L]. *)
Lemma piece_width_le (d L : Qc) (n : Z) :
  0 < L → (0 < n)%Z → n = Qceiling (d / L) → d / Qc_of_Z n ≤ L.
Proof.
  intros HL Hn Hceil.
  assert (d / L ≤ Qc_of_Z n) as Hle.
  { unfold Qcle. simpl. rewrite !Qred_correct, Hceil. apply (Qle_ceiling (d / L)). }
  pose proof (Qc_pos_ne L HL) as HL0.
  pose proof (Qc_of_Z_lt 0 n Hn) as Hn0.
  pose proof (Qc_of_Z_pos_ne n Hn) as Hn0'.
  apply (Qcmult_lt_0_le_reg_r _ _ (Qc_of_Z n)); [done|].
  replace (d / Qc_of_Z n * Qc_of_Z n) with (d / L * L) by (by field).
  rewrite (Qcmult_comm L). apply Qcmult_le_compat_r; [done|]. by apply Qclt_le_weak.
Qed.

(** The count is at most one exactly when the bin is within the limit. *)
Lemma count_le_1 (d L : Qc) : 0 < L → (Qceiling (d / L) ≤ 1)%Z ↔ d ≤ L.
Proof.
  intros HL. pose proof (Qc_pos_ne L HL) as HL0.
  assert (d / L ≤ 1 ↔ d ≤ L) as <-.
  { split; intros H.
    - pose proof (Qcmult_le_compat_r _ _ L H (Qclt_le_weak _ _ HL)) as H'.
      rewrite Qcmult_1_l in H'. by replace (d / L * L) with d in H' by (by field).
    - apply (Qcmult_lt_0_le_reg_r _ _ L); [done|].
      replace (d / L * L) with d by (by field). by rewrite Qcmult_1_l. }
  split; intros H.
  - unfold Qcle. simpl. rewrite !Qred_correct.
    eapply Qle_trans; [apply (Qle_ceiling (d / L))|].
    change 1%Q with (inject_Z 1). by rewrite <-Zle_Qle.
  - rewrite <-(Qceiling_Z 1). apply Qceiling_resp_le.
    unfold Qcle in H. simpl in H. by rewrite !Qred_correct in H.
Qed.

(** ** The clipping segments *)

Lemma pairs_from_nil lo : pairs_from lo [] = [(lo, PosInfinity)].
Proof. done. Qed.

Lemma pairs_from_cons lo c cuts :
  pairs_from lo (c :: cuts) = (lo, Finite c) :: pairs_from (Finite c) cuts.
Proof. done. Qed.

Lemma pairs_from_length lo cuts : length (pairs_from lo cuts) = S (length cuts).
Proof.
  revert lo. induction cuts as [|c cuts IH]; intros lo; [done|].
  rewrite pairs_from_cons. simpl. by rewrite IH.
Qed.

(** Cuts that are [w] apart, from [e.1 + a * w] on, up to [e.2]. *)
Lemma pairs_from_even (e : segment) (w : Qc) (k : nat) (a : Z) (lo : bound) :
  0 ≤ w → lo ≠ PosInfinity →
  lower e lo = e.1 + Qc_of_Z (a - 1) * w →
  e.2 = e.1 + Qc_of_Z (a + Z.of_nat k) * w →
  Forall (λ p, mk_bounds p = p ∧ p.1 ≠ PosInfinity ∧ p.2 ≠ NegInfinity ∧
               upper e p.2 - lower e p.1 = w)
         (pairs_from lo ((λ i : Z, e.1 + Qc_of_Z i * w) <$> seqZ a (Z.of_nat k))).
Proof.
  intros Hw. revert a lo. induction k as [|k IH]; intros a lo Hlo Hlower Hupper.
  - simpl. rewrite pairs_from_nil. constructor; [|constructor]. simpl.
    split_and!; [by destruct lo|done|done|].
    rewrite Z.add_0_r in Hupper. replace a with (a - 1 + 1)%Z in Hupper by lia.
    rewrite Qc_of_Z_add, Qc_of_Z_1, Qcmult_plus_distr_l, Qcmult_1_l in Hupper.
    rewrite Hlower, Hupper. ring.
  - rewrite seqZ_cons by lia. rewrite fmap_cons, pairs_from_cons.
    assert (e.1 + Qc_of_Z a * w - lower e lo = w) as Hfirst.
    { rewrite Hlower. replace a with (a - 1 + 1)%Z at 1 by lia.
      rewrite Qc_of_Z_add, Qc_of_Z_1. ring. }
    constructor.
    + simpl. split_and!; [|done|done|done].
      unfold mk_bounds. simpl. destruct lo as [|t|]; simpl; try done.
      simpl in Hfirst. rewrite (proj2 (Qc_le_true _ _)); [done|].
      revert Hfirst. generalize (e.1 + Qc_of_Z a * w). clear -Hw. intros c Hc. Qc_linear.
    + replace (Z.pred (Z.of_nat (S k))) with (Z.of_nat k) by lia.
      apply IH; [done| |].
      * simpl. by replace (Z.succ a - 1)%Z with a by lia.
      * rewrite Hupper. by replace (Z.succ a + Z.of_nat k)%Z with (a + Z.of_nat (S k))%Z by lia.
Qed.

Lemma split_times_even (e : segment) (n : Z) :
  (0 < n)%Z →
  split_times e n =
    (λ i : Z, e.1 + Qc_of_Z i * (segment_abs e / Qc_of_Z n)) <$> seqZ 1 (n - 1).
Proof.
  intros Hn. unfold split_times, segment_abs. apply list_fmap_ext. intros _ i _.
  pose proof (Qc_of_Z_pos_ne n Hn). by field.
Qed.

Lemma split_segments_pairs (e : segment) (n : Z) :
  split_segments e n = mk_bounds <$> pairs_from NegInfinity (split_times e n).
Proof.
  unfold split_segments, pairs_from. f_equal. f_equal.
  change ([NegInfinity] ++ (Finite <$> split_times e n) ++ [PosInfinity])
    with ((NegInfinity :: (Finite <$> split_times e n)) ++ [PosInfinity]).
  apply removelast_last.
Qed.

(** The [n] clipping segments of a bin that is to be split: each stands for
    a stretch of the extent that is [d / n] long. *)
Lemma split_segments_spec (e : segment) (n : Z) :
  (0 < n)%Z → 0 ≤ segment_abs e →
  split_segments e n = pairs_from NegInfinity (split_times e n) ∧
  length (split_segments e n) = Z.to_nat n ∧
  Forall (λ p, p.1 ≠ PosInfinity ∧ p.2 ≠ NegInfinity ∧
               upper e p.2 - lower e p.1 = segment_abs e / Qc_of_Z n)
         (split_segments e n).
Proof.
  intros Hn Hd. set (w := segment_abs e / Qc_of_Z n).
  pose proof (Qc_of_Z_pos_ne n Hn) as Hn0.
  assert (0 ≤ w) as Hw.
  { apply (Qcmult_lt_0_le_reg_r _ _ (Qc_of_Z n)); [by apply (Qc_of_Z_lt 0 n)|].
    rewrite Qcmult_0_l. unfold w. by replace (segment_abs e / Qc_of_Z n * Qc_of_Z n)
      with (segment_abs e) by (by field). }
  assert (Forall (λ p, mk_bounds p = p ∧ p.1 ≠ PosInfinity ∧ p.2 ≠ NegInfinity ∧
                       upper e p.2 - lower e p.1 = w)
                 (pairs_from NegInfinity (split_times e n))) as HF.
  { rewrite (split_times_even e n Hn). fold w.
    replace (n - 1)%Z with (Z.of_nat (Z.to_nat (n - 1))) by lia.
    apply pairs_from_even; [done|done| |].
    - simpl. replace (Qc_of_Z (1 - 1)) with (Q2Qc 0) by (by apply Qc_is_canon). ring.
    - replace (1 + Z.of_nat (Z.to_nat (n - 1)))%Z with n by lia.
      unfold w, segment_abs. by field. }
  assert (split_segments e n = pairs_from NegInfinity (split_times e n)) as Heq.
  { rewrite split_segments_pairs. rewrite <-(list_fmap_id (pairs_from _ _)) at 2.
    apply Forall_fmap_ext. eapply Forall_impl; [done|]. by intros p [? _]. }
  split_and!; [done| |].
  - rewrite Heq, pairs_from_length. unfold split_times. rewrite length_fmap, length_seqZ. lia.
  - rewrite Heq. eapply Forall_impl; [done|]. by intros p (_ & ? & ? & ?).
Qed.

(** ** Extents *)

Lemma elem_of_all_segments (d : segmentlistdict) (s : segment) :
  s ∈ all_segments d ↔ ∃ k l, lists d !! k = Some l ∧ s ∈ l.
Proof.
  unfold all_segments. rewrite list_elem_of_join. split.
  - intros (l & Hs & Hl). apply list_elem_of_fmap in Hl as ([k l'] & -> & Hkl).
    apply elem_of_map_to_list in Hkl. by exists k, l'.
  - intros (k & l & Hk & Hs). exists l. split; [done|].
    apply list_elem_of_fmap. exists (k, l). split; [done|]. by apply elem_of_map_to_list.
Qed.

(** The extent is around every segment, and its ends are ends of segments. *)
Lemma extent_all_Ok (d : segmentlistdict) (e : segment) :
  extent_all d = Ok e →
  (∀ s, s ∈ all_segments d → e.1 ≤ s.1 ∧ s.2 ≤ e.2) ∧
  (∃ s, s ∈ all_segments d ∧ e.1 = s.1) ∧
  (∃ s, s ∈ all_segments d ∧ e.2 = s.2).
Proof.
  unfold extent_all. destruct (all_segments d) as [|s0 l]; [done|]. intros [= <-]. simpl.
  destruct (foldl_Qc_min s0.1 l.*1) as [Hmin_in Hmin].
  destruct (foldl_Qc_max s0.2 l.*2) as [Hmax_in Hmax].
  change (s0.1 :: l.*1) with ((s0 :: l).*1) in *.
  change (s0.2 :: l.*2) with ((s0 :: l).*2) in *.
  split_and!.
  - intros s Hs. split.
    + apply Hmin. by apply list_elem_of_fmap_2.
    + apply Hmax. by apply list_elem_of_fmap_2.
  - apply list_elem_of_fmap in Hmin_in as (s & Hs1 & Hs). by exists s.
  - apply list_elem_of_fmap in Hmax_in as (s & Hs1 & Hs). by exists s.
Qed.

Lemma extent_all_nonempty (d : segmentlistdict) :
  all_segments d ≠ [] → ∃ e, extent_all d = Ok e.
Proof. unfold extent_all. destruct (all_segments d); [done|]. by eexists. Qed.

(** Clipping keeps a segment inside itself and inside the clipping segment. *)
Lemma clip_segment_Some (e : segment) lo hi s s' :
  clip_segment lo hi s = Some s' → e.1 ≤ s.1 → s.2 ≤ e.2 →
  lower e lo ≤ s'.1 ∧ s'.2 ≤ upper e hi.
Proof.
  unfold clip_segment. intros H Hlo Hhi.
  assert (∀ t, t ≤ Qc_max s.1 t) as Hmax.
  { intros t. destruct (Qc_max_spec s.1 t) as [[-> ?]|[-> ?]]; [done|apply Qcle_refl]. }
  assert (∀ t, Qc_min s.2 t ≤ t) as Hmin.
  { intros t. destruct (Qc_min_spec s.2 t) as [[-> ?]|[-> ?]]; [done|apply Qcle_refl]. }
  destruct lo as [|tl|], hi as [|th|]; try done; simpl in *;
    match type of H with (if ?c then _ else _) = _ => destruct c; [|done] end;
    injection H as <-; simpl; auto.
Qed.

Lemma all_segments_clipped (d : segmentlistdict) lo hi s' :
  s' ∈ all_segments (del_empty (and_segment d lo hi)) →
  ∃ s, s ∈ all_segments d ∧ clip_segment lo hi s = Some s'.
Proof.
  rewrite elem_of_all_segments. intros (k & l' & Hk & Hs'). simpl in Hk.
  apply map_lookup_filter_Some in Hk as [Hk _].
  rewrite lookup_fmap in Hk. destruct (lists d !! k) as [l|] eqn:Hl; [|done].
  injection Hk as <-. apply list_elem_of_omap in Hs' as (s & Hs & Hclip).
  exists s. split; [|done]. apply elem_of_all_segments. by exists k, l.
Qed.

(** A piece is no longer than the stretch its clipping segment stands for. *)
Lemma piece_extent (cafepacker : CafePacker) (origbin b : LALCacheBin)
    (e0 : segment) (split : bound * bound) :
  extent_all (size origbin) = Ok e0 → is_piece cafepacker origbin split b →
  ∃ e, extent b = Some e ∧ segment_abs e ≤ upper e0 split.2 - lower e0 split.1.
Proof.
  intros He0 (e & gap & Hsize & He & Hext & _). exists e. split; [done|].
  apply extent_all_Ok in He0 as (Hall & _ & _).
  apply extent_all_Ok in He as (_ & (s1 & Hs1 & Hlo) & (s2 & Hs2 & Hhi)).
  rewrite Hsize in Hs1, Hs2.
  apply all_segments_clipped in Hs1 as (t1 & Ht1 & Hclip1).
  apply all_segments_clipped in Hs2 as (t2 & Ht2 & Hclip2).
  destruct (Hall t1 Ht1) as [? ?]. destruct (Hall t2 Ht2) as [? ?].
  apply (clip_segment_Some e0) in Hclip1 as [Hlower _]; [|done..].
  apply (clip_segment_Some e0) in Hclip2 as [_ Hupper]; [|done..].
  unfold segment_abs. rewrite Hlo, Hhi.
  revert Hlower Hupper. generalize (lower e0 split.1) (upper e0 split.2) (s1.1) (s2.2).
  clear. intros a b c d ? ?. Qc_linear.
Qed.

(** ** The extent limit *)

Lemma split_one_spec cafepacker limit origbin ps :
  0 < limit → bin_consistent origbin →
  split_one cafepacker limit origbin = Ok ps →
  Forall (within_limit limit) ps ∧ replaces cafepacker limit origbin ps.
Proof.
  intros Hlimit (e & He & Hsize). unfold split_one, split_count, replaces. rewrite He.
  pose proof (count_le_1 (segment_abs e) limit Hlimit) as Hcount.
  cbn -[segment_abs Qdiv Qceiling]. rewrite decide_False by by apply Qc_pos_ne.
  cbn -[segment_abs Qdiv Qceiling].
  remember (Qceiling (segment_abs e / limit)) as n eqn:Hndef.
  case_decide as Hn.
  - intros [= <-]. apply Hcount in Hn. split.
    + constructor; [|constructor]. by exists e.
    + exists e. split; [done|]. by rewrite decide_True.
  - intros Hsplit. assert (¬ segment_abs e ≤ limit) as Hd by by rewrite <-Hcount.
    assert (0 ≤ segment_abs e) as Hd0.
    { apply Qcnot_le_lt in Hd. apply Qclt_le_weak. by eapply Qclt_trans. }
    apply split_bin_spec in Hsplit as (e' & He' & Hpieces).
    rewrite He in He'. injection He' as <-.
    destruct (split_segments_spec e n) as (Heq & Hlen & Hwidth); [lia|done|].
    assert (segment_abs e / Qc_of_Z n ≤ limit) as Hw by (apply piece_width_le; [done|lia|done]).
    split.
    + eapply Forall2_Forall_r; [exact Hpieces|].
      eapply Forall_impl; [exact Hwidth|]. intros split (_ & _ & Hsplit) b Hb.
      destruct (piece_extent _ _ _ _ _ Hsize Hb) as (eb & Heb & Hle).
      exists eb. split; [done|]. rewrite Hsplit in Hle. by eapply Qcle_trans.
    + exists e. split; [done|]. rewrite decide_False by done. rewrite <-Hndef.
      split; [by rewrite <-(Forall2_length _ _ _ Hpieces)|].
      exists (split_times e n). split_and!.
      * unfold split_times. by rewrite length_fmap, length_seqZ.
      * intros i c. rewrite split_times_even by lia. rewrite list_lookup_fmap.
        destruct (seqZ 1 (n - 1) !! i) as [j|] eqn:Hj; [|done]. intros [= <-].
        apply lookup_seqZ in Hj as [-> _]. do 2 f_equal. f_equal. lia.
      * rewrite Heq in Hpieces. exact Hpieces.
Qed.

(** ** The packer: configuration *)

(** C8 (as amended).  Configuring with an empty list of offset vectors
    raises [ValueError].  With a non-empty list of non-empty offset vectors
    configuration returns, and stores as [max_gap] the greatest offset of all
    the vectors minus the least one; [pack] and [split_bins] leave it as it
    is. *)
Theorem set_offset_vectors_max_gap (self : CafePacker) (vs : list offset_vector) :
  (vs = [] → set_offset_vectors self vs = Raise ValueError) ∧
  (vs ≠ [] → Forall (λ v : offset_vector, v ≠ ∅) vs →
   ∃ lo hi,
     is_min lo (vs ≫= values) ∧ is_max hi (vs ≫= values) ∧
     set_offset_vectors self vs =
       Ok {| bins := bins self;
             offset_vectors := Some (py_sort offset_vector_lt vs);
             max_gap := Some (hi - lo) |} ∧
     (∀ p e p', set_offset_vectors self vs = Ok p → pack p e = Ok p' →
        max_gap p' = Some (hi - lo)) ∧
     (∀ p limit p', set_offset_vectors self vs = Ok p → split_bins p limit = Ok p' →
        max_gap p' = Some (hi - lo))).
Proof.
  split; [by intros ->|]. intros Hne Hall.
  destruct (set_offset_vectors_total self vs Hne Hall) as [p Hp].
  destruct (set_offset_vectors_Ok _ _ _ Hp) as (lo & hi & Hlo & Hhi & ->).
  exists lo, hi. split_and!; try done.
  - intros p e p' Hp' Hpack. rewrite Hp in Hp'. injection Hp' as <-.
    by destruct (pack_attrs _ _ _ Hpack) as [_ ->].
  - intros p limit p' Hp' Hsplit. rewrite Hp in Hp'. injection Hp' as <-.
    rewrite split_bins_spec in Hsplit. apply bind_Ok in Hsplit as (bs & _ & [= <-]). done.
Qed.

Lemma set_offset_vectors_max_gap_witness :
  ∃ lo hi,
    is_min lo ([examples.early] ≫= values) ∧ is_max hi ([examples.early] ≫= values) ∧
    set_offset_vectors (CafePacker_init []) [examples.early] =
      Ok {| bins := [];
            offset_vectors := Some (py_sort offset_vector_lt [examples.early]);
            max_gap := Some (hi - lo) |}.
Proof.
  destruct (proj2 (set_offset_vectors_max_gap (CafePacker_init []) [examples.early]))
    as (lo & hi & Hlo & Hhi & H & _).
  - done.
  - repeat constructor. by apply (bool_decide_unpack _).
  - by exists lo, hi.
Defined.

(** C8 (as stated) fails: a list that holds one empty offset vector is not
    empty, yet configuring with it raises [ValueError]. *)
Lemma set_offset_vectors_empty_vector :
  ¬ (∀ self vs, vs ≠ [] → ∃ p, set_offset_vectors self vs = Ok p).
Proof.
  intros H. destruct (H (CafePacker_init []) [∅]) as [p Hp]; [done|]. discriminate Hp.
Qed.

(** C10.  [set_offset_vectors] never fails its assertion: it either
    returns, with a [max_gap] that is not negative, or raises the
    [ValueError] of a [min] over nothing. *)
Theorem set_offset_vectors_assertion (self : CafePacker) (vs : list offset_vector) :
  match set_offset_vectors self vs with
  | Ok p => ∃ gap, max_gap p = Some gap ∧ 0 ≤ gap
  | Raise e => e = ValueError
  end.
Proof.
  pose proof (set_offset_vectors_outcome self vs) as H.
  destruct (set_offset_vectors self vs); [done|]. by destruct H.
Qed.

(** ** The packer: packing *)

(** C3.  After any sequence of [pack] calls the members of the bins are,
    as a multiset, the members there were before together with the entries
    packed; and one more [pack] adds its entry to them, leaving one bin more
    when no bin matched, as many when one matched, and [k - 1] fewer when
    [k] matched. *)
Theorem pack_partition (self : CafePacker) (cache : list CacheEntry) (p : CafePacker) :
  foldM pack self cache = Ok p →
  members (bins p) ≡ₚ members (bins self) ++ cache ∧
  ∀ e p', pack p e = Ok p' →
    ∃ ms, matching_bins_of p e = Ok ms ∧
      members (bins p') ≡ₚ members (bins p) ++ [e] ∧
      (length (bins p') + length ms = S (length (bins p)))%nat.
Proof.
  intros H. split; [|intros e p'; apply pack_spec].
  revert self H. induction cache as [|e cache IH]; intros self; simpl.
  - intros [= <-]. by rewrite app_nil_r.
  - intros H. apply bind_Ok in H as (p1 & Hp1 & H).
    apply pack_spec in Hp1 as (ms & _ & Hmem & _).
    rewrite (IH _ H), Hmem, <-(assoc (++)). done.
Qed.

Lemma pack_partition_witness :
  members (bins (examples.packed [examples.early]
                   [examples.c1; examples.c2; examples.c3; examples.c4; examples.c5]))
  ≡ₚ [examples.c1; examples.c2; examples.c3; examples.c4; examples.c5].
Proof.
  apply (pack_partition (examples.configured [examples.early])
           [examples.c1; examples.c2; examples.c3; examples.c4; examples.c5]).
  vm_compute. reflexivity.
Defined.

(** C6.  After every [pack] call the bins are in ascending order of extent,
    by start and then by end; so they are at the entry of every later call
    as well. *)
Theorem pack_sorted (self : CafePacker) (e : CacheEntry) (p : CafePacker) :
  pack self e = Ok p →
  bins_sorted (bins p) ∧
  ∀ cache p', foldM pack p cache = Ok p' → bins_sorted (bins p').
Proof.
  assert (∀ self e p, pack self e = Ok p → bins_sorted (bins p)) as Hstep.
  { clear. intros self e p H. unfold pack in H.
    apply bind_Ok in H as (new & _ & H). apply bind_Ok in H as ([[bs new'] ms] & _ & H).
    apply bind_Ok in H as (bs' & _ & [= <-]). apply py_sort_bins_sorted. }
  intros H. apply Hstep in H. split; [done|].
  intros cache. revert p H. induction cache as [|c cache IH]; intros p Hp p'; simpl.
  - by intros [= <-].
  - intros H. apply bind_Ok in H as (p1 & Hp1 & H). eapply IH; [|done]. by eapply Hstep.
Qed.

Lemma pack_sorted_witness :
  bins_sorted (bins (examples.packed [examples.zero_lag]
                       [examples.a1; examples.a2; examples.a3])).
Proof.
  apply (pack_sorted (examples.packed [examples.zero_lag] [examples.a1; examples.a2])
           examples.a3).
  vm_compute. reflexivity.
Defined.

(** ** Splitting *)

Lemma split_bins_pieces (cafepacker : CafePacker) (limit : Qc) (p : CafePacker) :
  split_bins cafepacker limit = Ok p →
  ∃ pieces, bins p = mjoin pieces ∧
    Forall2 (λ b ps, split_one cafepacker limit b = Ok ps) (bins cafepacker) pieces.
Proof.
  rewrite split_bins_spec. intros H. apply bind_Ok in H as (bs & Hbs & [= <-]).
  apply split_list_Ok in Hbs as (pieces & HF & ->). by exists pieces.
Qed.

(** *** When [split_bins] returns *)

Lemma extent_all_Raise d e : extent_all d = Raise e → e = ValueError.
Proof. unfold extent_all. destruct (all_segments d); [by intros [= <-]|done]. Qed.

Lemma getattr_Raise {A} (o : option A) e : getattr o = Raise e → e = AttributeError.
Proof. destruct o; [done|by intros [= <-]]. Qed.

Lemma subscript_Raise {A} (o : option A) e : subscript o = Raise e → e = TypeError.
Proof. destruct o; [done|by intros [= <-]]. Qed.

Lemma collect_objects_Raise cafepacker bin_extent gap_extent cache e :
  collect_objects cafepacker bin_extent gap_extent cache = Raise e → e = AttributeError.
Proof.
  induction cache as [|c cache IH]; simpl; [done|].
  intros [H|(seg & _ & H)]%bind_Raise; [by apply getattr_Raise in H|].
  case_decide; [by apply IH|].
  apply bind_Raise in H as [H|(vs & _ & H)]; [by apply getattr_Raise in H|].
  apply bind_Raise in H as [H|(rest & _ & H)]; [by apply IH|done].
Qed.

(** The exceptions of [split_bins] are Python's: the loop does not outrun
    its budget. *)
Lemma split_bins_Raise cafepacker limit e :
  split_bins cafepacker limit = Raise e →
  e = TypeError ∨ e = ZeroDivisionError ∨ e = ValueError ∨ e = AttributeError.
Proof.
  rewrite split_bins_spec. intros [H|(bs & _ & H)]%bind_Raise; [|done].
  induction (bins cafepacker) as [|b bs IH]; simpl in H; [done|].
  apply bind_Raise in H as [H|(ps & _ & H)].
  - unfold split_one in H. apply bind_Raise in H as [H|(n & _ & H)].
    + unfold split_count in H. apply bind_Raise in H as [H|(e0 & _ & H)].
      * left. by apply subscript_Raise in H.
      * case_decide; [|done]. injection H as <-. auto.
    + case_decide; [done|]. unfold split_bin in H.
      apply bind_Raise in H as [H|(e0 & _ & H)]; [left; by apply subscript_Raise in H|].
      apply bind_Raise in H as [H|(newbins & _ & H)].
      * apply mapM_result_Raise in H as (split & _ & H). unfold new_split_bin in H.
        apply bind_Raise in H as [H|(? & _ & H)]; [|done].
        apply extent_all_Raise in H. auto.
      * apply mapM_result_Raise in H as (newbin & _ & H). unfold populate_bin in H.
        do 3 right.
        apply bind_Raise in H as [H|(? & _ & H)]; [by apply getattr_Raise in H|].
        apply bind_Raise in H as [H|(? & _ & H)]; [by apply getattr_Raise in H|].
        apply bind_Raise in H as [H|(? & _ & H)]; [|done].
        by apply collect_objects_Raise in H.
  - apply bind_Raise in H as [H|(rest & _ & H)]; [by apply IH|done].
Qed.

Lemma collect_objects_total cafepacker bin_extent gap_extent cache :
  is_configured cafepacker → Forall (λ c, is_Some (lal.segment c)) cache →
  ∃ objs, collect_objects cafepacker bin_extent gap_extent cache = Ok objs.
Proof.
  intros [[vs Hvs] _]. induction 1 as [|c cache [seg Hseg] _ [objs IH]]; simpl; [by eexists|].
  rewrite Hseg. cbn [mbind result_bind getattr]. case_decide; [by eexists|].
  rewrite Hvs. cbn [mbind result_bind getattr]. rewrite IH. cbn [mbind result_bind].
  by eexists.
Qed.

(** In a configured packer [split_bins] returns when the limit is not zero
    and every bin can be split. *)
Lemma split_bins_returns cafepacker limit :
  limit ≠ 0 → is_configured cafepacker → Forall (splittable limit) (bins cafepacker) →
  ∃ p, split_bins cafepacker limit = Ok p.
Proof.
  intros Hlimit Hconf Hbins. rewrite split_bins_spec.
  assert (∃ bs, split_list cafepacker limit (bins cafepacker) = Ok bs) as [bs ->];
    [|by eexists].
  induction Hbins as [|b bs (e & He & Hsegs & Hsplits) _ [rest IH]]; simpl; [by eexists|].
  assert (∃ ps, split_one cafepacker limit b = Ok ps) as [ps ->].
  { unfold split_one, split_count. rewrite He. cbn [mbind result_bind subscript].
    rewrite decide_False by done. cbn [mbind result_bind].
    case_decide; [by eexists|]. unfold split_bin. rewrite He. cbn [mbind result_bind subscript].
    destruct (mapM_result_total (new_split_bin b)
                (split_segments e (Qceiling (segment_abs e / limit))))
      as (newbins & Hnew & _).
    { eapply Forall_impl; [exact Hsplits|]. intros split Hsplit. unfold new_split_bin.
      destruct (extent_all_nonempty _ Hsplit) as [e' ->]. by eexists. }
    rewrite Hnew. cbn [mbind result_bind].
    destruct (mapM_result_total (populate_bin cafepacker b) newbins) as (ps & -> & _);
      [|by eexists].
    apply mapM_result_Ok in Hnew. eapply Forall2_Forall_r; [exact Hnew|].
    apply Forall_forall. intros split _ newbin Hnewbin. unfold new_split_bin in Hnewbin.
    apply bind_Ok in Hnewbin as (e' & _ & [= <-]). unfold populate_bin.
    cbn [extent objects mbind result_bind getattr].
    destruct Hconf as [Hvs [gap Hgap]]. rewrite Hgap. cbn [mbind result_bind getattr].
    destruct (collect_objects_total cafepacker e' (segment_protract e' gap) (objects b))
      as [objs ->]; [by split; [|exists gap]|done|].
    by eexists. }
  cbn [mbind result_bind]. rewrite IH. by eexists.
Qed.

(** It raises when a clipping segment misses the [size] of the bin: a file
    of X over [0, 10) and a file of Y over [1000, 1010), coincident when Y
    is read 1000 s early, make one bin of 1010 s, and at a limit of 100 s
    nine of its eleven pieces are empty. *)
Lemma split_bins_gap_raises :
  split_bins
    (examples.packed [examples.far] [examples.g1; examples.g2]) (examples.t 100)
  = Raise ValueError.
Proof. vm_compute. reflexivity. Qed.

(** *** What [split_bins] returns *)


(** ** The bail-out of the scan *)

Lemma closure_example_bins :
  ∃ seglists outbins,
    ligolw_cafe examples.cache [examples.early] None = Ok (seglists, outbins) ∧
    filter_cache seglists examples.cache = examples.cache ∧
    examples.names outbins = [["c1"]; ["c2"; "c3"]; ["c4"; "c5"]]%string ∧
    ¬ together examples.c1 examples.c4 outbins.
Proof.
  eexists _, _. split; [vm_compute; reflexivity|]. split_and!.
  - vm_compute. reflexivity.
  - vm_compute. reflexivity.
  - apply (bool_decide_unpack _). vm_compute. exact I.
Qed.

(** C1 fails on the code.  The five files of [examples.cache] all
    pass the filter; the long file c1 and the later file c4 are both of
    instrument X and overlap in time, so they are coincident under the one
    configured offset vector; yet [ligolw_cafe] returns them in different
    bins: when c4 is packed the scan stops at the short bin of c2 and c3,
    which sorts after the bin of c1, and never tests the bin of c1. *)
Theorem coincidence_closure_fails :
  ¬ coincidence_closure examples.cache [examples.early].
Proof.
  intros H.
  destruct closure_example_bins as (seglists & outbins & Hrun & Hkept & _ & Hapart).
  apply Hapart, (H seglists outbins examples.c1 examples.c4 Hrun).
  - rewrite Hkept. by apply (bool_decide_unpack _).
  - rewrite Hkept. by apply (bool_decide_unpack _).
  - exists examples.early. split; [by left|]. vm_compute. reflexivity.
Qed.

(** C5 fails on the code.  With c1, c2 and c3 packed the bins are, in order,
    that of c1, of extent [0, 1000), and that of c2 and c3, of extent
    [5, 10).  For the new entry c4 = X[500, 510) and [max_gap = 20] the scan
    stops at the second bin, whose end 10 is before 500 - 20; the first
    bin, which it skips, matches c4. *)
Theorem bail_out_skips_match :
  ¬ bail_out_sound
      (examples.packed [examples.early] [examples.c1; examples.c2; examples.c3])
      examples.c4.
Proof.
  intros H.
  specialize (H _ _ _ 1%nat 0%nat _ _ _ _
                ltac:(vm_compute; reflexivity) ltac:(vm_compute; reflexivity)
                ltac:(vm_compute; reflexivity) ltac:(vm_compute; reflexivity)
                ltac:(vm_compute; reflexivity) ltac:(vm_compute; reflexivity)
                ltac:(vm_compute; reflexivity) ltac:(lia)
                ltac:(vm_compute; reflexivity)).
  vm_compute in H. discriminate H.
Qed.

(** ** Independence of the order of the offset vectors *)

Global Instance offset_vector_lt_strict_total : StrictTotal offset_vector_lt.
Proof.
  unfold offset_vector_lt. split.
  - intros v. apply lt_irrefl.
  - intros u v w. apply lt_trans.
  - intros v w H1 H2. apply map_to_list_inj.
    pose proof (lt_connex (lt:=list_lt (pair_lt string_lt Qc_lt)) _ _ H1 H2) as Heq.
    unfold sorted_items in Heq.
    by rewrite <-(py_sort_Permutation (pair_lt string_lt Qc_lt) (map_to_list v)), Heq,
      py_sort_Permutation.
Qed.

Lemma is_min_unique lo1 lo2 l1 l2 : l1 ≡ₚ l2 → is_min lo1 l1 → is_min lo2 l2 → lo1 = lo2.
Proof.
  intros Hp [Hin1 Hle1] [Hin2 Hle2]. apply Qcle_antisym.
  - apply Hle1. by rewrite Hp.
  - apply Hle2. by rewrite <-Hp.
Qed.

Lemma is_max_unique hi1 hi2 l1 l2 : l1 ≡ₚ l2 → is_max hi1 l1 → is_max hi2 l2 → hi1 = hi2.
Proof.
  intros Hp [Hin1 Hle1] [Hin2 Hle2]. apply Qcle_antisym.
  - apply Hle2. by rewrite <-Hp.
  - apply Hle1. by rewrite Hp.
Qed.

Lemma set_offset_vectors_Permutation self vs1 vs2 :
  vs1 ≡ₚ vs2 → set_offset_vectors self vs1 = set_offset_vectors self vs2.
Proof.
  intros Hp.
  pose proof (set_offset_vectors_outcome self vs1) as H1.
  pose proof (set_offset_vectors_outcome self vs2) as H2.
  assert (∀ vs p, set_offset_vectors self vs = Ok p →
                  vs ≠ [] ∧ Forall (λ v : offset_vector, v ≠ ∅) vs) as Hok.
  { intros vs p H. unfold set_offset_vectors in H.
    apply bind_Ok in H as (mins & Hmins%mapM_result_Ok & H).
    apply bind_Ok in H as (lo & Hlo & _). split.
    - intros ->. inversion Hmins; subst. done.
    - eapply Forall2_Forall_l; [exact Hmins|]. apply Forall_forall.
      intros x _ v Hv ->. done. }
  destruct (set_offset_vectors self vs1) as [p1|e1] eqn:E1,
           (set_offset_vectors self vs2) as [p2|e2] eqn:E2.
  - apply set_offset_vectors_Ok in E1 as (lo1 & hi1 & Hlo1 & Hhi1 & ->).
    apply set_offset_vectors_Ok in E2 as (lo2 & hi2 & Hlo2 & Hhi2 & ->).
    assert (vs1 ≫= values ≡ₚ vs2 ≫= values) as Hvals by by rewrite Hp.
    rewrite (is_min_unique _ _ _ _ Hvals Hlo1 Hlo2), (is_max_unique _ _ _ _ Hvals Hhi1 Hhi2).
    by rewrite (py_sort_unique offset_vector_lt vs1 vs2 Hp).
  - exfalso. destruct (Hok _ _ E1) as [Hne Hall]. destruct H2 as [_ [->|Hin]].
    + by apply Permutation_nil_r in Hp.
    + rewrite <-Hp in Hin. rewrite Forall_forall in Hall. by destruct (Hall _ Hin).
  - exfalso. destruct (Hok _ _ E2) as [Hne Hall]. destruct H1 as [_ [->|Hin]].
    + by apply Permutation_nil_l in Hp.
    + rewrite Hp in Hin. rewrite Forall_forall in Hall. by destruct (Hall _ Hin).
  - destruct H1 as [-> _], H2 as [-> _]. done.
Qed.

Lemma coalesce_Permutation l1 l2 : l1 ≡ₚ l2 → coalesce l1 = coalesce l2.
Proof. intros Hp. unfold coalesce. by rewrite (py_sort_unique segment_lt l1 l2 Hp). Qed.

Lemma get_coincident_segmentlistdict_Permutation seglistdict vs1 vs2 :
  vs1 ≡ₚ vs2 →
  llwapp.get_coincident_segmentlistdict seglistdict vs1 =
  llwapp.get_coincident_segmentlistdict seglistdict vs2.
Proof.
  intros Hp. unfold llwapp.get_coincident_segmentlistdict.
  assert (⋃ (dom <$> vs1) = (⋃ (dom <$> vs2) : gset string)) as ->.
  { apply set_eq. intros k. rewrite !elem_of_union_list. by setoid_rewrite Hp. }
  f_equal. apply map_imap_ext. intros k.
  destruct (gset_to_gmap () _ !! k); simpl; [|done]. do 2 f_equal.
  apply coalesce_Permutation. by rewrite Hp.
Qed.

Lemma coincident_seglists_Permutation cache vs1 vs2 :
  vs1 ≡ₚ vs2 → coincident_seglists cache vs1 = coincident_seglists cache vs2.
Proof.
  intros Hp. unfold coincident_seglists.
  destruct (segmentlistdict_normalize _ _) as [seglists|]; simpl; [|done].
  f_equal. apply get_coincident_segmentlistdict_Permutation.
  unfold ligolw_tisi.time_slide_component_vectors. by rewrite Hp.
Qed.

(** C9.  The order in which the offset vectors are given does not matter:
    [set_offset_vectors] puts them in one order, and [ligolw_cafe], which
    packs the entries in time order, returns the same coverage and the same
    bins for two lists of vectors that differ in order only. *)
Theorem ligolw_cafe_vector_order (cache : list CacheEntry) (vs1 vs2 : list offset_vector)
    (extentlimit : option Qc) :
  vs1 ≡ₚ vs2 →
  (∀ self, set_offset_vectors self vs1 = set_offset_vectors self vs2) ∧
  ligolw_cafe cache vs1 extentlimit = ligolw_cafe cache vs2 extentlimit.
Proof.
  intros Hp. split; [intros self; by apply set_offset_vectors_Permutation|].
  unfold ligolw_cafe.
  rewrite (coincident_seglists_Permutation cache vs1 vs2 Hp).
  destruct (coincident_seglists cache vs2) as [seglists|]; simpl; [|done].
  by rewrite (set_offset_vectors_Permutation _ vs1 vs2 Hp).
Qed.

Lemma ligolw_cafe_vector_order_witness :
  ligolw_cafe examples.cache [examples.zero_lag; examples.early] None =
  ligolw_cafe examples.cache [examples.early; examples.zero_lag] None.
Proof.
  apply (ligolw_cafe_vector_order examples.cache
           [examples.zero_lag; examples.early] [examples.early; examples.zero_lag] None).
  apply Permutation_swap.
Defined.

(** ** Offsets are put back *)

Lemma segmentlist_shift_0 (l : segmentlist) : segmentlist_shift l 0 = l.
Proof.
  unfold segmentlist_shift. rewrite <-(list_fmap_id l) at 2. apply list_fmap_ext.
  intros _ [a b] _. unfold segment_shift. simpl. by rewrite !Qcplus_0_r.
Qed.

Lemma segmentlist_shift_shift (l : segmentlist) (a b : Qc) :
  segmentlist_shift (segmentlist_shift l a) b = segmentlist_shift l (a + b).
Proof.
  unfold segmentlist_shift. rewrite <-list_fmap_compose. apply list_fmap_ext.
  intros _ [x y] _. unfold segment_shift. simpl. f_equal; ring.
Qed.

Lemma normal_offset_of d k l : normal d → lists d !! k = Some l → offset_of d k = 0.
Proof. unfold normal, offset_of. intros -> Hk. by rewrite lookup_fmap, Hk. Qed.

Lemma tracks_refl d : normal d → tracks d d.
Proof.
  intros Hd k. destruct (lists d !! k) as [l|] eqn:Hk; simpl; [|done].
  by rewrite (normal_offset_of d k l Hd Hk), segmentlist_shift_0.
Qed.

Lemma offset_of_update d v k l :
  lists d !! k = Some l →
  offset_of (offsets_update d v) k = default (offset_of d k) (v !! k).
Proof.
  intros Hk. unfold offset_of at 1. simpl. rewrite map_lookup_imap, Hk. simpl.
  by destruct (v !! k).
Qed.

Lemma tracks_update base d v : tracks base d → tracks base (offsets_update d v).
Proof.
  intros Hd k. simpl. rewrite map_lookup_imap, (Hd k).
  destruct (lists base !! k) as [l|] eqn:Hk; simpl; [|done].
  rewrite (offset_of_update d v k (segmentlist_shift l (offset_of d k)))
    by by rewrite (Hd k), Hk.
  destruct (v !! k) as [o|]; simpl; [|done].
  rewrite segmentlist_shift_shift. do 2 f_equal. ring.
Qed.

Lemma tracks_clear base d : normal base → tracks base d → offsets_clear d = base.
Proof.
  intros Hbase Hd. destruct base as [bl bo]. unfold normal in Hbase. simpl in *. subst bo.
  unfold offsets_clear. f_equal.
  - apply map_eq. intros k. rewrite map_lookup_imap, (Hd k). simpl.
    destruct (bl !! k) as [l|]; simpl; [|done].
    rewrite segmentlist_shift_shift.
    replace (offset_of d k + (0 - offset_of d k)) with (Q2Qc 0) by ring.
    by rewrite segmentlist_shift_0.
  - apply map_eq. intros k. rewrite !lookup_fmap, (Hd k). simpl. by destruct (bl !! k).
Qed.

Lemma match_offset_vectors_tracks_new vs new0 new_size bin_size :
  tracks new0 new_size → tracks new0 (match_offset_vectors vs new_size bin_size).1.1.
Proof.
  revert new_size bin_size. induction vs as [|v vs IH]; intros new_size bin_size Hn; simpl.
  - done.
  - destruct (is_coincident _ _ _); simpl; [by apply tracks_update|].
    by apply IH, tracks_update.
Qed.

Lemma match_offset_vectors_tracks_bin vs bin0 new_size bin_size :
  tracks bin0 bin_size → tracks bin0 (match_offset_vectors vs new_size bin_size).1.2.
Proof.
  revert new_size bin_size. induction vs as [|v vs IH]; intros new_size bin_size Hb; simpl.
  - done.
  - destruct (is_coincident _ _ _); simpl; [by apply tracks_update|].
    by apply IH, tracks_update.
Qed.

(** ** Bins that are well formed *)

Lemma with_size_id b : with_size b (size b) = b.
Proof. by destruct b. Qed.

(** The scan returns the bins as they were, and the new bin as it was but
    for the offsets still applied to its [size]. *)
Lemma scan_bins_restores self k bs new0 new ms bs' new' ms' :
  Forall bin_ok bs → tracks new0 (size new) →
  scan_bins self k bs new ms = Ok (bs', new', ms') →
  bs' = bs ∧ tracks new0 (size new').
Proof.
  intros Hbs. revert new ms. induction k as [|n IH]; intros new ms Hnew; simpl.
  - by intros [= <- <- <-].
  - intros H. apply bind_Ok in H as (bin & Hbin%item_Ok & H).
    apply bind_Ok in H as (bin_extent & _ & H).
    apply bind_Ok in H as (new_extent & _ & H).
    apply bind_Ok in H as (gap & _ & H).
    destruct (bail_out bin_extent new_extent gap); [by injection H as <- <- <-|].
    apply bind_Ok in H as (vs & _ & H).
    assert (bin_ok bin) as [_ Hnormal].
    { rewrite Forall_forall in Hbs. apply Hbs. by eapply list_elem_of_lookup_2. }
    pose proof (match_offset_vectors_tracks_new vs new0 (size new) (size bin) Hnew) as Hn'.
    pose proof (match_offset_vectors_tracks_bin vs (size bin) (size new) (size bin)
                  (tracks_refl _ Hnormal)) as Hb'.
    destruct (match_offset_vectors vs (size new) (size bin)) as [[new_size bin_size] hit].
    simpl in *. rewrite (tracks_clear _ _ Hnormal Hb'), with_size_id in H.
    rewrite (list_insert_id bs n bin Hbin) in H. by apply IH in H.
Qed.

Lemma to_segmentlistdict_normal c : normal (lal.to_segmentlistdict c).
Proof.
  unfold normal, lal.to_segmentlistdict. simpl.
  generalize (match lal.segment c with Some s => [s] | None => [] end). intros x.
  induction (lal.observatory c) as [|i obs IH].
  - rewrite !fmap_nil. cbn [list_to_map foldr]. by rewrite fmap_empty.
  - rewrite !fmap_cons. cbn [list_to_map foldr fst snd]. by rewrite fmap_insert, <-IH.
Qed.

Lemma ior_normal a b : normal a → normal (ior a b).
Proof.
  unfold normal. intros Ha. simpl. rewrite Ha. apply map_eq. intros k.
  rewrite lookup_union, !lookup_fmap, lookup_union_with.
  by destruct (lists a !! k), (lists b !! k).
Qed.

Lemma set_extent_ok b b' : normal (size b) → set_extent b = Ok b' → bin_ok b'.
Proof.
  unfold set_extent. intros Hn H. apply bind_Ok in H as (e & He & [= <-]).
  split; [|done]. by exists e.
Qed.

Lemma coalesce_from_nonempty cur l : coalesce_from cur l ≠ [].
Proof. revert cur. induction l as [|s l IH]; intros cur; simpl; [done|]. by destruct (Qc_le _ _). Qed.

Lemma coalesce_nonempty l : l ≠ [] → coalesce l ≠ [].
Proof.
  intros Hl. unfold coalesce. destruct (py_sort segment_lt l) as [|s l'] eqn:Hs.
  - apply (f_equal length) in Hs. rewrite py_sort_length in Hs. by destruct l.
  - apply coalesce_from_nonempty.
Qed.

Lemma all_segments_nonempty d : all_segments d ≠ [] ↔ ∃ k l, lists d !! k = Some l ∧ l ≠ [].
Proof.
  split.
  - destruct (all_segments d) as [|s ss] eqn:Hs; [done|]. intros _.
    assert (s ∈ all_segments d) as Hin by (rewrite Hs; by left).
    apply elem_of_all_segments in Hin as (k & l & Hk & Hl). exists k, l. split; [done|].
    intros ->. by apply elem_of_nil in Hl.
  - intros (k & [|s l] & Hk & Hl) Hnil; [done|].
    assert (s ∈ all_segments d) as Hin.
    { apply elem_of_all_segments. exists k, (s :: l). split; [done|by left]. }
    rewrite Hnil in Hin. by apply elem_of_nil in Hin.
Qed.

Lemma ior_nonempty_l a b : all_segments a ≠ [] → all_segments (ior a b) ≠ [].
Proof.
  rewrite !all_segments_nonempty. intros (k & l & Hk & Hl). simpl.
  destruct (lists b !! k) as [l'|] eqn:Hk'.
  - exists k, (segmentlist_or l l'). rewrite lookup_union_with, Hk, Hk'. split; [done|].
    apply coalesce_nonempty. by destruct l.
  - exists k, l. by rewrite lookup_union_with, Hk, Hk'.
Qed.

Lemma ior_nonempty_r a b : all_segments b ≠ [] → all_segments (ior a b) ≠ [].
Proof.
  rewrite !all_segments_nonempty. intros (k & l & Hk & Hl). simpl.
  destruct (lists a !! k) as [l'|] eqn:Hk'.
  - exists k, (segmentlist_or l' l). rewrite lookup_union_with, Hk, Hk'. split; [done|].
    apply coalesce_nonempty. destruct l; [done|]. by destruct l'.
  - exists k, l. by rewrite lookup_union_with, Hk, Hk'.
Qed.

Lemma bin_ok_nonempty b : bin_ok b → all_segments (size b) ≠ [].
Proof.
  intros [(e & _ & He) _]. unfold extent_all in He. by destruct (all_segments (size b)).
Qed.

Lemma LALCacheBin_iadd_ok dest other :
  bin_ok dest → ∃ b, LALCacheBin_iadd dest other = Ok b ∧ bin_ok b.
Proof.
  intros Hdest. unfold LALCacheBin_iadd.
  destruct (extent_all_nonempty (ior (size dest) (size other))) as [e He].
  { by apply ior_nonempty_l, bin_ok_nonempty. }
  eexists. split.
  - unfold set_extent. simpl. rewrite He. simpl. reflexivity.
  - split; [by exists e|]. simpl. apply ior_normal. by destruct Hdest.
Qed.

Lemma LALCacheBin_add_ok c :
  all_segments (lal.to_segmentlistdict c) ≠ [] →
  ∃ b, LALCacheBin_add LALCacheBin_init c (lal.to_segmentlistdict c) = Ok b ∧ bin_ok b.
Proof.
  intros Hc. unfold LALCacheBin_add.
  destruct (extent_all_nonempty (ior empty_dict (lal.to_segmentlistdict c))) as [e He].
  { by apply ior_nonempty_r. }
  eexists. split.
  - unfold set_extent. simpl. rewrite He. simpl. reflexivity.
  - split; [by exists e|]. simpl. by apply ior_normal.
Qed.

(** ** [pack] returns, and keeps the bins well formed *)

Lemma scan_bins_total self k bs new ms :
  is_configured self → (k ≤ length bs)%nat → Forall bin_ok bs → is_Some (extent new) →
  ∃ r, scan_bins self k bs new ms = Ok r.
Proof.
  intros [[vs Hvs] [gap Hgap]] Hk Hbs. revert new ms Hk.
  induction k as [|n IH]; intros new ms Hk [new_extent Hnew]; simpl; [by eexists|].
  destruct (lookup_lt_is_Some_2 bs n) as [bin Hbin]; [lia|].
  assert (bin_ok bin) as [(bin_extent & Hext & _) Hnormal].
  { rewrite Forall_forall in Hbs. apply Hbs. by eapply list_elem_of_lookup_2. }
  unfold item. rewrite Hbin. cbn [mbind result_bind].
  rewrite Hext, Hnew, Hgap. cbn [mbind result_bind subscript getattr].
  destruct (bail_out bin_extent new_extent gap); [by eexists|].
  rewrite Hvs. cbn [mbind result_bind subscript getattr].
  pose proof (match_offset_vectors_tracks_bin vs (size bin) (size new) (size bin)
                (tracks_refl _ Hnormal)) as Htracks.
  destruct (match_offset_vectors vs (size new) (size bin)) as [[new_size bin_size] hit].
  simpl in Htracks.
  rewrite (tracks_clear (size bin) bin_size Hnormal Htracks), with_size_id.
  rewrite (list_insert_id bs n bin Hbin).
  apply IH; [lia|]. by exists new_extent.
Qed.

Lemma merge_bins_ok d ns bs :
  descending ns → Forall (λ n, (d < n < length bs)%nat) ns → (d < length bs)%nat →
  Forall bin_ok bs →
  ∃ bs', merge_bins d ns bs = Ok bs' ∧ Forall bin_ok bs'.
Proof.
  revert bs. induction ns as [|n ns IH]; intros bs Hdesc Hrange Hd Hbs; simpl.
  - by exists bs.
  - apply StronglySorted_inv in Hdesc as [Hdesc Hn].
    apply Forall_cons in Hrange as [[Hdn Hnlen] Hrange].
    destruct (lookup_lt_is_Some_2 bs n Hnlen) as [other Hother].
    destruct (lookup_lt_is_Some_2 bs d Hd) as [dest Hdest].
    assert (bin_ok dest) as Hdest_ok.
    { rewrite Forall_forall in Hbs. apply Hbs. by eapply list_elem_of_lookup_2. }
    destruct (LALCacheBin_iadd_ok dest other Hdest_ok) as (dest' & Hdest' & Hdest'_ok).
    unfold item. rewrite Hother. cbn [mbind result_bind].
    rewrite list_lookup_delete_lt, Hdest by done. cbn [mbind result_bind].
    rewrite Hdest'. cbn [mbind result_bind].
    assert (length (delete n bs) = pred (length bs)) as Hlen.
    { rewrite length_delete; [lia|done]. }
    apply IH; [done| | |].
    + rewrite length_insert, Hlen. rewrite Forall_forall in Hn, Hrange |- *. intros m Hm.
      specialize (Hn m Hm). specialize (Hrange m Hm). simpl in *. lia.
    + rewrite length_insert, Hlen. lia.
    + apply Forall_insert; [|done]. by apply Forall_delete.
Qed.

Lemma pack_ok self c :
  is_configured self → Forall bin_ok (bins self) →
  all_segments (lal.to_segmentlistdict c) ≠ [] →
  ∃ p, pack self c = Ok p ∧ is_configured p ∧ Forall bin_ok (bins p).
Proof.
  intros Hconf Hbs Hc. unfold pack.
  destruct (LALCacheBin_add_ok c Hc) as (new & Hnew & [Hnew_cons Hnew_normal]).
  rewrite Hnew. cbn [mbind result_bind].
  destruct (scan_bins_total self (length (bins self)) (bins self) new [] Hconf)
    as [[[bs new'] ms] Hscan]; [done|done|by destruct Hnew_cons as (e & -> & _)|].
  rewrite Hscan. cbn [mbind result_bind].
  destruct (scan_bins_restores _ _ _ (size new) _ _ _ _ _ Hbs (tracks_refl _ Hnew_normal) Hscan)
    as [-> Htracks].
  apply scan_bins_spec in Hscan as (_ & _ & Hobjs & Hext & extra & Hms & Hlt & Hdesc).
  simpl in Hms. subst extra.
  assert (with_size new' (offsets_clear (size new')) = new) as ->.
  { rewrite (tracks_clear _ _ Hnew_normal Htracks). unfold with_size.
    rewrite Hobjs, Hext. by destruct new. }
  assert (∀ bs', Forall bin_ok bs' →
    ∃ p, Ok bs' ≫= (λ bins0, Ok {| bins := py_sort LALCacheBin_lt bins0;
                                   offset_vectors := offset_vectors self;
                                   max_gap := max_gap self |}) = Ok p
         ∧ is_configured p ∧ Forall bin_ok (bins p)) as Hfinish.
  { intros bs' Hbs'. eexists. split; [reflexivity|]. split; [done|]. simpl.
    by rewrite py_sort_Permutation. }
  destruct (last ms) as [d|] eqn:Hlast.
  - apply last_Some in Hlast as [ns ->]. rewrite removelast_last.
    apply StronglySorted_app in Hdesc as (Hgt & Hdesc & _).
    apply Forall_app in Hlt as [Hlt Hd]. apply Forall_inv in Hd.
    destruct (lookup_lt_is_Some_2 (bins self) d Hd) as [dest Hdest].
    assert (bin_ok dest) as Hdest_ok.
    { rewrite Forall_forall in Hbs. apply Hbs. by eapply list_elem_of_lookup_2. }
    destruct (LALCacheBin_iadd_ok dest new Hdest_ok) as (dest' & Hdest' & Hdest'_ok).
    unfold item. rewrite Hdest. cbn [mbind result_bind].
    rewrite Hdest'. cbn [mbind result_bind].
    destruct (merge_bins_ok d ns (<[d:=dest']> (bins self))) as (bs' & Hmerge & Hbs').
    + done.
    + rewrite length_insert. rewrite Forall_forall in Hlt |- *. intros n Hn.
      split; [|by apply Hlt]. apply (Hgt n d); [done|by left].
    + by rewrite length_insert.
    + by apply Forall_insert.
    + rewrite Hmerge. by apply Hfinish.
  - apply Hfinish. apply Forall_app. split; [done|]. by repeat constructor.
Qed.

Lemma foldM_pack_ok self cache :
  is_configured self → Forall bin_ok (bins self) →
  Forall (λ c, all_segments (lal.to_segmentlistdict c) ≠ []) cache →
  ∃ p, foldM pack self cache = Ok p ∧ is_configured p ∧ Forall bin_ok (bins p).
Proof.
  intros Hconf Hbs Hcache. revert self Hconf Hbs.
  induction Hcache as [|c cache Hc _ IH]; intros self Hconf Hbs; simpl.
  - by exists self.
  - destruct (pack_ok self c Hconf Hbs Hc) as (p & -> & Hconf' & Hbs').
    cbn [mbind result_bind]. by apply IH.
Qed.

(** ** The filter of the driver *)

Lemma segmentlist_intersects_nil_r l : segmentlist_intersects l [] = false.
Proof. unfold segmentlist_intersects. by induction l. Qed.

(** An entry that passes the filter has a segment. *)
Lemma intersects_all_nonempty seglists d :
  intersects_all seglists d = true → all_segments d ≠ [].
Proof.
  unfold intersects_all. intros [Hall Hne]%andb_true_iff.
  apply negb_true_iff, bool_decide_eq_false in Hne.
  apply map_choose in Hne as (k & l & Hk).
  rewrite forallb_forall in Hall. specialize (Hall (k, l)). simpl in Hall.
  apply all_segments_nonempty. exists k, l. split; [done|]. intros ->.
  rewrite <-list_elem_of_In, elem_of_map_to_list in Hall. specialize (Hall Hk).
  destruct (lists seglists !! k); [|done]. by rewrite segmentlist_intersects_nil_r in Hall.
Qed.

Lemma all_segments_nil d : all_segments d = [] ↔ ∀ k l, lists d !! k = Some l → l = [].
Proof.
  split.
  - intros Hnil k l Hk. destruct l as [|s l]; [done|].
    assert (s ∈ all_segments d) as Hin.
    { apply elem_of_all_segments. exists k, (s :: l). split; [done|by left]. }
    rewrite Hnil in Hin. by apply elem_of_nil in Hin.
  - intros H. destruct (all_segments d) as [|s ss] eqn:Hs; [done|].
    assert (s ∈ all_segments d) as Hin by (rewrite Hs; by left).
    apply elem_of_all_segments in Hin as (k & l & Hk & Hl).
    rewrite (H k l Hk) in Hl. by apply elem_of_nil in Hl.
Qed.

Lemma segmentlist_shift_nil x : segmentlist_shift [] x = [].
Proof. done. Qed.

Lemma segmentlist_and_nil_l l : segmentlist_and [] l = [].
Proof. done. Qed.

Lemma common_segments_empty seglistdict v :
  all_segments seglistdict = [] → llwapp.common_segments seglistdict v = [].
Proof.
  intros Hnil. rewrite all_segments_nil in Hnil. unfold llwapp.common_segments.
  assert (∀ kv : string * Qc,
            segmentlist_shift (default [] (lists seglistdict !! kv.1)) kv.2 = []) as Hshift.
  { intros [k o]. simpl. destruct (lists seglistdict !! k) as [l|] eqn:Hk; [|done].
    by rewrite (Hnil k l Hk). }
  destruct (map_to_list v) as [|kv kvs]; [done|]. rewrite Hshift.
  induction kvs as [|kv' kvs IH]; [done|]. cbn [foldl].
  by rewrite segmentlist_and_nil_l.
Qed.

Lemma get_coincident_segmentlistdict_empty seglistdict vs :
  all_segments seglistdict = [] →
  all_segments (llwapp.get_coincident_segmentlistdict seglistdict vs) = [].
Proof.
  intros Hnil. apply all_segments_nil. intros k l. simpl. rewrite map_lookup_imap.
  destruct (gset_to_gmap () _ !! k); [|done]. simpl. intros [= <-].
  assert ((vs ≫= λ v : offset_vector,
             match v !! k with
             | Some o => segmentlist_shift (llwapp.common_segments seglistdict v) (0 - o)
             | None => []
             end) = []) as ->; [|done].
  induction vs as [|v vs IH]; [done|]. rewrite bind_cons, IH, app_nil_r.
  destruct (v !! k); [|done]. by rewrite common_segments_empty.
Qed.

Lemma coincident_seglists_total cache vs : ∃ seglists, coincident_seglists cache vs = Ok seglists.
Proof.
  unfold coincident_seglists, epoch_of, segmentlistdict_normalize, segmentlistdict_unnormalize.
  destruct (all_segments (cache_to_seglistdict cache)) as [|s l] eqn:Hsegs.
  - rewrite decide_True by done. cbn [mbind result_bind].
    rewrite decide_True by by apply get_coincident_segmentlistdict_empty. by eexists.
  - cbn [mbind result_bind]. by eexists.
Qed.

(** ** The driver *)

Lemma foldM_pack_members self cache p :
  foldM pack self cache = Ok p → members (bins p) ≡ₚ members (bins self) ++ cache.
Proof.
  revert self. induction cache as [|e cache IH]; intros self; simpl.
  - intros [= <-]. by rewrite app_nil_r.
  - intros H. apply bind_Ok in H as (p1 & Hp1 & H).
    apply pack_spec in Hp1 as (ms & _ & Hmem & _).
    rewrite (IH _ H), Hmem, <-(assoc (++)). done.
Qed.

Lemma all_segments_ior_empty d : all_segments (ior empty_dict d) = all_segments d.
Proof. unfold all_segments. simpl. by rewrite (left_id ∅ _). Qed.

Lemma foldM_pack_bin_ok self cache p :
  is_configured self → Forall bin_ok (bins self) →
  foldM pack self cache = Ok p → is_configured p ∧ Forall bin_ok (bins p).
Proof.
  revert self. induction cache as [|c cache IH]; intros self Hconf Hbs; simpl.
  - by intros [= <-].
  - intros H. apply bind_Ok in H as (p1 & Hp1 & H).
    assert (all_segments (lal.to_segmentlistdict c) ≠ []) as Hc.
    { unfold pack in Hp1. apply bind_Ok in Hp1 as (new & Hnew & _).
      unfold LALCacheBin_add, set_extent in Hnew. apply bind_Ok in Hnew as (e & He & _).
      simpl in He. unfold extent_all in He. rewrite all_segments_ior_empty in He.
      by destruct (all_segments (lal.to_segmentlistdict c)). }
    destruct (pack_ok self c Hconf Hbs Hc) as (p1' & Hp1' & Hconf' & Hbs').
    rewrite Hp1 in Hp1'. injection Hp1' as <-. by eapply IH.
Qed.

Lemma members_sort_objects bs : members (sort_objects <$> bs) ≡ₚ members bs.
Proof.
  unfold members. induction bs as [|b bs IH]; [done|].
  rewrite fmap_cons, !bind_cons, IH. simpl. by rewrite py_sort_Permutation.
Qed.

(** Splitting makes up no member. *)
Lemma split_bins_subset cafepacker limit p c :
  split_bins cafepacker limit = Ok p →
  c ∈ members (bins p) → c ∈ members (bins cafepacker).
Proof.
  intros Hsplit. apply split_bins_pieces in Hsplit as (pieces & -> & HF).
  unfold members. rewrite !list_elem_of_bind. intros (b & Hc & Hb).
  apply list_elem_of_join in Hb as (ps & Hb & Hps).
  apply list_elem_of_lookup in Hps as [i Hi].
  destruct (Forall2_lookup_r _ _ _ _ _ HF Hi) as (origbin & Horig & Hone).
  exists origbin. split; [|by eapply list_elem_of_lookup_2].
  unfold split_one in Hone. apply bind_Ok in Hone as (n & _ & Hone).
  case_decide.
  - injection Hone as <-. by apply list_elem_of_singleton in Hb as ->.
  - apply split_bin_spec in Hone as (e0 & _ & Hpieces).
    apply list_elem_of_lookup in Hb as [j Hj].
    destruct (Forall2_lookup_r _ _ _ _ _ Hpieces Hj)
      as (split & _ & (e & gap & _ & _ & _ & _ & Hobjs)).
    rewrite Hobjs in Hc. by apply list_elem_of_filter in Hc as [_ ?].
Qed.

(** The steps of [ligolw_cafe] when it returns. *)
Lemma ligolw_cafe_Ok cache vs extentlimit seglists outbins :
  ligolw_cafe cache vs extentlimit = Ok (seglists, outbins) →
  ∃ packer0 packer1 packer2,
    coincident_seglists cache vs = Ok seglists ∧
    set_offset_vectors (CafePacker_init []) vs = Ok packer0 ∧
    foldM pack packer0 (py_sort segment_key_lt (filter_cache seglists cache)) = Ok packer1 ∧
    match extentlimit with
    | Some limit => split_bins packer1 limit
    | None => Ok packer1
    end = Ok packer2 ∧
    outbins = sort_objects <$> bins packer2.
Proof.
  unfold ligolw_cafe. intros H.
  apply bind_Ok in H as (seglists' & Hseg & H).
  apply bind_Ok in H as (packer0 & Hp0 & H).
  apply bind_Ok in H as (packer1 & Hp1 & H).
  apply bind_Ok in H as (packer2 & Hp2 & [= <- <-]).
  by exists packer0, packer1, packer2.
Qed.

Lemma set_offset_vectors_configured self vs p :
  set_offset_vectors self vs = Ok p → is_configured p ∧ bins p = bins self.
Proof.
  intros H. apply set_offset_vectors_Ok in H as (lo & hi & _ & _ & ->).
  split; [|done]. split; by eexists.
Qed.

Lemma filter_cache_nonempty seglists cache :
  Forall (λ c, all_segments (lal.to_segmentlistdict c) ≠ [])
         (py_sort segment_key_lt (filter_cache seglists cache)).
Proof.
  rewrite py_sort_Permutation. unfold filter_cache. apply Forall_forall.
  intros c [Hc _]%list_elem_of_filter. by eapply intersects_all_nonempty.
Qed.

(** Once the offset vectors are fit for configuring, [ligolw_cafe] returns
    whatever the cache. *)
Lemma ligolw_cafe_total cache vs packer0 :
  set_offset_vectors (CafePacker_init []) vs = Ok packer0 →
  ∃ out, ligolw_cafe cache vs None = Ok out.
Proof.
  intros Hp0. unfold ligolw_cafe.
  destruct (coincident_seglists_total cache vs) as [seglists ->]. cbn [mbind result_bind].
  rewrite Hp0. cbn [mbind result_bind].
  apply set_offset_vectors_configured in Hp0 as [Hconf Hbins].
  destruct (foldM_pack_ok packer0 (py_sort segment_key_lt (filter_cache seglists cache)))
    as (p & -> & _); [done|by rewrite Hbins|apply filter_cache_nonempty|].
  cbn [mbind result_bind]. by eexists.
Qed.

(** The bins [ligolw_cafe] hands to [split_bins] are well formed, so what it
    returns after splitting is within the limit, the cuts being computed in
    exact rationals. *)
Lemma ligolw_cafe_within_limit cache vs limit seglists outbins :
  0 < limit →
  ligolw_cafe cache vs (Some limit) = Ok (seglists, outbins) →
  Forall (within_limit limit) outbins.
Proof.
  intros Hlimit H.
  apply ligolw_cafe_Ok in H as (p0 & p1 & p2 & _ & Hp0 & Hp1 & Hp2 & ->).
  apply set_offset_vectors_configured in Hp0 as [Hconf Hbins].
  apply foldM_pack_bin_ok in Hp1 as [_ Hok]; [|done|by rewrite Hbins].
  apply split_bins_pieces in Hp2 as (pieces & -> & HF).
  apply Forall_fmap, Forall_join. eapply Forall2_Forall_r; [exact HF|].
  eapply Forall_impl; [exact Hok|]. intros b [Hb _] ps Hps.
  apply split_one_spec in Hps as [Hps _]; [|done..].
  eapply Forall_impl; [exact Hps|]. by intros b' (e & ? & ?); exists e.
Qed.

(** C7.  When [ligolw_cafe] returns, the entries it packed are those of the
    cache whose segments intersect the coincident coverage, list by list; an
    entry with no segment for any instrument is not among them; every member
    of a returned bin is among them, and without splitting the members of
    the returned bins are exactly them.  No entry makes the driver raise:
    with the same offset vectors it returns whatever the cache. *)
Theorem ligolw_cafe_filter (cache : list CacheEntry) (vs : list offset_vector)
    (extentlimit : option Qc) (seglists : segmentlistdict) (outbins : list LALCacheBin) :
  ligolw_cafe cache vs extentlimit = Ok (seglists, outbins) →
  (∀ c, c ∈ filter_cache seglists cache ↔
        c ∈ cache ∧ intersects_all seglists (lal.to_segmentlistdict c) = true) ∧
  (∀ c, all_segments (lal.to_segmentlistdict c) = [] → c ∉ filter_cache seglists cache) ∧
  (∀ c, c ∈ members outbins → c ∈ filter_cache seglists cache) ∧
  (extentlimit = None → members outbins ≡ₚ filter_cache seglists cache) ∧
  (∀ cache', ∃ out, ligolw_cafe cache' vs None = Ok out).
Proof.
  intros H. apply ligolw_cafe_Ok in H as (p0 & p1 & p2 & Hseg & Hp0 & Hp1 & Hp2 & ->).
  assert (members (bins p1) ≡ₚ filter_cache seglists cache) as Hmem.
  { rewrite (foldM_pack_members _ _ _ Hp1).
    destruct (set_offset_vectors_configured _ _ _ Hp0) as [_ ->]. simpl.
    apply py_sort_Permutation. }
  split_and!.
  - intros c. unfold filter_cache. rewrite list_elem_of_filter. tauto.
  - intros c Hnil [Hc _]%list_elem_of_filter.
    by apply intersects_all_nonempty in Hc.
  - intros c. rewrite members_sort_objects, <-Hmem. destruct extentlimit as [limit|].
    + by apply (split_bins_subset p1 limit).
    + by injection Hp2 as <-.
  - intros ->. injection Hp2 as <-. by rewrite members_sort_objects.
  - intros cache'. by eapply ligolw_cafe_total.
Qed.

Lemma ligolw_cafe_filter_witness :
  members (examples.run examples.cache [examples.early] None).2
  ≡ₚ filter_cache (examples.run examples.cache [examples.early] None).1 examples.cache.
Proof.
  apply (ligolw_cafe_filter examples.cache [examples.early] None
           (examples.run examples.cache [examples.early] None).1
           (examples.run examples.cache [examples.early] None).2).
  - vm_compute. reflexivity.
  - reflexivity.
Defined.

(** * Further properties *)

(** ** The match test of [pack] *)

Lemma elem_of_named_lists (d : segmentlistdict) (ks : gset string) (l : segmentlist) :
  l ∈ named_lists d ks ↔ ∃ k, k ∈ ks ∧ lists d !! k = Some l.
Proof.
  unfold named_lists. rewrite list_elem_of_fmap. split.
  - intros ([k l'] & -> & H). apply elem_of_map_to_list in H.
    apply map_lookup_filter_Some in H as [Hk Hin]. by exists k.
  - intros (k & Hin & Hk). exists (k, l). split; [done|].
    apply elem_of_map_to_list. by apply map_lookup_filter_Some.
Qed.

Lemma existsb_elem_of {A} (f : A → bool) (l : list A) :
  existsb f l = true ↔ ∃ x, x ∈ l ∧ f x = true.
Proof.
  rewrite existsb_exists. split; intros (x & Hx & Hf); exists x; split; try done.
  - by apply list_elem_of_In.
  - by apply list_elem_of_In.
Qed.

Lemma segmentlist_intersects_true (l1 l2 : segmentlist) :
  segmentlist_intersects l1 l2 = true ↔
  ∃ a b, a ∈ l1 ∧ b ∈ l2 ∧ segment_intersects b a = true.
Proof.
  unfold segmentlist_intersects, segmentlist_intersects_segment.
  rewrite existsb_elem_of. split.
  - intros (a & Ha & H). apply existsb_elem_of in H as (b & Hb & H). by exists a, b.
  - intros (a & b & Ha & Hb & H). exists a. split; [done|].
    apply existsb_elem_of. by exists b.
Qed.

Lemma is_coincident_true (self other : segmentlistdict) (ks : gset string) :
  is_coincident self other ks = true ↔
  ∃ ka kb la lb a b,
    ka ∈ ks ∧ kb ∈ ks ∧ lists self !! ka = Some la ∧ lists other !! kb = Some lb ∧
    a ∈ la ∧ b ∈ lb ∧ segment_intersects b a = true.
Proof.
  unfold is_coincident. rewrite existsb_elem_of. split.
  - intros (la & Hla & H). apply existsb_elem_of in H as (lb & Hlb & H).
    apply elem_of_named_lists in Hla as (ka & ? & ?).
    apply elem_of_named_lists in Hlb as (kb & ? & ?).
    apply segmentlist_intersects_true in H as (a & b & ? & ? & ?).
    by exists ka, kb, la, lb, a, b.
  - intros (ka & kb & la & lb & a & b & ? & ? & ? & ? & ? & ? & ?).
    exists la. split; [apply elem_of_named_lists; by exists ka|].
    apply existsb_elem_of. exists lb. split; [apply elem_of_named_lists; by exists kb|].
    apply segmentlist_intersects_true. by exists a, b.
Qed.

(** The segments of a dictionary that has been moved to [v], for a name of [v]. *)
Lemma tracks_update_lookup base d v k o l s :
  tracks base d → v !! k = Some o → lists (offsets_update d v) !! k = Some l → s ∈ l →
  ∃ l0 s0, lists base !! k = Some l0 ∧ s0 ∈ l0 ∧ s = segment_shift s0 o.
Proof.
  intros Hd Hv Hl Hs.
  pose proof (tracks_update base d v Hd k) as Hk. rewrite Hl in Hk.
  destruct (lists base !! k) as [l0|] eqn:Hl0; [|done]. simpl in Hk. injection Hk as ->.
  assert (is_Some (lists d !! k)) as [ld Hld] by (rewrite (Hd k), Hl0; by eexists).
  rewrite (offset_of_update d v k ld Hld), Hv in Hs. simpl in Hs.
  apply list_elem_of_fmap in Hs as (s0 & -> & Hs0). by exists l0, s0.
Qed.

Lemma match_offset_vectors_hit vs new0 bin0 new_size bin_size :
  tracks new0 new_size → tracks bin0 bin_size →
  (match_offset_vectors vs new_size bin_size).2 = true →
  ∃ v ka kb oa ob la lb a b,
    v ∈ vs ∧ v !! ka = Some oa ∧ v !! kb = Some ob ∧
    lists bin0 !! ka = Some la ∧ lists new0 !! kb = Some lb ∧ a ∈ la ∧ b ∈ lb ∧
    segment_intersects (segment_shift b ob) (segment_shift a oa) = true.
Proof.
  revert new_size bin_size. induction vs as [|v vs IH]; intros new_size bin_size Hn Hb; simpl.
  - done.
  - destruct (is_coincident _ _ _) eqn:Hco; simpl.
    + intros _. apply is_coincident_true in Hco
        as (ka & kb & la & lb & a & b & Hka & Hkb & Hla & Hlb & Ha & Hb' & Hint).
      apply elem_of_dom in Hka as [oa Hoa]. apply elem_of_dom in Hkb as [ob Hob].
      destruct (tracks_update_lookup _ _ _ _ _ _ _ Hb Hoa Hla Ha) as (la0 & a0 & ? & ? & ->).
      destruct (tracks_update_lookup _ _ _ _ _ _ _ Hn Hob Hlb Hb') as (lb0 & b0 & ? & ? & ->).
      exists v, ka, kb, oa, ob, la0, lb0, a0, b0. split_and!; try done. by left.
    + intros H. apply IH in H; [|by apply tracks_update..].
      destruct H as (v' & ka & kb & oa & ob & la & lb & a & b & ? & H).
      exists v', ka, kb, oa, ob, la, lb, a, b. split; [by right|done].
Qed.

Lemma elem_of_values (v : offset_vector) k o : v !! k = Some o → o ∈ values v.
Proof.
  intros H. unfold values. apply list_elem_of_fmap. exists (k, o). split; [done|].
  by apply elem_of_map_to_list.
Qed.

(** [max_gap] is at least the difference of any two configured offsets. *)
Lemma max_gap_bound self0 vs0 self vs v w ka kb oa ob :
  set_offset_vectors self0 vs0 = Ok self → offset_vectors self = Some vs →
  v ∈ vs → w ∈ vs → v !! ka = Some oa → w !! kb = Some ob →
  ∃ gap, max_gap self = Some gap ∧ oa - ob ≤ gap.
Proof.
  intros H Hvs Hv Hw Hoa Hob.
  apply set_offset_vectors_Ok in H as (lo & hi & [_ Hlo] & [_ Hhi] & ->).
  simpl in *. injection Hvs as <-. exists (hi - lo). split; [done|].
  apply py_sort_elem_of in Hv, Hw.
  assert (oa ≤ hi) by (apply Hhi, list_elem_of_bind; exists v; split; [by eapply elem_of_values|done]).
  assert (lo ≤ ob) by (apply Hlo, list_elem_of_bind; exists w; split; [by eapply elem_of_values|done]).
  Qc_linear.
Qed.

Lemma bail_out_excludes_match self0 vs0 self bin new vs gap bin_extent new_extent new_size :
  set_offset_vectors self0 vs0 = Ok self → bin_ok bin → bin_ok new →
  offset_vectors self = Some vs → max_gap self = Some gap →
  extent bin = Some bin_extent → extent new = Some new_extent →
  bail_out bin_extent new_extent gap = true → tracks (size new) new_size →
  (match_offset_vectors vs new_size (size bin)).2 = false.
Proof.
  intros Hset [(be & Hbe & Hbe') Hbn] [(ne & Hne & Hne') Hnn] Hvs Hgap Hbe2 Hne2.
  rewrite Hbe in Hbe2. rewrite Hne in Hne2. simplify_eq.
  unfold bail_out. intros Hbail%Qc_lt_true Hn.
  destruct (match_offset_vectors vs new_size (size bin)).2 eqn:Hhit; [|done]. exfalso.
  apply (match_offset_vectors_hit vs (size new) (size bin)) in Hhit;
    [|done|by apply tracks_refl].
  destruct Hhit as (v & ka & kb & oa & ob & la & lb & a & b & Hv & Hoa & Hob & Hla & Hlb
                    & Ha & Hb & Hint).
  destruct (max_gap_bound _ _ _ _ _ _ _ _ _ _ Hset Hvs Hv Hv Hoa Hob) as (gap' & Hgap' & Hle).
  rewrite Hgap in Hgap'. injection Hgap' as <-.
  apply extent_all_Ok in Hbe' as (Hball & _). apply extent_all_Ok in Hne' as (Hnall & _).
  destruct (Hball a) as [_ Ha2]; [apply elem_of_all_segments; by exists ka, la|].
  destruct (Hnall b) as [Hb1 _]; [apply elem_of_all_segments; by exists kb, lb|].
  unfold segment_intersects, segment_shift in Hint. simpl in Hint.
  apply andb_true_iff in Hint as [_ Hint%Qc_lt_true].
  revert Hbail Hle Ha2 Hb1 Hint.
  generalize (bin_extent.2) (new_extent.1) (a.2) (b.1). clear. intros x y z w. intros. Qc_linear.
Qed.

Lemma insert_Permutation {A} (l : list A) i x :
  (i < length l)%nat → <[i:=x]> l ≡ₚ x :: delete i l.
Proof.
  intros H. rewrite insert_take_drop, delete_take_drop by done.
  by rewrite Permutation_middle.
Qed.

Lemma merge_bins_result d ns bs bs' :
  merge_bins d ns bs = Ok bs' →
  descending ns → Forall (λ n, (d < n < length bs)%nat) ns → (d < length bs)%nat →
  ∃ dest0 dest others rest,
    bs !! d = Some dest0 ∧ Forall2 (λ n o, bs !! n = Some o) ns others ∧
    foldM LALCacheBin_iadd dest0 others = Ok dest ∧
    bs ≡ₚ dest0 :: others ++ rest ∧ bs' ≡ₚ dest :: rest.
Proof.
  revert bs. induction ns as [|n ns IH]; intros bs; simpl.
  - intros [= <-] _ _ Hd. destruct (lookup_lt_is_Some_2 bs d Hd) as [dest0 Hdest0].
    exists dest0, dest0, [], (delete d bs). split_and!; try done.
    + by apply delete_Permutation.
    + by apply delete_Permutation.
  - intros H Hdesc Hrange Hd.
    apply bind_Ok in H as (other & Hother%item_Ok & H).
    apply bind_Ok in H as (dest0 & Hdest0%item_Ok & H).
    apply bind_Ok in H as (dest1 & Hdest1 & H).
    apply StronglySorted_inv in Hdesc as [Hdesc Hn].
    apply Forall_cons in Hrange as [[Hdn Hnlen] Hrange].
    assert (length (delete n bs) = pred (length bs)) as Hlen.
    { rewrite length_delete; [lia|done]. }
    rewrite list_lookup_delete_lt in Hdest0 by done.
    apply IH in H as (dest0' & dest & others & rest & Hd0' & Hothers & Hfold & Hperm & Hperm');
      [|done| |rewrite length_insert, Hlen; lia].
    + rewrite list_lookup_insert_eq in Hd0' by (rewrite Hlen; lia). injection Hd0' as <-.
      exists dest0, dest, (other :: others), rest. split_and!; try done.
      * constructor; [done|].
        eapply Forall2_impl; [|intros m o Hm; exact Hm].
        apply Forall2_same_length_lookup. apply Forall2_same_length_lookup in Hothers as [Hl Hothers].
        split; [done|]. intros i m o Hm Ho. specialize (Hothers i m o Hm Ho).
        assert (m ∈ ns) as Hin by by eapply list_elem_of_lookup_2.
        rewrite Forall_forall in Hn, Hrange.
        specialize (Hn m Hin). specialize (Hrange m Hin). simpl in *.
        rewrite list_lookup_insert_ne in Hothers by lia.
        by rewrite list_lookup_delete_lt in Hothers by lia.
      * simpl. by rewrite Hdest1.
      * rewrite insert_Permutation in Hperm by (rewrite Hlen; lia).
        apply Permutation_cons_inv in Hperm.
        rewrite (delete_Permutation bs n other Hother).
        rewrite (delete_Permutation (delete n bs) d dest0)
          by by rewrite list_lookup_delete_lt.
        rewrite Hperm. simpl. apply Permutation_swap.
    + rewrite length_insert, Hlen. rewrite Forall_forall in Hn, Hrange |- *. intros m Hm.
      specialize (Hn m Hm). specialize (Hrange m Hm). simpl in *. lia.
Qed.

Lemma merge_bins_keeps d ns bs bs' i b :
  merge_bins d ns bs = Ok bs' →
  descending ns → Forall (λ n, (d < n < length bs)%nat) ns →
  bs !! i = Some b → i ≠ d → i ∉ ns → b ∈ bs'.
Proof.
  revert bs i. induction ns as [|n ns IH]; intros bs i; simpl.
  - intros [= <-] _ _ Hi _ _. by eapply list_elem_of_lookup_2.
  - intros H Hdesc Hrange Hi Hid Hins.
    apply bind_Ok in H as (other & Hother%item_Ok & H).
    apply bind_Ok in H as (dest0 & Hdest0%item_Ok & H).
    apply bind_Ok in H as (dest1 & Hdest1 & H).
    apply StronglySorted_inv in Hdesc as [Hdesc Hn].
    apply Forall_cons in Hrange as [[Hdn Hnlen] Hrange].
    apply not_elem_of_cons in Hins as [Hin Hins].
    assert (length (delete n bs) = pred (length bs)) as Hlen.
    { rewrite length_delete; [lia|done]. }
    assert (Forall (λ m, (d < m < length (<[d:=dest1]> (delete n bs)))%nat) ns) as Hrange'.
    { rewrite length_insert, Hlen. rewrite Forall_forall in Hn, Hrange |- *. intros m Hm.
      specialize (Hn m Hm). specialize (Hrange m Hm). simpl in *. lia. }
    destruct (decide (i < n)%nat) as [Hlt|Hge].
    + apply (IH _ i H); try done.
      rewrite list_lookup_insert_ne by done. by rewrite list_lookup_delete_lt.
    + apply (IH _ (pred i) H); try done.
      * rewrite list_lookup_insert_ne by lia. rewrite list_lookup_delete_ge by lia.
        by replace (S (pred i)) with i by lia.
      * lia.
      * intros Hm. rewrite Forall_forall in Hn. specialize (Hn _ Hm). simpl in Hn. lia.
Qed.

(** What [pack] leaves: see the theorem below. *)
Lemma pack_result self c p :
  Forall bin_ok (bins self) → pack self c = Ok p →
  ∃ new ms,
    LALCacheBin_add LALCacheBin_init c (lal.to_segmentlistdict c) = Ok new ∧
    matching_bins_of self c = Ok ms ∧
    (∀ i b, bins self !! i = Some b → i ∉ ms → b ∈ bins p) ∧
    match last ms with
    | None => bins p ≡ₚ new :: bins self
    | Some d =>
        ∃ dest0 dest others rest,
          bins self !! d = Some dest0 ∧
          Forall2 (λ n o, bins self !! n = Some o) (removelast ms) others ∧
          foldM LALCacheBin_iadd dest0 (new :: others) = Ok dest ∧
          bins self ≡ₚ dest0 :: others ++ rest ∧ bins p ≡ₚ dest :: rest
    end.
Proof.
  intros Hbs H. unfold pack, matching_bins_of in *.
  apply bind_Ok in H as (new & Hnew & H). rewrite Hnew. cbn [mbind result_bind].
  apply bind_Ok in H as ([[bs new'] ms] & Hscan & H). rewrite Hscan. cbn [mbind result_bind].
  exists new, ms. split; [done|]. split; [done|].
  apply bind_Ok in H as (bs' & Hbs' & [= <-]). cbn [bins].
  assert (bin_ok new) as [Hnew_cons Hnew_normal].
  { unfold LALCacheBin_add in Hnew. eapply set_extent_ok; [|done]. simpl.
    apply ior_normal. done. }
  destruct (scan_bins_restores _ _ _ (size new) _ _ _ _ _ Hbs (tracks_refl _ Hnew_normal) Hscan)
    as [-> Htracks].
  apply scan_bins_spec in Hscan as (_ & _ & Hobjs & Hext & extra & Hms & Hlt & Hdesc).
  simpl in Hms. subst extra.
  assert (with_size new' (offsets_clear (size new')) = new) as Hrestored.
  { rewrite (tracks_clear _ _ Hnew_normal Htracks). unfold with_size.
    rewrite Hobjs, Hext. by destruct new. }
  rewrite Hrestored in Hbs'.
  destruct (last ms) as [d|] eqn:Hlast.
  - apply last_Some in Hlast as [ns ->]. rewrite removelast_last in Hbs' |- *.
    apply bind_Ok in Hbs' as (dest0 & Hdest0%item_Ok & H).
    apply bind_Ok in H as (dest1 & Hdest1 & H).
    apply StronglySorted_app in Hdesc as (Hgt & Hdesc & _).
    apply Forall_app in Hlt as [Hlt Hd]. apply Forall_inv in Hd.
    assert (Forall (λ n, (d < n < length (<[d:=dest1]> (bins self)))%nat) ns) as Hrange.
    { rewrite length_insert. rewrite Forall_forall in Hlt |- *. intros n Hn.
      split; [|by apply Hlt]. apply (Hgt n d); [done|by left]. }
    split.
    + intros i b Hi Hin. rewrite py_sort_elem_of.
      apply not_elem_of_app in Hin as [Hin Hid]. apply not_elem_of_cons in Hid as [Hid _].
      eapply (merge_bins_keeps _ _ _ _ i); try done.
      by rewrite list_lookup_insert_ne.
    + apply merge_bins_result in H
        as (dest0' & dest & others & rest & Hd0' & Hothers & Hfold & Hperm & Hperm');
        [|done|done|by rewrite length_insert].
      rewrite list_lookup_insert_eq in Hd0' by done. injection Hd0' as <-.
      exists dest0, dest, others, rest. split_and!; try done.
      * apply Forall2_same_length_lookup. apply Forall2_same_length_lookup in Hothers as [Hl Hothers].
        split; [done|]. intros i m o Hm Ho. specialize (Hothers i m o Hm Ho).
        assert (m ∈ ns) as Hin by by eapply list_elem_of_lookup_2.
        rewrite Forall_forall in Hrange. specialize (Hrange m Hin). simpl in *.
        by rewrite list_lookup_insert_ne in Hothers by lia.
      * simpl. by rewrite Hdest1.
      * rewrite insert_Permutation in Hperm by done.
        apply Permutation_cons_inv in Hperm.
        by rewrite (delete_Permutation (bins self) d dest0 Hdest0), Hperm.
      * by rewrite py_sort_Permutation.
  - apply last_None in Hlast as ->. injection Hbs' as <-. split.
    + intros i b Hi _. rewrite py_sort_elem_of. apply elem_of_app. left.
      by eapply list_elem_of_lookup_2.
    + rewrite py_sort_Permutation. by rewrite Permutation_app_comm.
Qed.

(** ** Coalescing *)

Lemma Qc_max_ge_l x y : x ≤ Qc_max x y.
Proof. destruct (Qc_max_spec x y) as [[-> ?]|[-> ?]]; [apply Qcle_refl|done]. Qed.
Lemma Qc_max_ge_r x y : y ≤ Qc_max x y.
Proof. destruct (Qc_max_spec x y) as [[-> ?]|[-> ?]]; [done|apply Qcle_refl]. Qed.

(** A coalesced segment starts where a segment of the list starts and ends
    where one ends. *)
Lemma coalesce_from_ends cur l s :
  s ∈ coalesce_from cur l → s.1 ∈ (cur :: l).*1 ∧ s.2 ∈ (cur :: l).*2.
Proof.
  revert cur. induction l as [|t l IH]; intros cur; simpl.
  - intros ->%list_elem_of_singleton. split; by left.
  - destruct (Qc_le t.1 cur.2).
    + intros [H1 H2]%IH. simpl in *. split.
      * apply elem_of_cons in H1 as [->|H1]; [by left|by do 2 right].
      * apply elem_of_cons in H2 as [->|H2]; [|by do 2 right].
        destruct (Qc_max_spec cur.2 t.2) as [[-> _]|[-> _]]; [by left|right; by left].
    + intros [->|[H1 H2]%IH]%elem_of_cons; [split; by left|]. split; by right.
Qed.

(** Every segment of a list that is in order of start lies within a
    coalesced segment. *)
Lemma coalesce_from_covers cur l :
  Forall (λ s, cur.1 ≤ s.1) l → StronglySorted (λ a b : segment, a.1 ≤ b.1) l →
  (∃ s', s' ∈ coalesce_from cur l ∧ s'.1 = cur.1 ∧ cur.2 ≤ s'.2) ∧
  (∀ s, s ∈ l → ∃ s', s' ∈ coalesce_from cur l ∧ within s s').
Proof.
  revert cur. induction l as [|t l IH]; intros cur Hcur Hsorted; simpl.
  - split; [|by intros s ?%elem_of_nil]. exists cur. split_and!; [by left|done|apply Qcle_refl].
  - apply Forall_cons in Hcur as [Hct Hcur]. apply StronglySorted_inv in Hsorted as [Hsorted Ht].
    destruct (Qc_le t.1 cur.2) eqn:Hle.
    + destruct (IH (cur.1, Qc_max cur.2 t.2)) as [(s' & Hs' & Hs1 & Hs2) Hrest]; [done..|].
      simpl in *. split.
      * exists s'. split_and!; [done..|]. eapply Qcle_trans; [apply Qc_max_ge_l|done].
      * intros s [->|Hs]%elem_of_cons; [|by apply Hrest].
        exists s'. split; [done|]. split; [by rewrite Hs1|].
        eapply Qcle_trans; [apply Qc_max_ge_r|done].
    + destruct (IH t) as [(s' & Hs' & Hs1 & Hs2) Hrest]; [done..|]. split.
      * exists cur. split_and!; [by left|done|apply Qcle_refl].
      * intros s [->|Hs]%elem_of_cons.
        -- exists s'. split; [by right|]. split; [by rewrite Hs1|done].
        -- destruct (Hrest s Hs) as (s'' & ? & ?). exists s''. split; [by right|done].
Qed.

Lemma py_sort_by_start (l : segmentlist) :
  StronglySorted (λ a b : segment, a.1 ≤ b.1) (py_sort segment_lt l).
Proof.
  pose proof (not_after_trans segment_lt).
  eapply StronglySorted_weaken; last first.
  - apply (Sorted_StronglySorted (not_after segment_lt)), py_sort_Sorted.
    apply (lt_asym segment_lt).
  - intros a b [Hlt|[-> _]]%not_after_segment_lt; [by apply Qclt_le_weak|apply Qcle_refl].
Qed.

Lemma coalesce_ends l s : s ∈ coalesce l → s.1 ∈ l.*1 ∧ s.2 ∈ l.*2.
Proof.
  unfold coalesce. pose proof (py_sort_Permutation segment_lt l) as Hp.
  destruct (py_sort segment_lt l) as [|cur l']; [by intros ?%elem_of_nil|].
  intros [H1 H2]%coalesce_from_ends. by rewrite <-Hp.
Qed.

Lemma coalesce_covers l s : s ∈ l → ∃ s', s' ∈ coalesce l ∧ within s s'.
Proof.
  unfold coalesce. pose proof (py_sort_Permutation segment_lt l) as Hp.
  pose proof (py_sort_by_start l) as Hsorted.
  destruct (py_sort segment_lt l) as [|cur l']. { intros Hs. rewrite <-Hp in Hs. by apply elem_of_nil in Hs. }
  apply StronglySorted_inv in Hsorted as [Hsorted Hcur].
  destruct (coalesce_from_covers cur l' Hcur Hsorted) as [(s' & Hs' & Hs1 & Hs2) Hrest].
  rewrite <-Hp. intros [->|Hs]%elem_of_cons; [|by apply Hrest].
  exists s'. split; [done|]. split; [by rewrite Hs1; apply Qcle_refl|done].
Qed.

(** ** Union of dictionaries *)

Lemma ior_ends a b s :
  s ∈ all_segments (ior a b) →
  (∃ s1, s1 ∈ all_segments a ++ all_segments b ∧ s1.1 = s.1) ∧
  (∃ s2, s2 ∈ all_segments a ++ all_segments b ∧ s2.2 = s.2).
Proof.
  rewrite elem_of_all_segments. intros (k & l & Hk & Hs). simpl in Hk.
  rewrite lookup_union_with in Hk.
  destruct (lists a !! k) as [la|] eqn:Ha, (lists b !! k) as [lb|] eqn:Hb;
    simpl in Hk; try done; injection Hk as <-.
  - apply coalesce_ends in Hs as [H1 H2].
    apply list_elem_of_fmap in H1 as (s1 & Hs1 & H1). apply list_elem_of_fmap in H2 as (s2 & Hs2 & H2).
    split; [exists s1|exists s2]; (split; [|done]).
    + apply elem_of_app in H1 as [?|?]; apply elem_of_app; [left|right];
        apply elem_of_all_segments; eauto.
    + apply elem_of_app in H2 as [?|?]; apply elem_of_app; [left|right];
        apply elem_of_all_segments; eauto.
  - split; exists s; (split; [|done]); apply elem_of_app; left;
      apply elem_of_all_segments; eauto.
  - split; exists s; (split; [|done]); apply elem_of_app; right;
      apply elem_of_all_segments; eauto.
Qed.

Lemma within_refl s : within s s.
Proof. split; apply Qcle_refl. Qed.

Lemma within_trans s1 s2 s3 : within s1 s2 → within s2 s3 → within s1 s3.
Proof. intros [? ?] [? ?]. split; by eapply Qcle_trans. Qed.

Lemma ior_covers a b s :
  s ∈ all_segments a ++ all_segments b → ∃ s', s' ∈ all_segments (ior a b) ∧ within s s'.
Proof.
  intros Hs.
  assert (∃ k la lb, lists a !! k = la ∧ lists b !! k = lb ∧
            s ∈ default [] la ++ default [] lb ∧ (is_Some la ∨ is_Some lb))
    as (k & la & lb & Ha & Hb & Hin & Hsome).
  { apply elem_of_app in Hs as [Hs|Hs]; apply elem_of_all_segments in Hs as (k & l & Hk & Hs);
      exists k, (lists a !! k), (lists b !! k); rewrite Hk; simpl;
      (split_and!; [done|done| |by eauto]); apply elem_of_app; auto. }
  assert (∀ l', lists (ior a b) !! k = Some l' → (∃ s', s' ∈ l' ∧ within s s') →
                ∃ s', s' ∈ all_segments (ior a b) ∧ within s s') as Hfin.
  { intros l' Hl' (s' & Hs' & Hw). exists s'. split; [|done].
    apply elem_of_all_segments. by exists k, l'. }
  destruct la as [la|], lb as [lb|]; simpl in Hin.
  - apply (Hfin (segmentlist_or la lb)).
    + simpl. by rewrite lookup_union_with, Ha, Hb.
    + by apply coalesce_covers.
  - apply (Hfin la).
    + simpl. by rewrite lookup_union_with, Ha, Hb.
    + rewrite app_nil_r in Hin. exists s. split; [done|apply within_refl].
  - apply (Hfin lb).
    + simpl. by rewrite lookup_union_with, Ha, Hb.
    + exists s. split; [done|apply within_refl].
  - destruct Hsome as [[? ?]|[? ?]]; done.
Qed.

(** ** Invariants of [pack] *)

Lemma foldM_iadd_invariant (P : LALCacheBin → Prop) dest0 others dest :
  (∀ dest other b, P dest → P other → LALCacheBin_iadd dest other = Ok b → P b) →
  P dest0 → Forall P others → foldM LALCacheBin_iadd dest0 others = Ok dest → P dest.
Proof.
  intros Hiadd Hd Hothers. revert dest0 Hd.
  induction Hothers as [|o others Ho _ IH]; intros dest0 Hd; simpl.
  - by intros [= <-].
  - intros H. apply bind_Ok in H as (dest1 & Hdest1 & H). eapply IH; [|done]. eapply Hiadd; [exact Hd|exact Ho|exact Hdest1].
Qed.

(** A property of bins that the new bin has and that [+=] keeps is kept by
    [pack]. *)
Lemma pack_invariant (P : LALCacheBin → Prop) self c p :
  (∀ new, LALCacheBin_add LALCacheBin_init c (lal.to_segmentlistdict c) = Ok new → P new) →
  (∀ dest other b, P dest → P other → LALCacheBin_iadd dest other = Ok b → P b) →
  Forall bin_ok (bins self) → Forall P (bins self) → pack self c = Ok p → Forall P (bins p).
Proof.
  intros Hadd Hiadd Hok HP Hpack.
  destruct (pack_result self c p Hok Hpack) as (new & ms & Hnew & _ & _ & H).
  apply Hadd in Hnew. destruct (last ms) as [d|].
  - destruct H as (dest0 & dest & others & rest & Hd0 & Hothers & Hfold & Hperm & ->).
    rewrite Hperm in HP. apply Forall_cons in HP as [Hdest0 HP].
    apply Forall_app in HP as [Hoth Hrest]. constructor; [|done].
    eapply (foldM_iadd_invariant P); [done|exact Hdest0| |exact Hfold]. by constructor.
  - rewrite H. by constructor.
Qed.

(** *** No bin is empty *)

Lemma add_nonempty c new :
  LALCacheBin_add LALCacheBin_init c (lal.to_segmentlistdict c) = Ok new → objects new ≠ [].
Proof. intros H%LALCacheBin_add_objects. rewrite H. done. Qed.

Lemma iadd_nonempty dest other b :
  objects dest ≠ [] → objects other ≠ [] → LALCacheBin_iadd dest other = Ok b → objects b ≠ [].
Proof. intros Hd _ H%LALCacheBin_iadd_objects. rewrite H. by destruct (objects dest). Qed.

(** *** The [size] of a bin covers its members *)

Lemma elem_of_entry_segments c s :
  s ∈ all_segments (lal.to_segmentlistdict c) → lal.segment c = Some s.
Proof.
  rewrite elem_of_all_segments. intros (k & l & Hk & Hs). simpl in Hk.
  apply elem_of_list_to_map_2 in Hk. apply list_elem_of_fmap in Hk as (i & [= -> ->] & _).
  destruct (lal.segment c); [|by apply elem_of_nil in Hs].
  by apply list_elem_of_singleton in Hs as ->.
Qed.

Lemma add_size_covers c new :
  LALCacheBin_add LALCacheBin_init c (lal.to_segmentlistdict c) = Ok new → size_covers new.
Proof.
  unfold LALCacheBin_add, set_extent. intros H. apply bind_Ok in H as (e & He & [= <-]).
  unfold size_covers. simpl.
  assert (all_segments (ior empty_dict (lal.to_segmentlistdict c)) ≠ []) as Hne.
  { unfold extent_all in He. by destruct (all_segments _). }
  rewrite all_segments_ior_empty in *. split.
  - intros s Hs%elem_of_entry_segments.
    split; exists c, s; (split_and!; [by apply list_elem_of_singleton|done..]).
  - intros c' ->%list_elem_of_singleton.
    destruct (all_segments (lal.to_segmentlistdict c)) as [|s ss] eqn:Hsegs; [done|].
    assert (s ∈ all_segments (lal.to_segmentlistdict c)) as Hs by (rewrite Hsegs; by left).
    exists s, s. split_and!; [by apply elem_of_entry_segments|by rewrite <-Hsegs|apply within_refl].
Qed.

Lemma iadd_size_covers dest other b :
  size_covers dest → size_covers other → LALCacheBin_iadd dest other = Ok b → size_covers b.
Proof.
  intros [Hd1 Hd2] [Ho1 Ho2]. unfold LALCacheBin_iadd, set_extent. intros H.
  apply bind_Ok in H as (e & He & [= <-]). unfold size_covers. simpl. split.
  - intros s [(s1 & Hs1 & H1) (s2 & Hs2 & H2)]%ior_ends. split.
    + apply elem_of_app in Hs1 as [Hs1|Hs1].
      * destruct (Hd1 s1 Hs1) as [(c & t & ? & ? & ?) _]. exists c, t.
        split_and!; [apply elem_of_app; by left|done|congruence].
      * destruct (Ho1 s1 Hs1) as [(c & t & ? & ? & ?) _]. exists c, t.
        split_and!; [apply elem_of_app; by right|done|congruence].
    + apply elem_of_app in Hs2 as [Hs2|Hs2].
      * destruct (Hd1 s2 Hs2) as [_ (c & t & ? & ? & ?)]. exists c, t.
        split_and!; [apply elem_of_app; by left|done|congruence].
      * destruct (Ho1 s2 Hs2) as [_ (c & t & ? & ? & ?)]. exists c, t.
        split_and!; [apply elem_of_app; by right|done|congruence].
  - intros c [Hc|Hc]%elem_of_app.
    + destruct (Hd2 c Hc) as (s0 & s & Hs0 & Hs & Hw).
      destruct (ior_covers (size dest) (size other) s) as (s' & Hs' & Hw');
        [apply elem_of_app; by left|].
      exists s0, s'. split_and!; [done..|]. by eapply within_trans.
    + destruct (Ho2 c Hc) as (s0 & s & Hs0 & Hs & Hw).
      destruct (ior_covers (size dest) (size other) s) as (s' & Hs' & Hw');
        [apply elem_of_app; by right|].
      exists s0, s'. split_and!; [done..|]. by eapply within_trans.
Qed.

(** A bin whose extent is that of its [size], which covers its members,
    spans its members. *)
Lemma size_covers_spans b : bin_consistent b → size_covers b → spans b.
Proof.
  intros (e & He & Hext) [H1 H2]. exists e. split; [done|].
  apply extent_all_Ok in Hext as (Hall & (sl & Hsl & Hlo) & (sh & Hsh & Hhi)). split_and!.
  - intros c Hc. destruct (H2 c Hc) as (s0 & s & Hs0 & Hs & Hw). exists s0. split; [done|].
    eapply within_trans; [done|]. by apply Hall.
  - destruct (H1 sl Hsl) as [(c & s & ? & ? & ?) _]. exists c, s. split_and!; [done..|congruence].
  - destruct (H1 sh Hsh) as [_ (c & s & ? & ? & ?)]. exists c, s. split_and!; [done..|congruence].
Qed.

(** *** The extent of a merged bin *)

Lemma iadd_extent dest other ed eo :
  extent_all (size dest) = Ok ed → extent_all (size other) = Ok eo →
  ∃ b, LALCacheBin_iadd dest other = Ok b ∧
       objects b = objects dest ++ objects other ∧
       extent b = Some (Qc_min ed.1 eo.1, Qc_max ed.2 eo.2).
Proof.
  intros Hd Ho. unfold LALCacheBin_iadd, set_extent. simpl.
  destruct (extent_all_nonempty (ior (size dest) (size other))) as [e He].
  { apply ior_nonempty_l. unfold extent_all in Hd. by destruct (all_segments (size dest)). }
  rewrite He. cbn [mbind result_bind]. eexists. split; [done|]. simpl. split; [done|].
  do 2 f_equal. destruct e as [e1 e2]. simpl.
  apply extent_all_Ok in He as (Hall & (sl & Hsl & Hlo) & (sh & Hsh & Hhi)).
  apply extent_all_Ok in Hd as (Hdall & (dl & Hdl & Hdlo) & (dh & Hdh & Hdhi)).
  apply extent_all_Ok in Ho as (Hoall & (ol & Hol & Holo) & (oh & Hoh & Hohi)).
  simpl in *.
  assert (∀ s, s ∈ all_segments (size dest) ++ all_segments (size other) →
               within s (e1, e2)) as Hin.
  { intros s Hs. destruct (ior_covers _ _ s Hs) as (s' & Hs' & Hw).
    eapply within_trans; [done|]. by apply Hall. }
  f_equal.
  - apply Qcle_antisym.
    + destruct (Qc_min_spec ed.1 eo.1) as [[-> _]|[-> _]].
      * rewrite Hdlo. apply (Hin dl). apply elem_of_app. by left.
      * rewrite Holo. apply (Hin ol). apply elem_of_app. by right.
    + apply ior_ends in Hsl as [(s1 & Hs1 & H1) _]. rewrite Hlo, <-H1.
      apply elem_of_app in Hs1 as [Hs1|Hs1].
      * eapply Qcle_trans; [|by apply Hdall].
        destruct (Qc_min_spec ed.1 eo.1) as [[-> ?]|[-> ?]]; [apply Qcle_refl|done].
      * eapply Qcle_trans; [|by apply Hoall].
        destruct (Qc_min_spec ed.1 eo.1) as [[-> ?]|[-> ?]]; [done|apply Qcle_refl].
  - apply Qcle_antisym.
    + apply ior_ends in Hsh as [_ (s2 & Hs2 & H2)]. rewrite Hhi, <-H2.
      apply elem_of_app in Hs2 as [Hs2|Hs2].
      * eapply Qcle_trans; [by apply Hdall|]. apply Qc_max_ge_l.
      * eapply Qcle_trans; [by apply Hoall|]. apply Qc_max_ge_r.
    + destruct (Qc_max_spec ed.2 eo.2) as [[-> _]|[-> _]].
      * rewrite Hdhi. apply (Hin dh). apply elem_of_app. by left.
      * rewrite Hohi. apply (Hin oh). apply elem_of_app. by right.
Qed.

Lemma add_bin_ok c new :
  LALCacheBin_add LALCacheBin_init c (lal.to_segmentlistdict c) = Ok new → bin_ok new.
Proof.
  unfold LALCacheBin_add. intros H. eapply set_extent_ok; [|done]. simpl.
  by apply ior_normal.
Qed.

Lemma iadd_bin_ok dest other b :
  bin_ok dest → LALCacheBin_iadd dest other = Ok b → bin_ok b.
Proof.
  intros Hd H. destruct (LALCacheBin_iadd_ok dest other Hd) as (b' & Hb' & Hok).
  rewrite H in Hb'. by injection Hb' as <-.
Qed.

Lemma pack_keeps_bin_ok self c p :
  Forall bin_ok (bins self) → pack self c = Ok p → Forall bin_ok (bins p).
Proof.
  intros Hok. apply (pack_invariant bin_ok); [apply add_bin_ok| |done|done].
  intros dest other b Hd _. by apply iadd_bin_ok.
Qed.

Lemma foldM_iadd_objects dest0 others dest :
  foldM LALCacheBin_iadd dest0 others = Ok dest →
  objects dest = objects dest0 ++ members others.
Proof.
  revert dest0. induction others as [|o others IH]; intros dest0; simpl.
  - intros [= <-]. unfold members. simpl. by rewrite app_nil_r.
  - intros H. apply bind_Ok in H as (dest1 & Hdest1%LALCacheBin_iadd_objects & H).
    rewrite (IH _ H), Hdest1. unfold members. simpl. by rewrite <-(assoc (++)).
Qed.

Lemma omap_lookup_Forall2 {A} (l : list A) ns xs :
  Forall2 (λ n x, l !! n = Some x) ns xs → omap (λ n, l !! n) ns = xs.
Proof.
  induction 1 as [|n x ns xs Hn _ IH]; [done|].
  cbn [omap list_omap]. rewrite Hn. by f_equal.
Qed.

(** The indices the scan records are those of bins the new entry matches. *)
Lemma scan_bins_hits self k bs new0 new ms bs' new' ms' vs :
  Forall bin_ok bs → tracks new0 (size new) → offset_vectors self = Some vs →
  scan_bins self k bs new ms = Ok (bs', new', ms') →
  ∃ extra, ms' = ms ++ extra ∧
    Forall (λ n, ∃ bin new_size, bs !! n = Some bin ∧ tracks new0 new_size ∧
                 (match_offset_vectors vs new_size (size bin)).2 = true) extra.
Proof.
  intros Hbs. revert new ms. induction k as [|n IH]; intros new ms Hnew Hvs; simpl.
  - intros [= <- <- <-]. exists []. by rewrite app_nil_r.
  - intros H. apply bind_Ok in H as (bin & Hbin%item_Ok & H).
    apply bind_Ok in H as (bin_extent & _ & H).
    apply bind_Ok in H as (new_extent & _ & H).
    apply bind_Ok in H as (gap & _ & H).
    destruct (bail_out bin_extent new_extent gap).
    { injection H as <- <- <-. exists []. by rewrite app_nil_r. }
    rewrite Hvs in H. cbn [mbind result_bind getattr] in H.
    assert (bin_ok bin) as [_ Hnormal].
    { rewrite Forall_forall in Hbs. apply Hbs. by eapply list_elem_of_lookup_2. }
    pose proof (match_offset_vectors_tracks_new vs new0 (size new) (size bin) Hnew) as Hn'.
    pose proof (match_offset_vectors_tracks_bin vs (size bin) (size new) (size bin)
                  (tracks_refl _ Hnormal)) as Hb'.
    destruct (match_offset_vectors vs (size new) (size bin)) as [[new_size bin_size] hit] eqn:Hm.
    simpl in *. rewrite (tracks_clear _ _ Hnormal Hb'), with_size_id in H.
    rewrite (list_insert_id bs n bin Hbin) in H.
    apply IH in H as (extra & -> & Hextra); [|done..].
    exists ((if hit then [n] else []) ++ extra). split.
    + destruct hit; by rewrite <-?(assoc (++)).
    + apply Forall_app. split; [|done]. destruct hit; [|constructor].
      repeat constructor. exists bin, (size new). split_and!; [done..|]. by rewrite Hm.
Qed.

(** The extent of the bin of one entry is the segment of the entry. *)
Lemma add_extent c new :
  LALCacheBin_add LALCacheBin_init c (lal.to_segmentlistdict c) = Ok new →
  ∃ s, lal.segment c = Some s ∧ extent new = Some s ∧ objects new = [c].
Proof.
  intros H. pose proof (LALCacheBin_add_objects _ _ _ _ H) as Hobjs.
  unfold LALCacheBin_add, set_extent in H. apply bind_Ok in H as (e & He & [= <-]).
  simpl in *. apply extent_all_Ok in He as (_ & (s1 & Hs1 & H1) & (s2 & Hs2 & H2)).
  rewrite all_segments_ior_empty in Hs1, Hs2.
  apply elem_of_entry_segments in Hs1, Hs2. rewrite Hs1 in Hs2. injection Hs2 as <-.
  exists s1. split_and!; [done| |done]. f_equal. destruct e, s1. simpl in *. congruence.
Qed.

(** Evaluates [bin_ok] on the bins of an example. *)
Lemma foldM_pack_keeps_bin_ok self cache p :
  Forall bin_ok (bins self) → foldM pack self cache = Ok p → Forall bin_ok (bins p).
Proof.
  revert self. induction cache as [|c cache IH]; intros self Hok; simpl.
  - by intros [= <-].
  - intros H. apply bind_Ok in H as (p1 & Hp1 & H). eapply IH; [|done].
    by eapply pack_keeps_bin_ok.
Qed.

Lemma foldM_pack_invariant (Q : LALCacheBin → Prop) self cache p :
  (∀ c new, LALCacheBin_add LALCacheBin_init c (lal.to_segmentlistdict c) = Ok new → Q new) →
  (∀ dest other b, Q dest → Q other → LALCacheBin_iadd dest other = Ok b → Q b) →
  Forall bin_ok (bins self) → Forall Q (bins self) →
  foldM pack self cache = Ok p → Forall Q (bins p).
Proof.
  intros Hadd Hiadd. revert self. induction cache as [|c cache IH]; intros self Hok HQ; simpl.
  - by intros [= <-].
  - intros H. apply bind_Ok in H as (p1 & Hp1 & H).
    pose proof (pack_invariant Q self c p1 (Hadd c) Hiadd Hok HQ Hp1) as HQ1.
    pose proof (pack_keeps_bin_ok self c p1 Hok Hp1) as Hok1.
    by apply (IH p1).
Qed.

(** The bins of the examples are well formed. *)
Lemma configured_bins vs : bins (examples.configured vs) = [].
Proof.
  unfold examples.configured.
  destruct (set_offset_vectors (CafePacker_init []) vs) as [p0|] eqn:Hp0; [|done].
  by apply set_offset_vectors_configured in Hp0 as [_ ->].
Qed.

Lemma packed_bins_ok vs cache : Forall bin_ok (bins (examples.packed vs cache)).
Proof.
  unfold examples.packed.
  destruct (foldM pack (examples.configured vs) cache) as [p|] eqn:Hp; [|constructor].
  eapply foldM_pack_keeps_bin_ok; [|done]. rewrite configured_bins. constructor.
Qed.

Lemma packed_size_covers vs cache : Forall size_covers (bins (examples.packed vs cache)).
Proof.
  unfold examples.packed.
  destruct (foldM pack (examples.configured vs) cache) as [p|] eqn:Hp; [|constructor].
  eapply (foldM_pack_invariant size_covers _ _ _ add_size_covers iadd_size_covers);
    [| |done]; rewrite configured_bins; constructor.
Qed.

Lemma nth_bin_elem p n : (n < length (bins p))%nat → cases.nth_bin p n ∈ bins p.
Proof.
  intros Hn. unfold cases.nth_bin.
  destruct (lookup_lt_is_Some_2 (bins p) n Hn) as [b Hb]. rewrite Hb. simpl.
  by eapply list_elem_of_lookup_2.
Qed.

Lemma nth_bin_ok p n :
  Forall bin_ok (bins p) → (n < length (bins p))%nat → bin_ok (cases.nth_bin p n).
Proof.
  intros Hok Hn. unfold cases.nth_bin.
  destruct (lookup_lt_is_Some_2 (bins p) n Hn) as [b Hb]. rewrite Hb. simpl.
  rewrite Forall_forall in Hok. apply Hok. by eapply list_elem_of_lookup_2.
Qed.

Lemma bin_of_ok c : all_segments (lal.to_segmentlistdict c) ≠ [] → bin_ok (cases.bin_of c).
Proof.
  intros Hc. unfold cases.bin_of. by destruct (LALCacheBin_add_ok c Hc) as (b & -> & Hb).
Qed.

(** X7.  The inequality of the bail-out excludes a match: in a packer
    configured by [set_offset_vectors], a bin whose extent ends more than
    [max_gap] before the extent of the new bin starts is not coincident with
    it under any of the offset vectors, whatever offsets the scan has left
    applied to the new bin. *)
Theorem bail_out_no_match (self0 : CafePacker) (vs0 : list offset_vector) (self : CafePacker)
    (bin new : LALCacheBin) :
  set_offset_vectors self0 vs0 = Ok self → bin_ok bin → bin_ok new →
  ∃ vs gap bin_extent new_extent,
    offset_vectors self = Some vs ∧ max_gap self = Some gap ∧
    extent bin = Some bin_extent ∧ extent new = Some new_extent ∧
    (bail_out bin_extent new_extent gap = true →
     ∀ new_size, tracks (size new) new_size →
       (match_offset_vectors vs new_size (size bin)).2 = false).
Proof.
  intros Hset Hbin Hnew.
  destruct (set_offset_vectors_configured _ _ _ Hset) as [[[vs Hvs] [gap Hgap]] _].
  destruct Hbin as [(be & Hbe & Hbe') Hbn]. destruct Hnew as [(ne & Hne & Hne') Hnn].
  exists vs, gap, be, ne. split_and!; try done. intros Hbail new_size Htracks.
  eapply (bail_out_excludes_match self0 vs0 self bin new); try done.
  - split; [by exists be|done].
  - split; [by exists ne|done].
Qed.

Lemma bail_out_no_match_witness :
  ∃ vs gap bin_extent new_extent,
    offset_vectors (examples.configured [examples.early]) = Some vs ∧
    max_gap (examples.configured [examples.early]) = Some gap ∧
    extent (cases.nth_bin cases.three 1) = Some bin_extent ∧
    extent (cases.bin_of examples.c4) = Some new_extent ∧
    (bail_out bin_extent new_extent gap = true →
     ∀ new_size, tracks (size (cases.bin_of examples.c4)) new_size →
       (match_offset_vectors vs new_size (size (cases.nth_bin cases.three 1))).2 = false).
Proof.
  apply (bail_out_no_match (CafePacker_init []) [examples.early]).
  - vm_compute. reflexivity.
  - apply nth_bin_ok; [apply packed_bins_ok|vm_compute; lia].
  - apply bin_of_ok. vm_compute. discriminate.
Defined.

(** X8.  [pack] leaves alone every bin that ends more than [max_gap] before
    the new entry starts: in a packer configured by [set_offset_vectors],
    whose bins are well formed, such a bin is among the bins after the call,
    as it was. *)
Theorem pack_keeps_early_bins (self0 : CafePacker) (vs0 : list offset_vector)
    (self : CafePacker) (c : CacheEntry) (p : CafePacker)
    (i : nat) (b : LALCacheBin) (bin_extent s : segment) (gap : Qc) :
  set_offset_vectors self0 vs0 = Ok self → Forall bin_ok (bins self) →
  pack self c = Ok p →
  bins self !! i = Some b → extent b = Some bin_extent → lal.segment c = Some s →
  max_gap self = Some gap → bin_extent.2 < s.1 - gap →
  b ∈ bins p.
Proof.
  intros Hset Hok Hpack Hi Hbe Hs Hgap Hlt.
  destruct (pack_result self c p Hok Hpack) as (new & ms & Hnew & Hms & Hkept & _).
  apply (Hkept i b Hi). intros Hin.
  destruct (set_offset_vectors_configured _ _ _ Hset) as [[[vs Hvs] _] _].
  unfold matching_bins_of in Hms. rewrite Hnew in Hms. cbn [mbind result_bind] in Hms.
  apply bind_Ok in Hms as ([[bs' new'] ms'] & Hscan & [= <-]). simpl in Hin.
  pose proof (add_bin_ok c new Hnew) as Hnew_ok.
  apply (scan_bins_hits _ _ _ (size new) _ _ _ _ _ vs Hok (tracks_refl _ (proj2 Hnew_ok)) Hvs)
    in Hscan as (extra & -> & Hhits).
  simpl in Hin. rewrite Forall_forall in Hhits.
  destruct (Hhits i Hin) as (bin & new_size & Hbin & Htracks & Hhit).
  rewrite Hi in Hbin. injection Hbin as <-.
  destruct (add_extent c new Hnew) as (s' & Hs' & Hne & _).
  rewrite Hs in Hs'. injection Hs' as <-.
  rewrite (bail_out_excludes_match self0 vs0 self b new vs gap bin_extent s new_size) in Hhit;
    try done.
  - rewrite Forall_forall in Hok. apply Hok. by eapply list_elem_of_lookup_2.
  - unfold bail_out. by apply Qc_lt_true.
Qed.

Lemma pack_keeps_early_bins_witness :
  cases.nth_bin cases.three 1 ∈
    bins (examples.packed [examples.early]
            [examples.c1; examples.c2; examples.c3; examples.c4]).
Proof.
  eapply (pack_keeps_early_bins (CafePacker_init (bins cases.three)) [examples.early]
            cases.three examples.c4 _ 1%nat).
  - vm_compute. reflexivity.
  - apply packed_bins_ok.
  - vm_compute. reflexivity.
  - vm_compute. reflexivity.
  - vm_compute. reflexivity.
  - vm_compute. reflexivity.
  - vm_compute. reflexivity.
  - vm_compute. reflexivity.
Defined.

(** X10.  What one [pack] call does to the bins, when they are well formed:
    every bin the new entry does not match is among the bins after the call,
    as it was; and one bin after the call holds the new entry together with
    the members of all the bins it matched, and nothing else. *)
Theorem pack_merges_matching (self : CafePacker) (c : CacheEntry) (p : CafePacker)
    (ms : list nat) :
  Forall bin_ok (bins self) → pack self c = Ok p → matching_bins_of self c = Ok ms →
  (∀ i b, bins self !! i = Some b → i ∉ ms → b ∈ bins p) ∧
  ∃ dest, dest ∈ bins p ∧
    objects dest ≡ₚ c :: members (omap (λ n, bins self !! n) ms).
Proof.
  intros Hok Hpack Hms.
  destruct (pack_result self c p Hok Hpack) as (new & ms' & Hnew & Hms' & Hkept & H).
  rewrite Hms in Hms'. injection Hms' as <-. split; [done|].
  destruct (add_extent c new Hnew) as (_ & _ & _ & Hobjs).
  destruct (last ms) as [d|] eqn:Hlast.
  - destruct H as (dest0 & dest & others & rest & Hd0 & Hothers & Hfold & _ & Hperm).
    apply last_Some in Hlast as [ns ->]. rewrite removelast_last in Hothers.
    exists dest. split; [rewrite Hperm; by left|].
    rewrite omap_app. cbn [omap list_omap]. rewrite Hd0.
    rewrite (omap_lookup_Forall2 _ _ _ Hothers).
    rewrite (foldM_iadd_objects _ _ _ Hfold), members_app. unfold members. simpl.
    rewrite Hobjs, app_nil_r. simpl.
    etrans; [symmetry; apply Permutation_middle|]. apply perm_skip.
    apply Permutation_app_comm.
  - apply last_None in Hlast as ->. exists new. split; [rewrite H; by left|].
    by rewrite Hobjs.
Qed.

Lemma pack_merges_matching_witness :
  ∃ dest,
    dest ∈ bins (examples.packed [examples.early]
                   [examples.c1; examples.c2; examples.c3; cases.both]) ∧
    objects dest ≡ₚ cases.both :: members (omap (λ n, bins cases.three !! n) [1; 0]%nat).
Proof.
  apply (pack_merges_matching cases.three cases.both).
  - apply packed_bins_ok.
  - vm_compute. reflexivity.
  - vm_compute. reflexivity.
Defined.

(** X11.  [pack] puts back the offsets it applies: when the extent of every
    bin is that of its [size] and every [size] is at offset 0 before the
    call, so it is after the call, for the bins it merged and for
    the others. *)
Theorem pack_restores_offsets (self : CafePacker) (c : CacheEntry) (p : CafePacker) :
  Forall bin_ok (bins self) → pack self c = Ok p →
  Forall bin_ok (bins p) ∧
  Forall (λ b, ∃ e, extent b = Some e ∧ extent_all (size b) = Ok e) (bins p) ∧
  Forall (λ b, ∀ k l, lists (size b) !! k = Some l → offsets (size b) !! k = Some 0) (bins p).
Proof.
  intros Hok Hpack. pose proof (pack_keeps_bin_ok self c p Hok Hpack) as Hp.
  split_and!; [done| |].
  - eapply Forall_impl; [exact Hp|]. by intros b [? _].
  - eapply Forall_impl; [exact Hp|]. intros b [_ Hn] k l Hk.
    unfold normal in Hn. by rewrite Hn, lookup_fmap, Hk.
Qed.

Lemma pack_restores_offsets_witness :
  Forall bin_ok
    (bins (examples.packed [examples.early]
             [examples.c1; examples.c2; examples.c3; cases.both])).
Proof.
  apply (pack_restores_offsets cases.three cases.both).
  - apply packed_bins_ok.
  - vm_compute. reflexivity.
Defined.

(** X12.  [pack] makes no empty bin: when every bin has a member before the
    call, every bin has one after it, so there are never more bins than
    members. *)
Theorem pack_no_empty_bin (self : CafePacker) (c : CacheEntry) (p : CafePacker) :
  Forall bin_ok (bins self) → Forall (λ b, objects b ≠ []) (bins self) →
  pack self c = Ok p →
  Forall (λ b, objects b ≠ []) (bins p) ∧
  (length (bins p) ≤ length (members (bins p)))%nat.
Proof.
  intros Hok Hne Hpack.
  assert (Forall (λ b, objects b ≠ []) (bins p)) as Hp.
  { by apply (pack_invariant (λ b, objects b ≠ []) self c p (add_nonempty c) iadd_nonempty). }
  split; [done|]. clear -Hp. unfold members.
  induction Hp as [|b bs Hb _ IH]; [done|].
  rewrite bind_cons, length_app. destruct (objects b); [done|]. simpl. lia.
Qed.

Lemma pack_no_empty_bin_witness :
  Forall (λ b, objects b ≠ [])
    (bins (examples.packed [examples.early]
             [examples.c1; examples.c2; examples.c3; cases.both])).
Proof.
  apply (pack_no_empty_bin cases.three cases.both).
  - apply packed_bins_ok.
  - match goal with
    | |- Forall _ ?l =>
        let l' := eval vm_compute in l in replace l with l' by (vm_compute; reflexivity)
    end.
    repeat (apply Forall_cons_2; [vm_compute; discriminate|]). apply Forall_nil_2.
  - vm_compute. reflexivity.
Defined.


(** X13.  The extent of a bin spans its members.  When every [size] is made
    of the segments of the bin's members before a [pack] call, so it is
    after the call, and the extent of every bin is then the tightest segment
    around the segments of its members: every member's segment lies within
    it, some member starts where it starts and some member ends where it
    ends. *)
Theorem pack_extent_spans (self : CafePacker) (c : CacheEntry) (p : CafePacker) :
  Forall bin_ok (bins self) → Forall size_covers (bins self) → pack self c = Ok p →
  Forall size_covers (bins p) ∧ Forall spans (bins p).
Proof.
  intros Hok Hcov Hpack.
  assert (Forall size_covers (bins p)) as Hp.
  { by apply (pack_invariant size_covers self c p (add_size_covers c) iadd_size_covers). }
  split; [done|]. pose proof (pack_keeps_bin_ok self c p Hok Hpack) as Hok'.
  rewrite Forall_forall in Hp, Hok' |- *. intros b Hb.
  apply size_covers_spans; [by destruct (Hok' b Hb)|by apply Hp].
Qed.

Lemma pack_extent_spans_witness :
  Forall spans
    (bins (examples.packed [examples.early] [examples.c1; examples.c2; examples.c3])).
Proof.
  apply (pack_extent_spans (examples.packed [examples.early] [examples.c1; examples.c2])
           examples.c3);
    [apply packed_bins_ok| |vm_compute; reflexivity].
  apply (pack_extent_spans (examples.packed [examples.early] [examples.c1]) examples.c2);
    [apply packed_bins_ok| |vm_compute; reflexivity].
  apply (pack_extent_spans (examples.configured [examples.early]) examples.c1);
    [rewrite configured_bins; constructor..|vm_compute; reflexivity].
Defined.

(** X6.  The outcomes of [pack].  An entry that brings no segment makes it
    raise [ValueError], whatever the packer.  An entry that brings one is
    put in a bin of its own when there are no bins, configured or not; makes
    [pack] raise [AttributeError] when there are bins and
    [set_offset_vectors] has not run; and is packed when it has and the bins
    are well formed. *)
Theorem pack_outcomes (self : CafePacker) (c : CacheEntry) :
  (all_segments (lal.to_segmentlistdict c) = [] → pack self c = Raise ValueError) ∧
  (all_segments (lal.to_segmentlistdict c) ≠ [] →
   (bins self = [] →
    ∃ new, pack self c = Ok {| bins := [new];
                               offset_vectors := offset_vectors self;
                               max_gap := max_gap self |} ∧
           objects new = [c] ∧ extent new = lal.segment c) ∧
   (max_gap self = None → (∃ b, last (bins self) = Some b ∧ is_Some (extent b)) →
    pack self c = Raise AttributeError) ∧
   (is_configured self → Forall bin_ok (bins self) → ∃ p, pack self c = Ok p)).
Proof.
  split.
  - intros Hc. unfold pack, LALCacheBin_add, set_extent, extent_all. simpl.
    by rewrite all_segments_ior_empty, Hc.
  - intros Hc. destruct (LALCacheBin_add_ok c Hc) as (new & Hnew & [Hcons Hnormal]).
    destruct (add_extent c new Hnew) as (s & Hs & Hext & Hobjs). split_and!.
    + intros Hbins. exists new. split; [|by rewrite Hs]. unfold pack.
      rewrite Hnew, Hbins. cbn [mbind result_bind length scan_bins last].
      by rewrite (tracks_clear _ _ Hnormal (tracks_refl _ Hnormal)), with_size_id.
    + intros Hgap (b & Hlast & [e He]). unfold pack. rewrite Hnew. cbn [mbind result_bind].
      apply last_Some in Hlast as [bs Hbs]. rewrite Hbs, length_app. simpl.
      rewrite Nat.add_1_r. cbn [scan_bins]. unfold item.
      rewrite lookup_app_r by done. rewrite Nat.sub_diag. simpl.
      by rewrite He, Hext, Hgap.
    + intros Hconf Hok. destruct (pack_ok self c Hconf Hok Hc) as (p & Hp & _). by exists p.
Qed.

Lemma pack_outcomes_witness :
  pack (examples.configured [examples.early]) cases.timeless = Raise ValueError ∧
  pack (CafePacker_init (bins cases.three)) examples.c4 = Raise AttributeError.
Proof.
  split.
  - apply (pack_outcomes (examples.configured [examples.early]) cases.timeless).
    vm_compute. reflexivity.
  - apply (pack_outcomes (CafePacker_init (bins cases.three)) examples.c4).
    + vm_compute. discriminate.
    + reflexivity.
    + eexists. split; [vm_compute; reflexivity|]. by eexists.
Defined.

(** X4.  [+=] on bins.  When the extent of each of two bins is that of its
    [size], [dest += other] returns; the members of the result are those of
    [dest] followed by those of [other], and its extent reaches from the
    earlier of the two starts to the later of the two ends. *)
Theorem LALCacheBin_iadd_extent (dest other : LALCacheBin) :
  bin_consistent dest → bin_consistent other →
  ∃ b ed eo,
    extent dest = Some ed ∧ extent other = Some eo ∧
    LALCacheBin_iadd dest other = Ok b ∧
    objects b = objects dest ++ objects other ∧
    extent b = Some (Qc_min ed.1 eo.1, Qc_max ed.2 eo.2) ∧
    bin_consistent b.
Proof.
  intros (ed & Hed & Hd) (eo & Heo & Ho).
  destruct (iadd_extent dest other ed eo Hd Ho) as (b & Hb & Hobjs & Hext).
  exists b, ed, eo. split_and!; try done.
  unfold LALCacheBin_iadd, set_extent in Hb. apply bind_Ok in Hb as (e & He & [= <-]).
  by exists e.
Qed.

Lemma LALCacheBin_iadd_extent_witness :
  ∃ b ed eo,
    extent (cases.nth_bin cases.three 0) = Some ed ∧
    extent (cases.nth_bin cases.three 1) = Some eo ∧
    LALCacheBin_iadd (cases.nth_bin cases.three 0) (cases.nth_bin cases.three 1) = Ok b ∧
    objects b = objects (cases.nth_bin cases.three 0) ++ objects (cases.nth_bin cases.three 1) ∧
    extent b = Some (Qc_min ed.1 eo.1, Qc_max ed.2 eo.2) ∧
    bin_consistent b.
Proof.
  apply (LALCacheBin_iadd_extent (cases.nth_bin cases.three 0) (cases.nth_bin cases.three 1)).
  - apply nth_bin_ok; [apply packed_bins_ok|vm_compute; lia].
  - apply nth_bin_ok; [apply packed_bins_ok|vm_compute; lia].
Defined.

(** ** Limits that split nothing *)

Lemma split_list_id cafepacker limit bs :
  Forall (λ b, split_one cafepacker limit b = Ok [b]) bs →
  split_list cafepacker limit bs = Ok bs.
Proof.
  induction 1 as [|b bs Hb _ IH]; simpl; [done|]. by rewrite Hb, IH.
Qed.

Lemma split_bins_id cafepacker limit :
  Forall (λ b, split_one cafepacker limit b = Ok [b]) (bins cafepacker) →
  split_bins cafepacker limit = Ok cafepacker.
Proof.
  intros H. rewrite split_bins_spec, (split_list_id _ _ _ H). by destruct cafepacker.
Qed.

Lemma split_one_within cafepacker limit b :
  0 < limit → within_limit limit b → split_one cafepacker limit b = Ok [b].
Proof.
  intros Hlimit (e & He & Hle). unfold split_one, split_count. rewrite He.
  cbn [mbind result_bind subscript]. rewrite decide_False by by apply Qc_pos_ne.
  cbn [mbind result_bind]. rewrite decide_True; [done|]. by apply count_le_1.
Qed.

(** With a negative limit the count is not positive. *)
Lemma count_negative (d L : Qc) : L < 0 → 0 ≤ d → (Qceiling (d / L) ≤ 0)%Z.
Proof.
  intros HL Hd.
  assert (d / L ≤ 0) as Hle.
  { assert (0 < - L) as HL' by (revert HL; clear; intros; Qc_linear).
    apply (Qcmult_lt_0_le_reg_r _ _ (- L)); [done|].
    assert (L ≠ 0) as HL0 by (intros ->; by apply (Qclt_not_eq 0 0)).
    replace (d / L * - L) with (- d) by (by field). rewrite Qcmult_0_l.
    revert Hd. clear. intros. Qc_linear. }
  rewrite <-(Qceiling_Z 0). apply Qceiling_resp_le.
  unfold Qcle in Hle. simpl in Hle. by rewrite !Qred_correct in Hle.
Qed.

(** X14.  A limit that every bin is within splits nothing: with a limit
    [L > 0], [split_bins] returns the packer as it is, bins and
    configuration, when the extent of every bin is no longer than [L]. *)
Theorem split_bins_fixed_point (cafepacker : CafePacker) (limit : Qc) :
  0 < limit →
  Forall (within_limit limit) (bins cafepacker) →
  split_bins cafepacker limit = Ok cafepacker.
Proof.
  intros Hlimit Hwithin. apply split_bins_id.
  eapply Forall_impl; [exact Hwithin|].
  intros b Hb. by apply split_one_within.
Qed.

Lemma split_bins_fixed_point_witness :
  split_bins cases.three (examples.t 1000) = Ok cases.three.
Proof.
  apply (split_bins_fixed_point cases.three (examples.t 1000)); [reflexivity|].
  match goal with
  | |- Forall _ ?l =>
      let l' := eval vm_compute in l in replace l with l' by (vm_compute; reflexivity)
  end.
  repeat (apply Forall_cons_2;
          [eexists; split; [vm_compute; reflexivity|vm_compute; discriminate]|]).
  apply Forall_nil_2.
Defined.



(** ** The pieces of a bin are in time order *)

Lemma clip_segment_bounds lo hi s s' :
  clip_segment lo hi s = Some s' →
  s'.1 < s'.2 ∧ s.1 ≤ s'.1 ∧ s'.2 ≤ s.2 ∧
  (∀ t, lo = Finite t → t ≤ s'.1) ∧ (∀ t, hi = Finite t → s'.2 ≤ t).
Proof.
  unfold clip_segment. intros H.
  assert (∀ t, s.1 ≤ Qc_max s.1 t ∧ t ≤ Qc_max s.1 t) as Hmax.
  { intros t. split; [apply Qc_max_ge_l|apply Qc_max_ge_r]. }
  assert (∀ t, Qc_min s.2 t ≤ s.2 ∧ Qc_min s.2 t ≤ t) as Hmin.
  { intros t. destruct (Qc_min_spec s.2 t) as [[-> ?]|[-> ?]]; split; try done; apply Qcle_refl. }
  destruct lo as [|tl|], hi as [|th|]; try done; simpl in *;
    match type of H with (if ?c then _ else _) = _ => destruct c eqn:Hlt; [|done] end;
    injection H as <-; simpl; apply Qc_lt_true in Hlt;
    (split_and!; [done|try apply Qcle_refl; try apply Hmax; try apply Hmin..| |]);
    intros t [= <-] || intros t [=]; try apply Hmax; try apply Hmin.
Qed.

(** The extent of a piece is in order, lies within the extent of the bin it
    was cut from, and within the finite ends of its clipping segment. *)
Lemma piece_bounds cafepacker origbin e0 split b :
  extent_all (size origbin) = Ok e0 → is_piece cafepacker origbin split b →
  ∃ e, extent b = Some e ∧ e.1 ≤ e.2 ∧ within e e0 ∧
       (∀ t, split.1 = Finite t → t ≤ e.1) ∧ (∀ t, split.2 = Finite t → e.2 ≤ t).
Proof.
  intros He0 (e & gap & Hsize & He & Hext & _). exists e. split; [done|].
  apply extent_all_Ok in He0 as (Hall & _ & _).
  apply extent_all_Ok in He as (Hin & (s1 & Hs1 & Hlo) & (s2 & Hs2 & Hhi)).
  destruct (Hin s1 Hs1) as [_ H12].
  rewrite Hsize in Hs1, Hs2.
  apply all_segments_clipped in Hs1 as (t1 & Ht1 & Hclip1).
  apply all_segments_clipped in Hs2 as (t2 & Ht2 & Hclip2).
  destruct (Hall t1 Ht1) as [Ht1lo _]. destruct (Hall t2 Ht2) as [_ Ht2hi].
  apply clip_segment_bounds in Hclip1 as (Hlt1 & Hge1 & _ & Hlo1 & _).
  apply clip_segment_bounds in Hclip2 as (_ & _ & Hle2 & _ & Hhi2).
  split_and!.
  - rewrite Hlo. eapply Qcle_trans; [|exact H12]. by apply Qclt_le_weak.
  - split; simpl.
    + rewrite Hlo. exact (Qcle_trans _ _ _ Ht1lo Hge1).
    + rewrite Hhi. exact (Qcle_trans _ _ _ Hle2 Ht2hi).
  - intros t Ht. rewrite Hlo. by apply Hlo1.
  - intros t Ht. rewrite Hhi. by apply Hhi2.
Qed.

Global Instance before_trans : Transitive before.
Proof.
  intros a b c (ea & eb & Ha & Hb & ? & ? & ?) (eb' & ec & Hb' & Hc & ? & ? & ?).
  rewrite Hb in Hb'. injection Hb' as <-. exists ea, ec. split_and!; try done.
  eapply Qcle_trans; [done|]. by eapply Qcle_trans.
Qed.

Lemma pieces_sorted cafepacker origbin e0 lo cuts ps :
  extent_all (size origbin) = Ok e0 →
  Forall2 (is_piece cafepacker origbin) (pairs_from lo cuts) ps →
  Sorted before ps ∧
  ∀ t, lo = Finite t → ∃ b e, head ps = Some b ∧ extent b = Some e ∧ t ≤ e.1.
Proof.
  intros He0. revert lo ps. induction cuts as [|c cuts IH]; intros lo ps.
  - rewrite pairs_from_nil. intros H. inversion H as [|? b ? ps' Hb Hps']; subst.
    inversion Hps'; subst. split; [by repeat constructor|].
    intros t ->. destruct (piece_bounds _ _ _ _ _ He0 Hb) as (e & He & _ & _ & Hlo & _).
    exists b, e. split_and!; [done..|]. by apply Hlo.
  - rewrite pairs_from_cons. intros H. inversion H as [|? b ? ps' Hb Hps']; subst.
    destruct (IH _ _ Hps') as [Hsorted Hhead].
    destruct (piece_bounds _ _ _ _ _ He0 Hb) as (e & He & Hord & _ & Hlo & Hhi).
    split.
    + constructor; [done|]. destruct (Hhead c eq_refl) as (b' & e' & Hb' & He' & Hc).
      destruct ps' as [|b'' ps'']; [done|]. injection Hb' as ->. constructor.
      inversion Hps' as [|? ? ? ? Hb'' _]; subst.
      destruct (piece_bounds _ _ _ _ _ He0 Hb'') as (e'' & He'' & Hord'' & _).
      rewrite He' in He''. injection He'' as <-.
      exists e, e'. split_and!; try done. eapply Qcle_trans; [|exact Hc]. by apply Hhi.
    + intros t ->. exists b, e. split_and!; [done..|]. by apply Hlo.
Qed.

(** X16.  The pieces of a split bin are in time order and do not overlap:
    with a limit [L > 0] and bins whose extent is that of their [size],
    [split_bins] puts in the place of every bin a list of bins whose extents
    all lie within the extent of that bin and each of which ends before the
    next one starts. *)
Theorem split_bins_pieces_ordered (cafepacker : CafePacker) (limit : Qc) (p : CafePacker) :
  0 < limit → Forall bin_consistent (bins cafepacker) →
  split_bins cafepacker limit = Ok p →
  ∃ pieces, bins p = mjoin pieces ∧
    Forall2 (λ origbin ps,
               StronglySorted before ps ∧
               Forall (λ b, ∃ e e0, extent b = Some e ∧ extent origbin = Some e0 ∧
                                    within e e0) ps)
            (bins cafepacker) pieces.
Proof.
  intros Hlimit Hcons Hsplit.
  apply split_bins_pieces in Hsplit as (pieces & -> & HF). exists pieces. split; [done|].
  revert Hcons. induction HF as [|origbin ps bs pieces Hps _ IH]; intros Hcons; [constructor|].
  apply Forall_cons in Hcons as [(e0 & He0 & Hsize) Hcons]. constructor; [|by apply IH].
  unfold split_one, split_count in Hps. rewrite He0 in Hps.
  cbn -[segment_abs Qdiv Qceiling] in Hps. rewrite decide_False in Hps by by apply Qc_pos_ne.
  cbn -[segment_abs Qdiv Qceiling] in Hps.
  pose proof (count_le_1 (segment_abs e0) limit Hlimit) as Hcount.
  remember (Qceiling (segment_abs e0 / limit)) as n eqn:Hn.
  case_decide as Hle.
  - injection Hps as <-. split; [repeat constructor|].
    repeat constructor. exists e0, e0. split_and!; [done..|apply within_refl].
  - assert (¬ segment_abs e0 ≤ limit) as Hd by by rewrite <-Hcount.
    assert (0 ≤ segment_abs e0) as Hd0.
    { apply Qcnot_le_lt in Hd. apply Qclt_le_weak. by eapply Qclt_trans. }
    apply split_bin_spec in Hps as (e0' & He0' & Hpieces).
    rewrite He0 in He0'. injection He0' as <-.
    destruct (split_segments_spec e0 n) as (Heq & _ & _); [lia|done|].
    rewrite Heq in Hpieces. split.
    + apply (Sorted_StronglySorted before). by eapply pieces_sorted.
    + eapply Forall2_Forall_r; [exact Hpieces|]. apply Forall_forall.
      intros split _ b Hb. destruct (piece_bounds _ _ _ _ _ Hsize Hb) as (e & He & _ & Hw & _).
      by exists e, e0.
Qed.

Lemma split_bins_pieces_ordered_witness :
  ∃ pieces,
    bins (examples.split (examples.packed [examples.zero_lag] [examples.b1; examples.b2])
                         (examples.t 50)) = mjoin pieces ∧
    Forall2 (λ origbin ps,
               StronglySorted before ps ∧
               Forall (λ b, ∃ e e0, extent b = Some e ∧ extent origbin = Some e0 ∧
                                    within e e0) ps)
            (bins (examples.packed [examples.zero_lag] [examples.b1; examples.b2])) pieces.
Proof.
  apply (split_bins_pieces_ordered
           (examples.packed [examples.zero_lag] [examples.b1; examples.b2]) (examples.t 50)).
  - reflexivity.
  - eapply Forall_impl; [apply packed_bins_ok|]. by intros b [? _].
  - vm_compute. reflexivity.
Defined.

(** ** The outcomes of the driver *)

Lemma set_offset_vectors_Raise self vs :
  vs = [] ∨ ∅ ∈ vs → set_offset_vectors self vs = Raise ValueError.
Proof.
  intros Hvs. pose proof (set_offset_vectors_outcome self vs) as H.
  destruct (set_offset_vectors self vs) as [p|e] eqn:Hp; [|by destruct H as [-> _]].
  exfalso. unfold set_offset_vectors in Hp.
  apply bind_Ok in Hp as (mins & Hmins%mapM_result_Ok & Hp).
  apply bind_Ok in Hp as (lo & Hlo & _).
  destruct Hvs as [->|Hin].
  - inversion Hmins; subst. done.
  - apply list_elem_of_lookup in Hin as [i Hi].
    by destruct (Forall2_lookup_l _ _ _ _ _ Hmins Hi) as (x & _ & Hx).
Qed.

(** In a configured packer whose bins are well formed and whose members
    have segments, [split_bins] raises for an empty piece or a zero limit
    only. *)
Lemma split_bins_Raise_ok cafepacker limit e :
  is_configured cafepacker → Forall bin_ok (bins cafepacker) →
  Forall (λ c, is_Some (lal.segment c)) (members (bins cafepacker)) →
  split_bins cafepacker limit = Raise e →
  e = ValueError ∨ (e = ZeroDivisionError ∧ limit = 0).
Proof.
  intros Hconf Hok Hsegs. rewrite split_bins_spec.
  intros [H|(bs & _ & H)]%bind_Raise; [|done].
  unfold members in Hsegs.
  induction Hok as [|b bs [(e0 & He0 & _) _] _ IH]; simpl in H; [done|].
  rewrite bind_cons in Hsegs. apply Forall_app in Hsegs as [Hb Hsegs].
  apply bind_Raise in H as [H|(ps & _ & H)].
  - unfold split_one, split_count in H. rewrite He0 in H. cbn [mbind result_bind subscript] in H.
    case_decide as Hlimit; [injection H as <-; by right|]. cbn [mbind result_bind] in H.
    case_decide; [done|]. unfold split_bin in H. rewrite He0 in H.
    cbn [mbind result_bind subscript] in H.
    apply bind_Raise in H as [H|(newbins & Hnewbins & H)].
    + apply mapM_result_Raise in H as (split & _ & H). unfold new_split_bin in H.
      apply bind_Raise in H as [H|(? & _ & H)]; [|done].
      apply extent_all_Raise in H. by left.
    + exfalso. apply mapM_result_Raise in H as (newbin & Hin & H).
      apply mapM_result_Ok in Hnewbins.
      apply list_elem_of_lookup in Hin as [i Hi].
      destruct (Forall2_lookup_r _ _ _ _ _ Hnewbins Hi) as (split & _ & Hnew).
      unfold new_split_bin in Hnew. apply bind_Ok in Hnew as (e' & _ & [= <-]).
      unfold populate_bin in H. cbn [extent objects mbind result_bind getattr] in H.
      destruct Hconf as [Hvs [gap Hgap]]. rewrite Hgap in H. cbn [mbind result_bind getattr] in H.
      destruct (collect_objects_total cafepacker e' (segment_protract e' gap) (objects b))
        as [objs Hobjs]; [by split; [|exists gap]|done|].
      by rewrite Hobjs in H.
  - apply bind_Raise in H as [H|(rest & _ & H)]; [by apply IH|done].
Qed.

Lemma filter_cache_segments seglists cache :
  Forall (λ c, is_Some (lal.segment c)) (filter_cache seglists cache).
Proof.
  apply Forall_forall. intros c [Hc _]%list_elem_of_filter.
  apply intersects_all_nonempty in Hc.
  destruct (all_segments (lal.to_segmentlistdict c)) as [|s ss] eqn:Hs; [done|].
  exists s. apply elem_of_entry_segments. rewrite Hs. by left.
Qed.



(** ** What the driver returns *)

Lemma pack_bins_sorted self c p : pack self c = Ok p → bins_sorted (bins p).
Proof.
  unfold pack. intros H.
  apply bind_Ok in H as (new & _ & H). apply bind_Ok in H as ([[bs new'] ms] & _ & H).
  apply bind_Ok in H as (bs' & _ & [= <-]). apply py_sort_bins_sorted.
Qed.

Lemma foldM_pack_bins_sorted self cache p :
  bins_sorted (bins self) → foldM pack self cache = Ok p → bins_sorted (bins p).
Proof.
  revert self. induction cache as [|c cache IH]; intros self Hsorted; simpl.
  - by intros [= <-].
  - intros H. apply bind_Ok in H as (p1 & Hp1 & H). eapply IH; [|done].
    by eapply pack_bins_sorted.
Qed.

(** X22.  An empty cache.  With offset vectors fit for configuring,
    [ligolw_cafe] returns no bin for an empty cache, and a coverage without
    segments, whatever the limit, zero included. *)
Theorem ligolw_cafe_empty_cache (vs : list offset_vector) (extentlimit : option Qc) :
  vs ≠ [] → ∅ ∉ vs →
  ∃ seglists, ligolw_cafe [] vs extentlimit = Ok (seglists, []) ∧
              all_segments seglists = [].
Proof.
  intros Hne Hempty.
  destruct (set_offset_vectors_total (CafePacker_init []) vs Hne) as [p0 Hp0].
  { apply Forall_forall. by intros v Hv ->. }
  unfold ligolw_cafe, coincident_seglists, epoch_of.
  change (cache_to_seglistdict []) with empty_dict.
  change (all_segments empty_dict) with (@nil segment).
  unfold segmentlistdict_normalize. rewrite decide_True by done. cbn [mbind result_bind].
  unfold segmentlistdict_unnormalize.
  apply set_offset_vectors_configured in Hp0 as Hbins. destruct Hbins as [_ Hbins].
  eexists. split; [|by apply (get_coincident_segmentlistdict_empty empty_dict)].
  rewrite decide_True by by apply get_coincident_segmentlistdict_empty.
  cbn [mbind result_bind].
  unfold filter_cache. rewrite filter_nil. cbn [py_sort foldr].
  rewrite Hp0. cbn [mbind result_bind foldM].
  assert (match extentlimit with
          | Some limit => split_bins p0 limit
          | None => Ok p0
          end = Ok p0) as ->.
  { destruct extentlimit as [limit|]; [|done]. apply split_bins_id. rewrite Hbins. constructor. }
  cbn [mbind result_bind]. by rewrite Hbins.
Qed.

Lemma ligolw_cafe_empty_cache_witness :
  ∃ seglists, ligolw_cafe [] [examples.early] (Some 0) = Ok (seglists, []) ∧
              all_segments seglists = [].
Proof.
  apply (ligolw_cafe_empty_cache [examples.early] (Some 0)); [done|].
  intros Hin%list_elem_of_singleton.
  apply (f_equal (λ v : offset_vector, v !! "X"%string)) in Hin. vm_compute in Hin.
  discriminate.
Defined.

(** X23.  The order of the bins [ligolw_cafe] returns.  When no limit is
    given, the bins are in ascending order of extent: by start, and by end
    among bins that start together. *)
Theorem ligolw_cafe_output_order (cache : list CacheEntry) (vs : list offset_vector)
    (seglists : segmentlistdict) (outbins : list LALCacheBin) :
  ligolw_cafe cache vs None = Ok (seglists, outbins) →
  bins_sorted outbins.
Proof.
  intros H. apply ligolw_cafe_Ok in H as (p0 & p1 & p2 & _ & Hp0 & Hp1 & Hp2 & ->).
  injection Hp2 as <-.
  apply (StronglySorted_fmap sort_objects
           (λ a b, extent_le (extent a) (extent b))); [done|].
  eapply foldM_pack_bins_sorted; [|done].
  apply set_offset_vectors_configured in Hp0 as [_ ->]. constructor.
Qed.

Lemma ligolw_cafe_output_order_witness :
  bins_sorted (examples.run examples.cache [examples.early] None).2.
Proof.
  apply (ligolw_cafe_output_order examples.cache [examples.early]
           (examples.run examples.cache [examples.early] None).1
           (examples.run examples.cache [examples.early] None).2).
  vm_compute. reflexivity.
Defined.

Lemma within_limit_sort_objects limit b :
  within_limit limit (sort_objects b) ↔ within_limit limit b.
Proof. done. Qed.

(** X24.  A limit that splits nothing changes nothing: when [ligolw_cafe]
    without a limit returns bins that are all within [L > 0], it returns the
    same coverage and the same bins with the limit [L]. *)
Theorem ligolw_cafe_large_limit (cache : list CacheEntry) (vs : list offset_vector)
    (limit : Qc) (seglists : segmentlistdict) (outbins : list LALCacheBin) :
  0 < limit →
  ligolw_cafe cache vs None = Ok (seglists, outbins) →
  Forall (within_limit limit) outbins →
  ligolw_cafe cache vs (Some limit) = Ok (seglists, outbins).
Proof.
  intros Hlimit H Hwithin.
  apply ligolw_cafe_Ok in H as (p0 & p1 & p2 & Hseg & Hp0 & Hp1 & [= <-] & ->).
  unfold ligolw_cafe. rewrite Hseg. cbn [mbind result_bind].
  rewrite Hp0. cbn [mbind result_bind]. rewrite Hp1. cbn [mbind result_bind].
  assert (split_bins p1 limit = Ok p1) as ->; [|done].
  apply split_bins_id. rewrite Forall_fmap in Hwithin.
  eapply Forall_impl; [exact Hwithin|]. intros b Hb. by apply split_one_within.
Qed.

Lemma ligolw_cafe_large_limit_witness :
  ligolw_cafe examples.cache [examples.early] (Some (examples.t 1000)) =
  Ok (examples.run examples.cache [examples.early] None).
Proof.
  rewrite (surjective_pairing (examples.run examples.cache [examples.early] None)).
  apply (ligolw_cafe_large_limit examples.cache [examples.early] (examples.t 1000)).
  - reflexivity.
  - vm_compute. reflexivity.
  - match goal with
    | |- Forall _ ?l =>
        let l' := eval vm_compute in l in replace l with l' by (vm_compute; reflexivity)
    end.
    repeat (apply Forall_cons_2;
            [eexists; split; [vm_compute; reflexivity|vm_compute; discriminate]|]).
    apply Forall_nil_2.
Defined.

Lemma spans_sort_objects b : spans b → spans (sort_objects b).
Proof.
  intros (e & He & Hall & (c1 & s1 & Hc1 & H1) & (c2 & s2 & Hc2 & H2)).
  exists e. split; [done|]. simpl. split_and!.
  - intros c Hc%py_sort_elem_of. by apply Hall.
  - exists c1, s1. by rewrite py_sort_elem_of.
  - exists c2, s2. by rewrite py_sort_elem_of.
Qed.

(** X25.  The bins [ligolw_cafe] returns when no limit is given: every bin
    has a member, so there are no more bins than entries that passed the
    filter; and the extent of every bin is the tightest segment around the
    segments of its members. *)
Theorem ligolw_cafe_bins (cache : list CacheEntry) (vs : list offset_vector)
    (seglists : segmentlistdict) (outbins : list LALCacheBin) :
  ligolw_cafe cache vs None = Ok (seglists, outbins) →
  Forall (λ b, objects b ≠ []) outbins ∧
  (length outbins ≤ length (filter_cache seglists cache))%nat ∧
  Forall spans outbins.
Proof.
  intros H. apply ligolw_cafe_Ok in H as (p0 & p1 & p2 & _ & Hp0 & Hp1 & [= <-] & ->).
  apply set_offset_vectors_configured in Hp0 as [Hconf Hbins].
  assert (Forall bin_ok (bins p0)) as Hok0 by (rewrite Hbins; constructor).
  assert (Forall (λ b, objects b ≠ []) (bins p1)) as Hne.
  { eapply (foldM_pack_invariant (λ b, objects b ≠ []) p0 _ p1 add_nonempty iadd_nonempty);
      try done; rewrite Hbins; constructor. }
  assert (Forall size_covers (bins p1)) as Hcov.
  { eapply (foldM_pack_invariant size_covers p0 _ p1 add_size_covers iadd_size_covers);
      try done; rewrite Hbins; constructor. }
  pose proof (foldM_pack_keeps_bin_ok _ _ _ Hok0 Hp1) as Hok1.
  split_and!.
  - apply Forall_fmap. eapply Forall_impl; [exact Hne|]. intros b Hb. simpl.
    intros Hnil. apply Hb. apply (f_equal length) in Hnil.
    rewrite py_sort_length in Hnil. by destruct (objects b).
  - rewrite length_fmap.
    assert (length (members (bins p1)) = length (filter_cache seglists cache)) as <-.
    { rewrite (foldM_pack_members _ _ _ Hp1), Hbins. simpl. by rewrite py_sort_length. }
    clear -Hne. unfold members. induction Hne as [|b bs Hb _ IH]; [done|].
    rewrite bind_cons, length_app. destruct (objects b); [done|]. simpl. lia.
  - apply Forall_fmap. rewrite Forall_forall in Hcov, Hok1 |- *. intros b Hb.
    apply spans_sort_objects, size_covers_spans; [by destruct (Hok1 b Hb)|by apply Hcov].
Qed.

Lemma ligolw_cafe_bins_witness :
  Forall spans (examples.run examples.cache [examples.early] None).2.
Proof.
  apply (ligolw_cafe_bins examples.cache [examples.early]
           (examples.run examples.cache [examples.early] None).1
           (examples.run examples.cache [examples.early] None).2).
  vm_compute. reflexivity.
Defined.

(** ** Configuring twice *)

(** [set_offset_vectors] reads nothing of the packer but its bins. *)
Lemma set_offset_vectors_bins self self' vs :
  set_offset_vectors self' vs =
  p ← set_offset_vectors self vs;
  Ok {| bins := bins self'; offset_vectors := offset_vectors p; max_gap := max_gap p |}.
Proof.
  unfold set_offset_vectors.
  destruct (mapM_result (λ v : offset_vector, py_min (values v)) vs) as [mins|]; simpl; [|done].
  destruct (py_min mins) as [lo|]; simpl; [|done].
  destruct (mapM_result (λ v : offset_vector, py_max (values v)) vs) as [maxs|]; simpl; [|done].
  destruct (py_max maxs) as [hi|]; simpl; [|done].
  by destruct (Qc_le 0 (hi - lo)).
Qed.

(** X5.  What [set_offset_vectors] stores.  When it returns, the bins are
    as they were, and the offset vectors it stores are those it was given,
    put in ascending order of their sorted items; configuring the packer
    again with the stored vectors changes nothing. *)
Theorem set_offset_vectors_sorted (self : CafePacker) (vs : list offset_vector)
    (p : CafePacker) :
  set_offset_vectors self vs = Ok p →
  bins p = bins self ∧
  ∃ vs', offset_vectors p = Some vs' ∧ vs' ≡ₚ vs ∧
         StronglySorted (not_after offset_vector_lt) vs' ∧
         set_offset_vectors p vs' = Ok p.
Proof.
  intros H. pose proof H as H'.
  apply set_offset_vectors_Ok in H' as (lo & hi & _ & _ & ->). simpl.
  split; [done|]. exists (py_sort offset_vector_lt vs). split_and!.
  - done.
  - apply py_sort_Permutation.
  - pose proof (not_after_trans offset_vector_lt).
    apply (Sorted_StronglySorted (not_after offset_vector_lt)), py_sort_Sorted.
    apply (lt_asym offset_vector_lt).
  - rewrite (set_offset_vectors_Permutation _ _ vs) by apply py_sort_Permutation.
    rewrite (set_offset_vectors_bins self), H. done.
Qed.

Lemma set_offset_vectors_sorted_witness :
  ∃ vs', offset_vectors (examples.configured [examples.zero_lag; examples.early]) = Some vs' ∧
         vs' ≡ₚ [examples.zero_lag; examples.early] ∧
         StronglySorted (not_after offset_vector_lt) vs' ∧
         set_offset_vectors (examples.configured [examples.zero_lag; examples.early]) vs'
         = Ok (examples.configured [examples.zero_lag; examples.early]).
Proof.
  apply (set_offset_vectors_sorted (CafePacker_init []) [examples.zero_lag; examples.early]).
  vm_compute. reflexivity.
Defined.

(** ** Normalising the times *)

Lemma mk_segment_ordered (a b : Qc) : a ≤ b → mk_segment a b = (a, b).
Proof. intros H. unfold mk_segment. by rewrite (proj2 (Qc_le_true a b) H). Qed.

Lemma all_segments_fmap (f : segment → segment) (d : segmentlistdict) (os : gmap string Qc) s :
  s ∈ all_segments {| lists := (λ seglist : segmentlist, f <$> seglist) <$> lists d;
                      offsets := os |} ↔
  ∃ s0, s0 ∈ all_segments d ∧ s = f s0.
Proof.
  rewrite elem_of_all_segments. simpl. split.
  - intros (k & l & Hk & Hs). rewrite lookup_fmap in Hk.
    destruct (lists d !! k) as [l0|] eqn:Hl0; [|done]. injection Hk as <-.
    apply list_elem_of_fmap in Hs as (s0 & -> & Hs0). exists s0. split; [|done].
    apply elem_of_all_segments. by exists k, l0.
  - intros (s0 & (k & l0 & Hk & Hs0)%elem_of_all_segments & ->).
    exists k, (f <$> l0). split; [by rewrite lookup_fmap, Hk|]. by apply list_elem_of_fmap_2.
Qed.

(** X3.  The origin of the driver.  The epoch [ligolw_cafe] computes is
    [None] exactly when the dictionary has no segment; normalising with
    [None] for origin returns the dictionary as it is when it has no
    segment and raises [TypeError] when it has one; so normalising a
    dictionary with its own epoch never raises.  When the segments are in
    order, no normalised time is negative, and some segment starts at 0 if
    there is a segment at all. *)
Theorem segmentlistdict_normalize_epoch (seglistdict : segmentlistdict) :
  (epoch_of seglistdict = None ↔ all_segments seglistdict = []) ∧
  (all_segments seglistdict = [] →
   segmentlistdict_normalize seglistdict None = Ok seglistdict) ∧
  (all_segments seglistdict ≠ [] →
   segmentlistdict_normalize seglistdict None = Raise TypeError) ∧
  ∃ d, segmentlistdict_normalize seglistdict (epoch_of seglistdict) = Ok d ∧
       (ordered seglistdict →
        Forall (λ s : segment, 0 ≤ s.1) (all_segments d) ∧
        (all_segments seglistdict ≠ [] → ∃ s, s ∈ all_segments d ∧ s.1 = 0)).
Proof.
  unfold epoch_of, segmentlistdict_normalize, ordered. split_and!.
  - by destruct (all_segments seglistdict).
  - intros H. by rewrite decide_True.
  - intros H. by rewrite decide_False.
  - destruct (all_segments seglistdict) as [|s0 l] eqn:Hsegs.
    + exists seglistdict. rewrite decide_True by done. split; [done|].
      intros _. rewrite Hsegs. split; [constructor|done].
    + eexists. split; [done|]. intros Hord.
      destruct (foldl_Qc_min s0.1 l.*1) as [Hin Hmin].
      change (s0.1 :: l.*1) with ((s0 :: l).*1) in *. rewrite <-Hsegs in Hin, Hmin, Hord.
      set (o := foldl Qc_min s0.1 l.*1) in *.
      assert (∀ s, s ∈ all_segments seglistdict →
                   mk_segment (s.1 - o) (s.2 - o) = (s.1 - o, s.2 - o) ∧ 0 ≤ s.1 - o) as Hs.
      { intros s Hs. rewrite Forall_forall in Hord. specialize (Hord s Hs).
        assert (o ≤ s.1) as Hle by by apply Hmin, list_elem_of_fmap_2. split.
        - apply mk_segment_ordered. revert Hord. generalize (s.1) (s.2) o. clear.
          intros; Qc_linear.
        - revert Hle. generalize (s.1) o. clear. intros; Qc_linear. }
      split.
      * apply Forall_forall. intros s (s1 & Hs1 & ->)%all_segments_fmap.
        destruct (Hs s1 Hs1) as [-> ?]. done.
      * intros _. apply list_elem_of_fmap in Hin as (s1 & Ho & Hs1).
        exists (s1.1 - o, s1.2 - o). split.
        -- apply all_segments_fmap. exists s1. split; [done|]. by destruct (Hs s1 Hs1) as [-> _].
        -- simpl. rewrite Ho. ring.
Qed.

Lemma segmentlistdict_normalize_epoch_witness :
  segmentlistdict_normalize (cache_to_seglistdict examples.cache) None = Raise TypeError.
Proof.
  apply (segmentlistdict_normalize_epoch (cache_to_seglistdict examples.cache)).
  vm_compute. discriminate.
Defined.

(** ** The coverage of a cache *)

Lemma lookup_to_segmentlistdict c i :
  lists (lal.to_segmentlistdict c) !! i =
  if decide (i ∈ lal.observatory c)
  then Some (match lal.segment c with Some s => [s] | None => [] end)
  else None.
Proof.
  unfold lal.to_segmentlistdict. simpl.
  induction (lal.observatory c) as [|j obs IH].
  - rewrite fmap_nil. cbn [list_to_map foldr]. rewrite lookup_empty.
    rewrite decide_False; [done|]. by intros ?%elem_of_nil.
  - rewrite fmap_cons. cbn [list_to_map foldr fst snd].
    destruct (decide (i = j)) as [->|Hne].
    + rewrite lookup_insert_eq. rewrite decide_True; [done|by left].
    + rewrite lookup_insert_ne by done. rewrite IH.
      destruct (decide (i ∈ obs)); [rewrite decide_True; [done|by right]|].
      rewrite decide_False; [done|]. by intros [?|?]%elem_of_cons.
Qed.

Lemma lookup_ior a b k :
  lists (ior a b) !! k =
  match lists a !! k, lists b !! k with
  | Some la, Some lb => Some (segmentlist_or la lb)
  | Some la, None => Some la
  | None, Some lb => Some lb
  | None, None => None
  end.
Proof. simpl. rewrite lookup_union_with. by destruct (lists a !! k), (lists b !! k). Qed.

Lemma cache_to_seglistdict_snoc cache c :
  cache_to_seglistdict (cache ++ [c]) = ior (cache_to_seglistdict cache) (lal.to_segmentlistdict c).
Proof. unfold cache_to_seglistdict. by rewrite foldl_app. Qed.

(** X1.  The coverage [cache_to_seglistdict] builds.  It has a list for
    every instrument some entry names, and for no other name; the segment
    of every entry lies within one segment of the list of each of its
    instruments; and every segment of a list starts where an entry of that
    instrument starts and ends where one ends. *)
Theorem cache_to_seglistdict_covers (cache : list CacheEntry) :
  (∀ i, is_Some (lists (cache_to_seglistdict cache) !! i) ↔
        ∃ c, c ∈ cache ∧ i ∈ lal.observatory c) ∧
  (∀ c i s, c ∈ cache → i ∈ lal.observatory c → lal.segment c = Some s →
     ∃ l s', lists (cache_to_seglistdict cache) !! i = Some l ∧ s' ∈ l ∧ within s s') ∧
  (∀ i l s', lists (cache_to_seglistdict cache) !! i = Some l → s' ∈ l →
     (∃ c s, c ∈ cache ∧ i ∈ lal.observatory c ∧ lal.segment c = Some s ∧ s.1 = s'.1) ∧
     (∃ c s, c ∈ cache ∧ i ∈ lal.observatory c ∧ lal.segment c = Some s ∧ s.2 = s'.2)).
Proof.
  induction cache as [|c cache (IH1 & IH2 & IH3)] using rev_ind.
  - split_and!.
    + intros i. change (cache_to_seglistdict []) with empty_dict. simpl.
      rewrite lookup_empty. split; [by intros [? ?]|]. by intros (c & ?%elem_of_nil & _).
    + by intros c i s ?%elem_of_nil.
    + intros i l s'. change (cache_to_seglistdict []) with empty_dict. simpl.
      by rewrite lookup_empty.
  - rewrite cache_to_seglistdict_snoc. set (acc := cache_to_seglistdict cache) in *.
    split_and!.
    + intros i. rewrite lookup_ior, lookup_to_segmentlistdict. specialize (IH1 i).
      split.
      * intros Hsome. destruct (lists acc !! i) as [la|] eqn:Ha.
        -- destruct (proj1 IH1) as (c' & ? & ?); [by eexists|].
           exists c'. split; [apply elem_of_app; by left|done].
        -- case_decide as Hi; [|by destruct Hsome].
           exists c. split; [apply elem_of_app; right; by left|done].
      * intros (c' & [Hc'|Hc']%elem_of_app & Hi);
          [|apply list_elem_of_singleton in Hc' as ->].
        -- destruct (proj2 IH1) as [la Hla]; [by exists c'|]. rewrite Hla.
           by case_decide; eexists.
        -- rewrite decide_True by done. by destruct (lists acc !! i); eexists.
    + intros c' i s [Hc'|Hc']%elem_of_app Hi Hs;
        [|apply list_elem_of_singleton in Hc' as ->].
      * destruct (IH2 c' i s Hc' Hi Hs) as (la & s' & Hla & Hs' & Hw).
        rewrite lookup_ior, Hla, lookup_to_segmentlistdict.
        case_decide; [|by exists la, s'].
        destruct (coalesce_covers (la ++ match lal.segment c with Some s0 => [s0] | None => [] end) s')
          as (s'' & Hs'' & Hw'); [apply elem_of_app; by left|].
        eexists _, s''. split_and!; [done..|]. by eapply within_trans.
      * rewrite lookup_ior, lookup_to_segmentlistdict, decide_True, Hs by done.
        destruct (lists acc !! i) as [la|].
        -- destruct (coalesce_covers (la ++ [s]) s) as (s'' & Hs'' & Hw');
             [apply elem_of_app; right; by left|]. by eexists _, s''.
        -- exists [s], s. split_and!; [done|by left|apply within_refl].
    + intros i l s'. rewrite lookup_ior, lookup_to_segmentlistdict.
      assert (∀ s0, s0 ∈ match lal.segment c with Some s => [s] | None => [] end →
                    lal.segment c = Some s0) as Hown.
      { intros s0. destruct (lal.segment c); [|by intros ?%elem_of_nil].
        by intros ->%list_elem_of_singleton. }
      assert (∀ la s0, lists acc !! i = Some la → s0 ∈ la →
                (∃ c0 s, c0 ∈ cache ++ [c] ∧ i ∈ lal.observatory c0 ∧
                         lal.segment c0 = Some s ∧ s.1 = s0.1) ∧
                (∃ c0 s, c0 ∈ cache ++ [c] ∧ i ∈ lal.observatory c0 ∧
                         lal.segment c0 = Some s ∧ s.2 = s0.2)) as Hold.
      { intros la s0 Hla Hs0.
        destruct (IH3 i la s0 Hla Hs0) as [(c1 & s1 & ? & ? & ? & ?) (c2 & s2 & ? & ? & ? & ?)].
        split; [exists c1, s1|exists c2, s2]; (split_and!; [apply elem_of_app; by left|done..]). }
      assert (i ∈ lal.observatory c → ∀ s0, lal.segment c = Some s0 →
                (∃ c0 s, c0 ∈ cache ++ [c] ∧ i ∈ lal.observatory c0 ∧
                         lal.segment c0 = Some s ∧ s.1 = s0.1) ∧
                (∃ c0 s, c0 ∈ cache ++ [c] ∧ i ∈ lal.observatory c0 ∧
                         lal.segment c0 = Some s ∧ s.2 = s0.2)) as Hnew.
      { intros Hi s0 Hs0.
        split; exists c, s0; (split_and!; [apply elem_of_app; right; by left|done..]). }
      destruct (lists acc !! i) as [la|] eqn:Hla; case_decide as Hi; try done.
      * intros [= <-] [H1 H2]%coalesce_ends.
        apply list_elem_of_fmap in H1 as (s1 & Hs1 & H1).
        apply list_elem_of_fmap in H2 as (s2 & Hs2 & H2). split.
        -- apply elem_of_app in H1 as [H1|H1%Hown].
           ++ destruct (Hold la s1 eq_refl H1) as [(c0 & s & ? & ? & ? & ?) _].
              exists c0, s. split_and!; [done..|congruence].
           ++ destruct (Hnew Hi s1 H1) as [(c0 & s & ? & ? & ? & ?) _].
              exists c0, s. split_and!; [done..|congruence].
        -- apply elem_of_app in H2 as [H2|H2%Hown].
           ++ destruct (Hold la s2 eq_refl H2) as [_ (c0 & s & ? & ? & ? & ?)].
              exists c0, s. split_and!; [done..|congruence].
           ++ destruct (Hnew Hi s2 H2) as [_ (c0 & s & ? & ? & ? & ?)].
              exists c0, s. split_and!; [done..|congruence].
      * intros [= <-] Hs'. by apply (Hold la s').
      * intros [= <-] Hs'%Hown. by apply Hnew.
Qed.

Lemma cache_to_seglistdict_covers_witness :
  ∃ l s', lists (cache_to_seglistdict examples.cache) !! "X"%string = Some l ∧ s' ∈ l ∧
          within (examples.t 500, examples.t 510) s'.
Proof.
  destruct (cache_to_seglistdict_covers examples.cache) as (_ & H & _).
  apply (H examples.c4).
  - apply (bool_decide_unpack _). vm_compute. exact I.
  - by left.
  - reflexivity.
Defined.

(** ** When the bail-out skips no match *)

(** Two dictionaries that hold the lists of one dictionary, moved to the same
    offset vector, have the same lists under the names of the vector. *)
Lemma named_lists_update base d1 d2 v :
  tracks base d1 → tracks base d2 →
  named_lists (offsets_update d1 v) (dom v) = named_lists (offsets_update d2 v) (dom v).
Proof.
  intros H1 H2. unfold named_lists. do 2 f_equal. apply map_eq. intros k.
  destruct (decide (k ∈ dom v)) as [Hk|Hk].
  - pose proof (tracks_update base d1 v H1 k) as E1.
    pose proof (tracks_update base d2 v H2 k) as E2.
    apply elem_of_dom in Hk as [o Ho].
    destruct (lists base !! k) as [l|] eqn:Hl.
    + assert (is_Some (lists d1 !! k)) as [l1 Hl1] by (rewrite (H1 k), Hl; by eexists).
      assert (is_Some (lists d2 !! k)) as [l2 Hl2] by (rewrite (H2 k), Hl; by eexists).
      rewrite (offset_of_update d1 v k l1 Hl1), Ho in E1.
      rewrite (offset_of_update d2 v k l2 Hl2), Ho in E2. simpl in E1, E2.
      assert (k ∈ dom v) as Hk by (apply elem_of_dom; by eexists).
      rewrite (map_lookup_filter_Some_2 _ _ k _ E1 Hk).
      by rewrite (map_lookup_filter_Some_2 _ _ k _ E2 Hk).
    + simpl in E1, E2.
      rewrite (map_lookup_filter_None_2 _ _ k) by by left.
      by rewrite (map_lookup_filter_None_2 _ _ k) by by left.
  - rewrite !map_lookup_filter_None_2; [done|right; by intros ? _|right; by intros ? _].
Qed.

(** Whether a vector matches does not depend on the offsets an earlier scan
    has left applied. *)
Lemma match_offset_vectors_tracks vs new0 bin0 new1 bin1 new2 bin2 :
  tracks new0 new1 → tracks new0 new2 → tracks bin0 bin1 → tracks bin0 bin2 →
  (match_offset_vectors vs new1 bin1).2 = (match_offset_vectors vs new2 bin2).2.
Proof.
  revert new1 bin1 new2 bin2. induction vs as [|v vs IH]; intros new1 bin1 new2 bin2 Hn1 Hn2 Hb1 Hb2;
    simpl; [done|].
  unfold is_coincident.
  rewrite (named_lists_update new0 new1 new2 v Hn1 Hn2).
  rewrite (named_lists_update bin0 bin1 bin2 v Hb1 Hb2).
  destruct (existsb _ _); [done|]. apply IH; by apply tracks_update.
Qed.

Lemma scan_bins_complete self0 vs0 self k bs new0 new ms bs' new' ms' vs :
  set_offset_vectors self0 vs0 = Ok self → offset_vectors self = Some vs →
  Forall bin_ok bs → ends_ascending bs →
  bin_ok new0 → tracks (size new0) (size new) → extent new = extent new0 →
  scan_bins self k bs new ms = Ok (bs', new', ms') →
  ∃ extra, ms' = ms ++ extra ∧
    ∀ i bin, (i < k)%nat → bs !! i = Some bin →
      (i ∈ extra ↔ (match_offset_vectors vs (size new0) (size bin)).2 = true).
Proof.
  intros Hset Hvs Hbs Hends Hnew0. revert new ms.
  induction k as [|n IH]; intros new ms Htracks Hext; simpl.
  - intros [= <- <- <-]. exists []. rewrite app_nil_r. split; [done|]. intros i bin Hi. lia.
  - intros H. pose proof H as Hscan.
    apply bind_Ok in H as (bin & Hbin%item_Ok & H).
    apply bind_Ok in H as (bin_extent & Hbe & H).
    apply bind_Ok in H as (new_extent & Hne & H).
    apply bind_Ok in H as (gap & Hgap & H).
    destruct (extent bin) as [be|] eqn:Hbext; [|done]. injection Hbe as ->.
    destruct (extent new) as [ne|] eqn:Hnext; [|done]. injection Hne as ->.
    destruct (max_gap self) as [gap'|] eqn:Hmax; [|done]. injection Hgap as ->.
    destruct (bail_out bin_extent new_extent gap) eqn:Hbail.
    + injection H as <- <- <-. exists []. rewrite app_nil_r. split; [done|].
      intros i bin_i Hi Hbin_i. split; [by intros ?%elem_of_nil|]. intros Hhit. exfalso.
      assert (bin_ok bin_i) as Hok_i.
      { rewrite Forall_forall in Hbs. apply Hbs. by eapply list_elem_of_lookup_2. }
      pose proof Hok_i as [(ei & Hei & Hei') Hni].
      assert (extent new0 = Some new_extent) as Hne0 by by rewrite <-Hext.
      assert (bail_out ei new_extent gap = true) as Hbail_i.
      { unfold bail_out in *. apply Qc_lt_true in Hbail. apply Qc_lt_true.
        eapply Qcle_lt_trans; [|exact Hbail].
        apply (Hends i n bin_i bin ei bin_extent); [lia|done..]. }
      rewrite (bail_out_excludes_match self0 vs0 self bin_i new0 vs gap ei new_extent
                 (size new0) Hset Hok_i Hnew0 Hvs Hmax Hei Hne0 Hbail_i
                 (tracks_refl _ (proj2 Hnew0))) in Hhit.
      done.
    + rewrite Hvs in H. cbn [mbind result_bind getattr] in H.
      assert (bin_ok bin) as [_ Hnormal].
      { rewrite Forall_forall in Hbs. apply Hbs. by eapply list_elem_of_lookup_2. }
      pose proof (match_offset_vectors_tracks_new vs (size new0) (size new) (size bin) Htracks)
        as Hn'.
      pose proof (match_offset_vectors_tracks_bin vs (size bin) (size new) (size bin)
                    (tracks_refl _ Hnormal)) as Hb'.
      pose proof (match_offset_vectors_tracks vs (size new0) (size bin)
                    (size new) (size bin) (size new0) (size bin) Htracks
                    (tracks_refl _ (proj2 Hnew0)) (tracks_refl _ Hnormal)
                    (tracks_refl _ Hnormal)) as Hsame.
      destruct (match_offset_vectors vs (size new) (size bin)) as [[new_size bin_size] hit]
        eqn:Hm.
      simpl in *. rewrite (tracks_clear _ _ Hnormal Hb'), with_size_id in H.
      rewrite (list_insert_id bs n bin Hbin) in H.
      pose proof H as Hrest. apply scan_bins_spec in Hrest
        as (_ & _ & _ & _ & extra0 & Hextra0 & Hlt & _).
      apply IH in H as (extra & -> & Hextra); [|exact Hn'|simpl; by rewrite Hnext].
      apply (inj (app _)) in Hextra0 as <-.
      exists ((if hit then [n] else []) ++ extra). split.
      * destruct hit; by rewrite <-?(assoc (++)).
      * intros i bin_i Hi Hbin_i. rewrite elem_of_app.
        destruct (decide (i = n)) as [->|Hin].
        -- rewrite Hbin in Hbin_i. injection Hbin_i as <-. rewrite <-Hsame. split.
           ++ intros [Hn|Hn]; [by destruct hit; [|apply elem_of_nil in Hn]|].
              rewrite Forall_forall in Hlt. specialize (Hlt n Hn). simpl in Hlt. lia.
           ++ intros ->. left. by left.
        -- rewrite <-(Hextra i bin_i) by (lia || done). split; [|by right].
           intros [Hn|?]; [|done]. destruct hit; [|by apply elem_of_nil in Hn].
           by apply list_elem_of_singleton in Hn.
Qed.

(** X9.  When the bins are also in ascending order of end, the bail-out
    skips no match.  In a packer configured by [set_offset_vectors], whose
    bins are well formed and none of which ends after a later one, the
    indices [pack] records are exactly those of the bins the new entry is
    coincident with under some offset vector. *)
Theorem pack_finds_all_matches (self0 : CafePacker) (vs0 : list offset_vector)
    (self : CafePacker) (c : CacheEntry) (ms : list nat) :
  set_offset_vectors self0 vs0 = Ok self →
  Forall bin_ok (bins self) → ends_ascending (bins self) →
  matching_bins_of self c = Ok ms →
  ∃ new vs,
    LALCacheBin_add LALCacheBin_init c (lal.to_segmentlistdict c) = Ok new ∧
    offset_vectors self = Some vs ∧
    ∀ i bin, bins self !! i = Some bin →
      (i ∈ ms ↔ (match_offset_vectors vs (size new) (size bin)).2 = true).
Proof.
  intros Hset Hok Hends Hms. unfold matching_bins_of in Hms.
  apply bind_Ok in Hms as (new & Hnew & Hms).
  apply bind_Ok in Hms as ([[bs' new'] ms'] & Hscan & [= <-]).
  destruct (set_offset_vectors_configured _ _ _ Hset) as [[[vs Hvs] _] _].
  exists new, vs. split_and!; [done..|].
  pose proof (add_bin_ok c new Hnew) as Hnew_ok.
  destruct (scan_bins_complete self0 vs0 self _ _ new new [] _ _ _ vs Hset Hvs Hok Hends
              Hnew_ok (tracks_refl _ (proj2 Hnew_ok)) eq_refl Hscan) as (extra & -> & Hextra).
  intros i bin Hi. simpl. apply Hextra; [|done]. by eapply lookup_lt_Some.
Qed.

Lemma pack_finds_all_matches_witness :
  ∃ new vs,
    LALCacheBin_add LALCacheBin_init examples.c5 (lal.to_segmentlistdict examples.c5) = Ok new ∧
    offset_vectors (examples.packed [examples.early] [examples.c2; examples.c3; examples.c4])
    = Some vs ∧
    ∀ i bin,
      bins (examples.packed [examples.early] [examples.c2; examples.c3; examples.c4]) !! i
      = Some bin →
      (i ∈ [1%nat] ↔ (match_offset_vectors vs (size new) (size bin)).2 = true).
Proof.
  apply (pack_finds_all_matches
           (CafePacker_init
              (bins (examples.packed [examples.early] [examples.c2; examples.c3; examples.c4])))
           [examples.early]).
  - vm_compute. reflexivity.
  - apply packed_bins_ok.
  - intros i j bi bj ei ej Hij Hi Hj Hei Hej.
    destruct i as [|[|i]], j as [|[|j]]; try lia; vm_compute in Hi, Hj; try discriminate;
      injection Hi as <-; injection Hj as <-; vm_compute in Hei, Hej;
      injection Hei as <-; injection Hej as <-; vm_compute; discriminate.
  - vm_compute. reflexivity.
Defined.

(** ** Members that splitting keeps *)

(** One of the clipping segments holds the time [x]. *)
Lemma pairs_from_locate (lo : bound) (cuts : list Qc) (x : Qc) :
  lo ≠ PosInfinity → (∀ t, lo = Finite t → t ≤ x) →
  ∃ p, p ∈ pairs_from lo cuts ∧
       p.1 ≠ PosInfinity ∧ p.2 ≠ NegInfinity ∧
       (∀ t, p.1 = Finite t → t ≤ x) ∧ (∀ t, p.2 = Finite t → x < t).
Proof.
  revert lo. induction cuts as [|c cuts IH]; intros lo Hlo Hle.
  - rewrite pairs_from_nil. exists (lo, PosInfinity). split_and!; [by left|done..].
  - rewrite pairs_from_cons. destruct (decide (x < c)) as [Hlt|Hge].
    + exists (lo, Finite c). split_and!; [by left|done|done|done|]. by intros t [= <-].
    + destruct (IH (Finite c)) as (p & Hp & H); [done| |].
      * intros t [= <-]. by apply Qcnot_lt_le.
      * exists p. split; [by right|done].
Qed.

Lemma all_segments_clip (d : segmentlistdict) lo hi s s' :
  s ∈ all_segments d → clip_segment lo hi s = Some s' →
  s' ∈ all_segments (del_empty (and_segment d lo hi)).
Proof.
  rewrite !elem_of_all_segments. intros (k & l & Hk & Hs) Hclip.
  exists k, (omap (clip_segment lo hi) l). simpl.
  assert (s' ∈ omap (clip_segment lo hi) l) as Hin by (apply list_elem_of_omap; by exists s).
  split; [|done]. apply map_lookup_filter_Some. split.
  - by rewrite lookup_fmap, Hk.
  - simpl. intros Hnil. rewrite Hnil in Hin. by apply elem_of_nil in Hin.
Qed.

(** A vector that gives offset 0 to an instrument of the entry makes the
    entry intersect every extent its segment intersects. *)
Lemma entry_intersects_zero vs c d e s i v :
  tracks (lal.to_segmentlistdict c) d →
  v ∈ vs → i ∈ lal.observatory c → v !! i = Some 0 → lal.segment c = Some s →
  segment_intersects s e = true →
  entry_intersects vs d e = true.
Proof.
  intros Hd Hv Hi Hvi Hs Hint. revert d Hd. induction vs as [|v' vs IH]; intros d Hd.
  - by apply elem_of_nil in Hv.
  - simpl. destruct (intersects_segment (offsets_update d v') e) eqn:Hhit; [done|].
    apply elem_of_cons in Hv as [<-|Hv]; [|by apply IH, tracks_update].
    exfalso. pose proof (tracks_update _ _ v Hd i) as Hk.
    rewrite lookup_to_segmentlistdict, decide_True, Hs in Hk by done.
    assert (is_Some (lists d !! i)) as [ld Hld].
    { rewrite (Hd i), lookup_to_segmentlistdict, decide_True by done. by eexists. }
    rewrite (offset_of_update d v i ld Hld), Hvi in Hk.
    cbn [fmap option_fmap option_map default] in Hk.
    rewrite segmentlist_shift_0 in Hk.
    unfold intersects_segment in Hhit.
    assert (existsb (λ l, segmentlist_intersects_segment l e)
                    (map_to_list (lists (offsets_update d v))).*2 = true) as Htrue.
    { apply existsb_elem_of. exists [s]. split.
      - apply list_elem_of_fmap. exists (i, [s]). split; [done|]. by apply elem_of_map_to_list.
      - unfold segmentlist_intersects_segment. simpl. by rewrite Hint. }
    by rewrite Htrue in Hhit.
Qed.

Lemma split_one_keeps cafepacker limit origbin ps c s i v vs gap :
  0 < limit → bin_consistent origbin → size_covers origbin →
  offset_vectors cafepacker = Some vs → max_gap cafepacker = Some gap → 0 ≤ gap →
  c ∈ objects origbin → lal.segment c = Some s → s.1 < s.2 →
  v ∈ vs → i ∈ lal.observatory c → v !! i = Some 0 →
  split_one cafepacker limit origbin = Ok ps →
  ∃ b, b ∈ ps ∧ c ∈ objects b.
Proof.
  intros Hlimit (e0 & He0 & Hsize) [_ Hcov] Hvs Hgap Hgap0 Hc Hs Hproper Hv Hi Hvi.
  unfold split_one, split_count. rewrite He0.
  cbn -[segment_abs Qdiv Qceiling]. rewrite decide_False by by apply Qc_pos_ne.
  cbn -[segment_abs Qdiv Qceiling].
  pose proof (count_le_1 (segment_abs e0) limit Hlimit) as Hcount.
  remember (Qceiling (segment_abs e0 / limit)) as n eqn:Hn.
  case_decide as Hle.
  { intros [= <-]. exists origbin. split; [by left|done]. }
  intros Hsplit.
  assert (¬ segment_abs e0 ≤ limit) as Hd by by rewrite <-Hcount.
  assert (0 ≤ segment_abs e0) as Hd0.
  { apply Qcnot_le_lt in Hd. apply Qclt_le_weak. by eapply Qclt_trans. }
  apply split_bin_spec in Hsplit as (e0' & He0' & Hpieces).
  rewrite He0 in He0'. injection He0' as <-.
  destruct (split_segments_spec e0 n) as (Heq & _ & _); [lia|done|].
  rewrite Heq in Hpieces.
  destruct (Hcov c Hc) as (s0 & s' & Hs0 & Hs' & [Hw1 Hw2]).
  rewrite Hs in Hs0. injection Hs0 as <-.
  destruct (pairs_from_locate NegInfinity (split_times e0 n) s.1) as (p & Hp & Hp1 & Hp2 & Hlo & Hhi);
    [done..|].
  apply list_elem_of_lookup in Hp as [j Hj].
  destruct (Forall2_lookup_l _ _ _ _ _ Hpieces Hj) as (b & Hb & (e & gap' & Hbsize & Hbext & Hbe & Hgap' & Hobjs)).
  rewrite Hgap in Hgap'. injection Hgap' as <-.
  exists b. split; [by eapply list_elem_of_lookup_2|].
  (* the clipped segment that holds the start of [s] *)
  assert (∃ a, clip_segment p.1 p.2 s' = Some a ∧ a.1 ≤ s.1 ∧ s.1 < a.2) as (a & Hclip & Ha1 & Ha2).
  { unfold clip_segment.
    assert (s.1 < s'.2) as Hs2 by (eapply Qclt_le_trans; [exact Hproper|exact Hw2]).
    set (lo := match p.1 with Finite t => Qc_max s'.1 t | _ => s'.1 end).
    set (hi := match p.2 with Finite t => Qc_min s'.2 t | _ => s'.2 end).
    assert (lo ≤ s.1) as Hlo'.
    { unfold lo. destruct p.1 as [|t|] eqn:E; try done.
      destruct (Qc_max_spec s'.1 t) as [[-> _]|[-> _]]; [done|by apply Hlo]. }
    assert (s.1 < hi) as Hhi'.
    { unfold hi. destruct p.2 as [|t|] eqn:E; try done.
      destruct (Qc_min_spec s'.2 t) as [[-> _]|[-> _]]; [done|by apply Hhi]. }
    assert (Qc_lt lo hi = true) as Hlt.
    { apply Qc_lt_true. by eapply Qcle_lt_trans. }
    exists (lo, hi). split; [|done].
    destruct p.1 as [|t1|] eqn:E1, p.2 as [|t2|] eqn:E2; try done; by rewrite Hlt. }
  pose proof (all_segments_clip _ _ _ _ _ Hs' Hclip) as Hin. rewrite <-Hbsize in Hin.
  apply extent_all_Ok in Hbext as (Hall & _ & _). destruct (Hall a Hin) as [He1 He2].
  assert (e.1 ≤ s.1) as Hes1 by by eapply Qcle_trans.
  assert (s.1 < e.2) as Hes2 by by eapply Qclt_le_trans.
  rewrite Hobjs. apply list_elem_of_filter. split; [|done].
  unfold assigned. rewrite Hs, Hvs. simpl. apply andb_true_iff. split.
  - apply bool_decide_eq_true. unfold segment_protract.
    rewrite mk_segment_ordered
      by (revert Hes1 Hes2 Hgap0; generalize (e.1) (e.2) (s.1); clear; intros; Qc_linear).
    unfold segment_disjoint. simpl.
    rewrite (proj2 (Qc_lt_false _ _))
      by (revert Hes2 Hgap0; generalize (e.2) (s.1); clear; intros; Qc_linear).
    rewrite (proj2 (Qc_lt_false _ _)); [done|].
    revert Hes1 Hproper Hgap0. generalize (e.1) (s.1) (s.2). clear. intros; Qc_linear.
  - eapply (entry_intersects_zero vs c _ e s i v); try done.
    + apply tracks_refl, to_segmentlistdict_normal.
    + unfold segment_intersects. apply andb_true_iff. split; apply Qc_lt_true; [|done].
      by eapply Qcle_lt_trans.
Qed.

(** X17.  Members that splitting does not lose.  With a limit [L > 0], in a
    packer whose [max_gap] is not negative, a member of a bin whose [size]
    covers its members is a member of some bin after [split_bins], when its
    segment is not empty and some configured offset vector gives offset 0 to
    one of its instruments. *)
Theorem split_bins_keeps_member (cafepacker : CafePacker) (limit : Qc) (p : CafePacker)
    (origbin : LALCacheBin) (c : CacheEntry) (s : segment) (i : string)
    (v : offset_vector) (vs : list offset_vector) (gap : Qc) :
  0 < limit → split_bins cafepacker limit = Ok p →
  origbin ∈ bins cafepacker → bin_consistent origbin → size_covers origbin →
  offset_vectors cafepacker = Some vs → max_gap cafepacker = Some gap → 0 ≤ gap →
  c ∈ objects origbin → lal.segment c = Some s → s.1 < s.2 →
  v ∈ vs → i ∈ lal.observatory c → v !! i = Some 0 →
  c ∈ members (bins p).
Proof.
  intros Hlimit Hsplit Horig Hcons Hcov Hvs Hgap Hgap0 Hc Hs Hproper Hv Hi Hvi.
  apply split_bins_pieces in Hsplit as (pieces & -> & HF).
  apply list_elem_of_lookup in Horig as [j Hj].
  destruct (Forall2_lookup_l _ _ _ _ _ HF Hj) as (ps & Hps & Hone).
  destruct (split_one_keeps _ _ _ _ c s i v vs gap Hlimit Hcons Hcov Hvs Hgap Hgap0 Hc Hs
              Hproper Hv Hi Hvi Hone) as (b & Hb & Hcb).
  unfold members. apply list_elem_of_bind. exists b. split; [done|].
  apply list_elem_of_join. exists ps. split; [done|]. by eapply list_elem_of_lookup_2.
Qed.

Lemma split_bins_keeps_member_witness :
  examples.b1 ∈
    members (bins (examples.split
                     (examples.packed [examples.zero_lag] [examples.b1; examples.b2])
                     (examples.t 50))).
Proof.
  eapply (split_bins_keeps_member
            (examples.packed [examples.zero_lag] [examples.b1; examples.b2]) (examples.t 50) _
            (cases.nth_bin (examples.packed [examples.zero_lag] [examples.b1; examples.b2]) 0)
            examples.b1 (examples.t 0, examples.t 100) "X" examples.zero_lag
            [examples.zero_lag]).
  - reflexivity.
  - vm_compute. reflexivity.
  - apply nth_bin_elem. vm_compute. lia.
  - apply nth_bin_ok; [apply packed_bins_ok|vm_compute; lia].
  - pose proof (packed_size_covers [examples.zero_lag] [examples.b1; examples.b2]) as H.
    rewrite Forall_forall in H. apply H, nth_bin_elem. vm_compute. lia.
  - vm_compute. reflexivity.
  - vm_compute. reflexivity.
  - vm_compute. discriminate.
  - apply (bool_decide_unpack _). vm_compute. exact I.
  - reflexivity.
  - reflexivity.
  - by left.
  - by left.
  - vm_compute. f_equal. by apply Qc_is_canon.
Defined.

(** ** File names *)

Lemma digit_value_pretty (d : N) : (d < 10)%N → digit_value (pretty_N_char d) = d.
Proof.
  intros H. assert (d = 0 ∨ d = 1 ∨ d = 2 ∨ d = 3 ∨ d = 4 ∨ d = 5 ∨ d = 6 ∨ d = 7
                    ∨ d = 8 ∨ d = 9)%N as Hd by lia.
  by repeat destruct Hd as [->|Hd]; try subst d.
Qed.

Lemma decimal_value_pretty_N_go (x : N) (s : string) :
  ∃ k : N, ∀ acc, decimal_value acc (pretty_N_go x s) = decimal_value (acc * 10 ^ k + x) s.
Proof.
  revert s. induction (N.lt_wf_0 x) as [x _ IH]. intros s.
  destruct (decide (x = 0)%N) as [->|Hx].
  - exists 0%N. intros acc. rewrite pretty_N_go_0. f_equal. lia.
  - rewrite pretty_N_go_step by lia.
    destruct (IH (x `div` 10)%N) with (s := String (pretty_N_char (x `mod` 10)) s) as [k Hk].
    { apply N.div_lt; lia. }
    exists (N.succ k). intros acc. rewrite Hk. simpl. f_equal.
    rewrite digit_value_pretty by (apply N.mod_lt; lia).
    rewrite N.pow_succ_r'. pose proof (N.div_mod x 10). lia.
Qed.

Lemma decimal_value_pretty (n : nat) : decimal_value 0 (pretty n) = N.of_nat n.
Proof.
  unfold pretty, pretty_nat, pretty, pretty_N. case_decide as Hn.
  - rewrite Hn. done.
  - destruct (decimal_value_pretty_N_go (N.of_nat n) "") as [k Hk]. rewrite Hk. simpl. lia.
Qed.

Lemma decimal_value_zeros (k : nat) (s : string) :
  decimal_value 0 (zeros k +:+ s) = decimal_value 0 s.
Proof. induction k as [|k IH]; [done|]. simpl. by rewrite <-IH. Qed.

Lemma zero_padded_inj (width : nat) : Inj (=) (=) (zero_padded width).
Proof.
  intros n m H. apply (f_equal (decimal_value 0)) in H. unfold zero_padded in H.
  rewrite !decimal_value_zeros, !decimal_value_pretty in H. lia.
Qed.

Lemma string_app_length (a b : string) :
  String.length (a +:+ b) = (String.length a + String.length b)%nat.
Proof. induction a as [|c a IH]; simpl; [done|]. by rewrite IH. Qed.

Lemma string_app_inj_r (a b t : string) : a +:+ t = b +:+ t → a = b.
Proof.
  intros H. assert (String.length a = String.length b) as Hlen.
  { apply (f_equal String.length) in H. rewrite !string_app_length in H. lia. }
  revert b H Hlen. induction a as [|c a IH]; intros [|d b]; simpl; try done.
  intros [= -> H] [= Hlen]. f_equal. by apply IH.
Qed.

Lemma cache_filename_inj (base : string) (width : nat) : Inj (=) (=) (cache_filename base width).
Proof.
  intros n m H. unfold cache_filename in H.
  apply (inj (String.append base)) in H. apply string_app_inj_r in H.
  by apply (zero_padded_inj width).
Qed.

(** A greater number has no fewer digits. *)
Lemma pretty_N_go_length_ge (x : N) (s : string) :
  (String.length s ≤ String.length (pretty_N_go x s))%nat.
Proof.
  revert s. induction (N.lt_wf_0 x) as [x _ IH]. intros s.
  destruct (decide (x = 0)%N) as [->|Hx]; [by rewrite pretty_N_go_0|].
  rewrite pretty_N_go_step by lia.
  etrans; [|apply IH, N.div_lt; lia]. simpl. lia.
Qed.

Lemma pretty_N_go_length_mono (x y : N) (s t : string) :
  (x ≤ y)%N → String.length s = String.length t →
  (String.length (pretty_N_go x s) ≤ String.length (pretty_N_go y t))%nat.
Proof.
  revert x s t. induction (N.lt_wf_0 y) as [y _ IH]. intros x s t Hxy Hlen.
  destruct (decide (x = 0)%N) as [->|Hx].
  - rewrite pretty_N_go_0, Hlen. apply pretty_N_go_length_ge.
  - rewrite (pretty_N_go_step x), (pretty_N_go_step y) by lia.
    apply IH; [apply N.div_lt; lia|by apply N.Div0.div_le_mono|simpl; lia].
Qed.

Lemma pretty_length_pos (n : nat) : (1 ≤ String.length (pretty n))%nat.
Proof.
  unfold pretty, pretty_nat, pretty, pretty_N. case_decide as Hn; [done|].
  rewrite pretty_N_go_step by lia.
  etrans; [|apply pretty_N_go_length_ge]. simpl. lia.
Qed.

Lemma pretty_length_mono (n m : nat) :
  (n ≤ m)%nat → (String.length (pretty n) ≤ String.length (pretty m))%nat.
Proof.
  intros Hnm. destruct (decide (n = 0)%nat) as [->|Hn].
  - change (pretty 0%nat) with "0"%string. apply (pretty_length_pos m).
  - unfold pretty, pretty_nat, pretty, pretty_N.
    rewrite !decide_False by lia. apply pretty_N_go_length_mono; [lia|done].
Qed.

Lemma zeros_length (k : nat) : String.length (zeros k) = k.
Proof. induction k as [|k IH]; [done|]. simpl. by rewrite IH. Qed.

Lemma cache_filename_length (base : string) (len n : nat) :
  (n < len)%nat →
  String.length (cache_filename base (pattern_width len) n) =
  (String.length base + pattern_width len + 6)%nat.
Proof.
  intros Hn. unfold cache_filename, zero_padded, pattern_width.
  rewrite !string_app_length, zeros_length. simpl.
  pose proof (pretty_length_mono n len). lia.
Qed.

(** ** What is written *)

Section output_facts.
Context (CacheEntry_str : CacheEntry → string).

Lemma write_entries_set (s : gset string) cache lines :
  write_entries CacheEntry_str (PySet s) cache lines =
  (lines ++ (CacheEntry_str <$> filter (names_one_of s) cache), None).
Proof.
  revert lines. induction cache as [|c cache IH]; intros lines; simpl.
  - by rewrite app_nil_r.
  - rewrite IH. unfold names_one_of at 2. case_decide as Hc.
    + rewrite filter_cons_False; [done|]. unfold names_one_of. by intros ?.
    + rewrite filter_cons_True by done. by rewrite fmap_cons, <-(assoc (++)).
Qed.

Lemma write_entries_list (l : list string) cache lines :
  write_entries CacheEntry_str (PyList l) cache lines =
  (lines, if decide (cache = []) then None else Some TypeError).
Proof. by destruct cache. Qed.

(** The files after [write_bins] on a set of instruments. *)
Lemma write_bins_set base width (s : gset string) n bins fs filenames :
  ∃ fs',
    write_bins CacheEntry_str base width (PySet s) n bins fs filenames =
      (fs', Ok (filenames ++ (cache_filename base width <$> seq n (length bins)))) ∧
    (∀ i bin, bins !! i = Some bin →
       fs' !! cache_filename base width (n + i) =
       Some (CacheEntry_str <$> filter (names_one_of s) (objects bin))) ∧
    (∀ f, f ∉ cache_filename base width <$> seq n (length bins) → fs' !! f = fs !! f).
Proof.
  revert n fs filenames. induction bins as [|bin bins IH]; intros n fs filenames; simpl.
  - exists fs. rewrite app_nil_r. split_and!; [done|by intros i bin ?|done].
  - rewrite write_entries_set. simpl.
    destruct (IH (S n) (<[cache_filename base width n :=
                           CacheEntry_str <$> filter (names_one_of s) (objects bin)]> fs)
                 (filenames ++ [cache_filename base width n]))
      as (fs' & Hw & Hcontent & Hframe).
    exists fs'. split_and!.
    + rewrite Hw. by rewrite <-(assoc (++)).
    + intros [|i] bin' Hi; simpl in Hi.
      * injection Hi as <-. rewrite Nat.add_0_r. rewrite Hframe.
        -- by rewrite lookup_insert_eq.
        -- intros (m & Hm & Hin)%list_elem_of_fmap.
           apply (cache_filename_inj base width) in Hm. subst m.
           apply elem_of_seq in Hin. lia.
      * rewrite <-(Hcontent i bin' Hi). f_equal. f_equal. lia.
    + intros f Hf. apply not_elem_of_cons in Hf as [Hne Hf].
      rewrite (Hframe f Hf). by rewrite lookup_insert_ne.
Qed.
End output_facts.

(** X18.  The names [write_caches] gives its files.  Handed a set of
    instruments it returns one name for every bin, in the order of the bins:
    the base, the index of the bin in decimal with zeros in front, and
    [.cache].  No two names are the same, and all are of one length. *)
Theorem write_caches_filenames (CacheEntry_str : CacheEntry → string) (base : string)
    (bins : list LALCacheBin) (s : gset string) (fs : files) :
  ∃ fs' filenames,
    write_caches CacheEntry_str base bins (PySet s) fs = (fs', Ok filenames) ∧
    filenames = cache_filename base (pattern_width (length bins)) <$> seq 0 (length bins) ∧
    length filenames = length bins ∧
    NoDup filenames ∧
    Forall (λ f, String.length f =
                 (String.length base + pattern_width (length bins) + 6)%nat) filenames.
Proof.
  destruct (write_bins_set CacheEntry_str base (pattern_width (length bins)) s 0 bins fs [])
    as (fs' & Hw & _).
  exists fs', (cache_filename base (pattern_width (length bins)) <$> seq 0 (length bins)).
  split_and!.
  - done.
  - done.
  - by rewrite length_fmap, length_seq.
  - pose proof (cache_filename_inj base (pattern_width (length bins))).
    apply (NoDup_fmap_2 _), NoDup_seq.
  - apply Forall_fmap, Forall_forall. intros n Hn%elem_of_seq. simpl.
    apply cache_filename_length. lia.
Qed.

(** X19.  What [write_caches] writes.  Handed a set of instruments, it
    leaves in the file of every bin the lines of the members of that bin
    that name one of the instruments, in the order of the members; a file
    whose name is not among those it returns is left as it was. *)
Theorem write_caches_contents (CacheEntry_str : CacheEntry → string) (base : string)
    (bins : list LALCacheBin) (s : gset string) (fs fs' : files) (filenames : list string) :
  write_caches CacheEntry_str base bins (PySet s) fs = (fs', Ok filenames) →
  (∀ n bin, bins !! n = Some bin →
     ∃ f, filenames !! n = Some f ∧
          fs' !! f = Some (CacheEntry_str <$> filter (names_one_of s) (objects bin))) ∧
  (∀ f, f ∉ filenames → fs' !! f = fs !! f).
Proof.
  unfold write_caches.
  destruct (write_bins_set CacheEntry_str base (pattern_width (length bins)) s 0 bins fs [])
    as (fs'' & Hw & Hcontent & Hframe).
  rewrite Hw. intros [= <- <-]. simpl. split.
  - intros n bin Hn. exists (cache_filename base (pattern_width (length bins)) n). split.
    + rewrite list_lookup_fmap, lookup_seq_lt; [done|]. by eapply lookup_lt_Some.
    + by apply (Hcontent n bin).
  - done.
Qed.

Lemma write_caches_contents_witness :
  ∃ f, ["out0.cache"; "out1.cache"]%string !! 1%nat = Some f ∧
       (write_caches lal.url "out" (bins cases.three) (PySet {["Y"%string]}) ∅).1 !! f =
       Some (lal.url <$> filter (names_one_of {["Y"%string]})
                                (objects (cases.nth_bin cases.three 1))).
Proof.
  apply (write_caches_contents lal.url "out" (bins cases.three) {["Y"%string]} ∅).
  - vm_compute. reflexivity.
  - vm_compute. reflexivity.
Defined.

(** ** One instrument at a time *)

Section single_instrument.
Context (CacheEntry_str : CacheEntry → string).

(** Handed a list, [write_bins] gets as far as the first bin that has a
    member; every file it opens it leaves empty. *)
Lemma write_bins_list base width (l : list string) n bins fs filenames :
  ∃ fs',
    write_bins CacheEntry_str base width (PyList l) n bins fs filenames =
      (fs', if decide (Forall (λ b, objects b = []) bins)
            then Ok (filenames ++ (cache_filename base width <$> seq n (length bins)))
            else Raise TypeError) ∧
    ∀ f lines, fs' !! f = Some lines → fs !! f = Some lines ∨ lines = [].
Proof.
  revert n fs filenames.
  induction bins as [|bin bins IH]; intros n fs filenames; cbn [write_bins length seq fmap list_fmap].
  - exists fs. rewrite decide_True by constructor. rewrite app_nil_r. split; [done|]. auto.
  - rewrite write_entries_list. destruct (decide (objects bin = [])) as [Hbin|Hbin].
    + destruct (IH (S n) (<[cache_filename base width n := []]> fs)
                   (filenames ++ [cache_filename base width n])) as (fs' & Hw & Hfiles).
      exists fs'. split.
      * rewrite Hw. case_decide as Hall.
        -- rewrite decide_True by by constructor. by rewrite <-(assoc (++)).
        -- rewrite decide_False; [done|]. by intros [_ ?]%Forall_cons.
      * intros f lines Hf. destruct (Hfiles f lines Hf) as [Hins|?]; [|by right].
        destruct (decide (f = cache_filename base width n)) as [->|Hne].
        -- rewrite lookup_insert_eq in Hins. injection Hins as <-. by right.
        -- rewrite lookup_insert_ne in Hins by done. by left.
    + eexists. split.
      * rewrite decide_False; [done|]. by intros [? _]%Forall_cons.
      * intros f lines Hf.
        destruct (decide (f = cache_filename base width n)) as [->|Hne].
        -- rewrite lookup_insert_eq in Hf. injection Hf as <-. by right.
        -- rewrite lookup_insert_ne in Hf by done. by left.
Qed.

Lemma write_instruments_spec base bins instruments fs :
  ∃ fs',
    write_instruments CacheEntry_str base bins instruments fs =
      (fs', if decide (instruments = [] ∨ Forall (λ b, objects b = []) bins)
            then Ok () else Raise TypeError) ∧
    ∀ f lines, fs' !! f = Some lines → fs !! f = Some lines ∨ lines = [].
Proof.
  revert fs. induction instruments as [|i instruments IH]; intros fs; cbn [write_instruments].
  - exists fs. rewrite decide_True by by left. split; [done|]. auto.
  - unfold write_caches.
    destruct (write_bins_list (base +:+ i +:+ "_"%string) (pattern_width (length bins)) [i]
                0 bins fs []) as (fs1 & -> & Hfiles1).
    destruct (decide (Forall (λ b, objects b = []) bins)) as [Hall|Hall].
    + destruct (IH fs1) as (fs' & Hw & Hfiles). rewrite Hw. exists fs'. split.
      * rewrite decide_True by by right. by rewrite decide_True by by right.
      * intros f lines Hf. destruct (Hfiles f lines Hf) as [Hf1|?]; [|by right].
        by apply Hfiles1.
    + exists fs1. split; [|done]. rewrite decide_False; [done|]. by intros [?|?].
Qed.
End single_instrument.

(** X20.  [write_single_instrument_caches] writes no entry.  It hands
    [write_caches] the list [[instrument]], and [&] between a list and a
    set raises [TypeError]: the call raises [TypeError] as soon as there is
    an instrument and a bin that has a member, and returns otherwise; either
    way every file it has opened is left empty. *)
Theorem write_single_instrument_caches_raises (CacheEntry_str : CacheEntry → string)
    (base : string) (bins : list LALCacheBin) (instruments : instrument_names) (fs : files) :
  (py_iter instruments ≠ [] → (∃ b, b ∈ bins ∧ objects b ≠ []) →
   (write_single_instrument_caches CacheEntry_str base bins instruments fs).2
   = Raise TypeError) ∧
  (py_iter instruments = [] ∨ Forall (λ b, objects b = []) bins →
   (write_single_instrument_caches CacheEntry_str base bins instruments fs).2 = Ok ()) ∧
  (∀ f lines,
     (write_single_instrument_caches CacheEntry_str base bins instruments fs).1 !! f
     = Some lines →
     fs !! f = Some lines ∨ lines = []).
Proof.
  unfold write_single_instrument_caches.
  destruct (write_instruments_spec CacheEntry_str base bins (py_iter instruments) fs)
    as (fs' & -> & Hfiles).
  simpl. split_and!.
  - intros Hne (b & Hb & Hobjs). rewrite decide_False; [done|].
    intros [?|Hall]; [done|]. rewrite Forall_forall in Hall. by apply Hobjs, Hall.
  - intros H. by rewrite decide_True.
  - done.
Qed.

Lemma write_single_instrument_caches_raises_witness :
  (write_single_instrument_caches lal.url "out" (bins cases.three)
     (PySet {["X"%string]}) ∅).2 = Raise TypeError.
Proof.
  apply (write_single_instrument_caches_raises lal.url "out" (bins cases.three)
           (PySet {["X"%string]}) ∅).
  - vm_compute. discriminate.
  - eexists. split.
    + eapply (list_elem_of_lookup_2 _ 0%nat). vm_compute. reflexivity.
    + vm_compute. discriminate.
Defined.

(** ** The test of the splitter *)

Lemma intersects_segment_true (d : segmentlistdict) (seg : segment) :
  intersects_segment d seg = true ↔
  ∃ k l s, lists d !! k = Some l ∧ s ∈ l ∧ segment_intersects s seg = true.
Proof.
  unfold intersects_segment, segmentlist_intersects_segment. rewrite existsb_elem_of. split.
  - intros (l & Hl & H). apply list_elem_of_fmap in Hl as ([k l'] & -> & Hkl).
    apply elem_of_map_to_list in Hkl. apply existsb_elem_of in H as (s & Hs & H).
    by exists k, l', s.
  - intros (k & l & s & Hk & Hs & H). exists l. split.
    + apply list_elem_of_fmap. exists (k, l). split; [done|]. by apply elem_of_map_to_list.
    + apply existsb_elem_of. by exists s.
Qed.

(** A segment that intersects [e] intersects [e] protracted by a gap that
    is not negative. *)
Lemma segment_intersects_protract (s e : segment) (gap : Qc) :
  0 ≤ gap → segment_intersects s e = true →
  segment_intersects s (segment_protract e gap) = true.
Proof.
  unfold segment_intersects, segment_protract, mk_segment. intros Hgap H.
  apply andb_true_iff in H as [H1%Qc_lt_true H2%Qc_lt_true].
  apply andb_true_iff.
  destruct (Qc_le (e.1 - gap) (e.2 + gap)) eqn:Hle; simpl.
  - split; apply Qc_lt_true.
    + revert Hgap H1. generalize (e.1) (s.2). clear. intros. Qc_linear.
    + revert Hgap H2. generalize (e.2) (s.1). clear. intros. Qc_linear.
  - apply Qc_le_false in Hle. split; apply Qc_lt_true.
    + revert Hgap H1 Hle. generalize (e.1) (e.2) (s.2). clear. intros. Qc_linear.
    + revert Hgap H2 Hle. generalize (e.1) (e.2) (s.1). clear. intros. Qc_linear.
Qed.

Lemma intersects_segment_protract (d : segmentlistdict) (e : segment) (gap : Qc) :
  0 ≤ gap → intersects_segment d e = true →
  intersects_segment d (segment_protract e gap) = true.
Proof.
  intros Hgap (k & l & s & Hk & Hs & H)%intersects_segment_true.
  apply intersects_segment_true. exists k, l, s. split_and!; [done..|].
  by apply segment_intersects_protract.
Qed.

(** The offsets stay applied from one vector to the next, but the match the
    loop finds is one that a single vector gives: the list that intersects
    is at the offset of a vector of the loop, or has not been moved. *)
Lemma entry_intersects_sound (seen vs : list offset_vector) (d0 d : segmentlistdict)
    (e : segment) :
  normal d0 → tracks d0 d →
  (∀ k l, lists d !! k = Some l →
     offset_of d k = 0 ∨ ∃ v, v ∈ seen ∧ v !! k = Some (offset_of d k)) →
  entry_intersects vs d e = true →
  ∃ v, v ∈ seen ++ vs ∧ intersects_segment (offsets_update d0 v) e = true.
Proof.
  intros Hnormal. revert seen d.
  induction vs as [|v vs IH]; intros seen d Htracks Hinv; simpl; [done|].
  assert (∀ k l, lists (offsets_update d v) !! k = Some l →
            ∃ l0, lists d0 !! k = Some l0 ∧ is_Some (lists d !! k) ∧
                  l = segmentlist_shift l0 (offset_of (offsets_update d v) k) ∧
                  offset_of (offsets_update d v) k = default (offset_of d k) (v !! k))
    as Hlook.
  { intros k l Hl. pose proof (tracks_update d0 d v Htracks k) as Hk. rewrite Hl in Hk.
    destruct (lists d0 !! k) as [l0|] eqn:Hl0; [|done]. injection Hk as ->.
    assert (is_Some (lists d !! k)) as [ld Hld] by (rewrite (Htracks k), Hl0; by eexists).
    exists l0. split_and!; [done|by eexists|done|]. by apply (offset_of_update d v k ld). }
  destruct (intersects_segment (offsets_update d v) e) eqn:Hhit.
  - intros _. apply intersects_segment_true in Hhit as (k & l & s & Hk & Hs & Hint).
    destruct (Hlook k l Hk) as (l0 & Hl0 & [ld Hld] & -> & Hoff).
    assert (∃ w, w ∈ seen ++ v :: vs ∧
              lists (offsets_update d0 w) !! k
              = Some (segmentlist_shift l0 (offset_of (offsets_update d v) k)))
      as (w & Hw & Hlw).
    { rewrite Hoff. destruct (v !! k) as [o|] eqn:Hv; simpl.
      - exists v. split; [apply elem_of_app; right; by left|].
        simpl. rewrite map_lookup_imap, Hl0. simpl. rewrite Hv.
        rewrite (normal_offset_of d0 k l0 Hnormal Hl0). do 2 f_equal. ring.
      - destruct (Hinv k ld Hld) as [H0|(w & Hw & Hwk)].
        + exists v. split; [apply elem_of_app; right; by left|].
          simpl. rewrite map_lookup_imap, Hl0. simpl. rewrite Hv, H0.
          by rewrite segmentlist_shift_0.
        + exists w. split; [apply elem_of_app; by left|].
          simpl. rewrite map_lookup_imap, Hl0. simpl. rewrite Hwk.
          rewrite (normal_offset_of d0 k l0 Hnormal Hl0). do 2 f_equal. ring. }
    exists w. split; [done|]. apply intersects_segment_true.
    exists k, (segmentlist_shift l0 (offset_of (offsets_update d v) k)), s. by split_and!.
  - intros H. destruct (IH (seen ++ [v]) (offsets_update d v)) as (w & Hw & Hint);
      [by apply tracks_update| |done|].
    + intros k l Hk. destruct (Hlook k l Hk) as (l0 & Hl0 & [ld Hld] & _ & Hoff).
      rewrite Hoff. destruct (v !! k) as [o|] eqn:Hv; simpl.
      * right. exists v. split; [apply elem_of_app; right; by left|done].
      * destruct (Hinv k ld Hld) as [H0|(w & Hw & Hwk)]; [by left|].
        right. exists w. split; [apply elem_of_app; by left|done].
    + exists w. split; [|done]. by rewrite <-app_assoc in Hw.
Qed.

(** What the test of the splitter implies: a vector of the packer moves
    the entry's segments onto the extent of the bin, and so onto the extent
    protracted by the gap. *)
Lemma assigned_sound (vs : list offset_vector) (gap : Qc) (e : segment) (c : CacheEntry) :
  0 ≤ gap → assigned vs gap e c = true →
  ∃ v, v ∈ vs ∧
       intersects_segment (offsets_update (lal.to_segmentlistdict c) v)
                          (segment_protract e gap) = true.
Proof.
  intros Hgap. unfold assigned. destruct (lal.segment c) as [seg|]; [|done].
  intros [_ H]%andb_true_iff.
  destruct (entry_intersects_sound [] vs (lal.to_segmentlistdict c) (lal.to_segmentlistdict c) e)
    as (v & Hv & Hint); [apply to_segmentlistdict_normal| | |done|].
  - apply tracks_refl, to_segmentlistdict_normal.
  - intros k l Hk. left. by eapply normal_offset_of; [apply to_segmentlistdict_normal|].
  - exists v. split; [done|]. by apply intersects_segment_protract.
Qed.



(** Members can be lost.  Two files, X over [0, 10) and Y over [5, 15), are
    coincident under the one vector that reads both instruments 100 s
    late, and make one bin of 15 s.  At a limit of 10 s the bin is cut in
    two, and neither file, moved by 100 s, meets either piece: both pieces
    are left without members. *)
Lemma split_bins_loses_members :
  examples.names (bins (examples.packed [cases.shifted] [examples.a1; examples.a2]))
  = [["a1"; "a2"]]%string ∧
  ∃ p, split_bins (examples.packed [cases.shifted] [examples.a1; examples.a2]) (examples.t 10)
       = Ok p ∧
       examples.names (bins p) = [[]; []].
Proof.
  split; [vm_compute; reflexivity|].
  eexists. split; [vm_compute; reflexivity|]. vm_compute. reflexivity.
Qed.

(** ** Doubles *)

Lemma pow2_pos (k : Z) : (0 < 2 ^ k)%Q.
Proof. by apply Qpower_0_lt. Qed.

Lemma pow2_succ (k : Z) : (2 ^ (k + 1) == 2 * 2 ^ k)%Q.
Proof. rewrite Qpower_plus by done. change (2 ^ 1)%Q with 2%Q. ring. Qed.

Lemma pow2_le (a b : Z) : (a ≤ b)%Z → (2 ^ a <= 2 ^ b)%Q.
Proof. intros H. by apply Qpower_le_compat_l. Qed.

Lemma pow2_Z (n : Z) : (0 ≤ n)%Z → (inject_Z (2 ^ n) == 2 ^ n)%Q.
Proof. intros H. by rewrite Zpower_Qpower. Qed.

Lemma log2_bounds (p : Z) :
  (0 < p)%Z → (2 ^ Z.log2 p <= inject_Z p)%Q ∧ (inject_Z p < 2 * 2 ^ Z.log2 p)%Q.
Proof.
  intros Hp. destruct (Z.log2_spec p Hp) as [H1 H2].
  pose proof (Z.log2_nonneg p) as H0.
  rewrite <-pow2_succ, <-!pow2_Z by lia. split.
  - by rewrite <-Zle_Qle.
  - rewrite <-Zlt_Qlt. by rewrite <-Z.add_1_r in H2.
Qed.

(** [binade x] is the power of two at or below [|x|]. *)
Lemma binade_spec (x : Q) :
  ¬ (x == 0)%Q →
  (2 ^ binade x <= Z.abs (Qnum x) # Qden x)%Q ∧
  ((Z.abs (Qnum x) # Qden x) < 2 * 2 ^ binade x)%Q.
Proof.
  intros Hx. unfold binade.
  set (a := (Z.abs (Qnum x) # Qden x)%Q).
  change (Qnum a) with (Z.abs (Qnum x)). change (Qden a) with (Qden x).
  assert (0 < Z.abs (Qnum x))%Z as Hp.
  { destruct x as [n d]. unfold Qeq in Hx. simpl in *. lia. }
  destruct (log2_bounds _ Hp) as [Hp1 Hp2].
  destruct (log2_bounds (Z.pos (Qden x)) ltac:(done)) as [Hq1 Hq2].
  set (s := Z.log2 (Z.abs (Qnum x))) in *. set (t := Z.log2 (Z.pos (Qden x))) in *.
  assert (a * inject_Z (Z.pos (Qden x)) == inject_Z (Z.abs (Qnum x)))%Q as Ha.
  { unfold a, Qeq. simpl. lia. }
  clearbody a.
  assert (2 ^ (s - t) * 2 ^ t == 2 ^ s)%Q as Hk.
  { rewrite <-Qpower_plus by done. by replace (s - t + t)%Z with s by lia. }
  assert (2 ^ (s - t - 1) * 2 == 2 ^ (s - t))%Q as Hk'.
  { replace (s - t)%Z with (s - t - 1 + 1)%Z at 2 by lia. rewrite pow2_succ. ring. }
  pose proof (pow2_pos s) as Hs. pose proof (pow2_pos t) as Ht.
  pose proof (pow2_pos (s - t)) as Hst. pose proof (pow2_pos (s - t - 1)) as Hst'.
  destruct (Qle_bool (2 ^ (s - t)) a) eqn:Hcase.
  - apply Qle_bool_iff in Hcase. split; [done|].
    apply Qnot_le_lt. intros Hge.
    revert Hp1 Hp2 Hq1 Hq2 Ha Hk Hs Ht Hst Hcase Hge.
    generalize (inject_Z (Z.abs (Qnum x))) (inject_Z (Z.pos (Qden x)))
               (2 ^ s)%Q (2 ^ t)%Q (2 ^ (s - t))%Q.
    intros P D A B C Hp1 Hp2 Hq1 Hq2 Ha Hk Hs Ht Hst Hcase Hge.
    assert (2 * C * D <= a * D)%Q as H1 by (apply Qmult_le_compat_r; lra).
    assert (C * B <= C * D)%Q as H2 by (apply Qmult_le_l; lra).
    rewrite <-Qmult_assoc in H1. revert Ha Hk H1 H2.
    generalize (a * D)%Q (C * D)%Q (C * B)%Q. intros. lra.
  - assert (a < 2 ^ (s - t))%Q as Hlt.
    { apply Qnot_le_lt. intros Hge. apply Qle_bool_iff in Hge. congruence. }
    revert Hp1 Hp2 Hq1 Hq2 Ha Hk Hk' Hs Ht Hst Hst' Hlt.
    generalize (inject_Z (Z.abs (Qnum x))) (inject_Z (Z.pos (Qden x)))
               (2 ^ s)%Q (2 ^ t)%Q (2 ^ (s - t))%Q (2 ^ (s - t - 1))%Q.
    intros P D A B C C' Hp1 Hp2 Hq1 Hq2 Ha Hk Hk' Hs Ht Hst Hst' Hlt.
    split; [|lra]. apply Qnot_lt_le. intros Hlt'.
    assert (a * D <= C' * D)%Q as H1 by (apply Qmult_le_compat_r; lra).
    assert (C' * D < C' * (2 * B))%Q as H2 by (apply Qmult_lt_l; lra).
    assert (C' * (2 * B) == C * B)%Q as H3 by (rewrite <-Hk'; ring).
    revert Ha Hk H1 H2 H3.
    generalize (a * D)%Q (C' * D)%Q (C * B)%Q (C' * (2 * B))%Q. intros. lra.
Qed.

Lemma round_half_even_cases (x : Q) :
  round_half_even x = Qfloor x ∧ (x - inject_Z (Qfloor x) <= 1 # 2)%Q ∨
  round_half_even x = (Qfloor x + 1)%Z ∧ (1 # 2 <= x - inject_Z (Qfloor x))%Q.
Proof.
  unfold round_half_even.
  destruct (Qcompare_spec (x - inject_Z (Qfloor x)) (1 # 2)) as [H|H|H].
  - destruct (Z.even (Qfloor x)); [left|right]; (split; [done|]); rewrite H; apply Qle_refl.
  - left. split; [done|]. by apply Qlt_le_weak.
  - right. split; [done|]. by apply Qlt_le_weak.
Qed.

Lemma round_half_even_Z (z : Z) : round_half_even (inject_Z z) = z.
Proof.
  unfold round_half_even. rewrite Qfloor_Z.
  destruct (Qcompare_spec (inject_Z z - inject_Z z) (1 # 2)) as [H|H|H]; [| done |].
  - exfalso. revert H. generalize (inject_Z z). intros y H. lra.
  - exfalso. revert H. generalize (inject_Z z). intros y H. lra.
Qed.

Lemma round_half_even_mono (x y : Q) :
  (x <= y)%Q → (round_half_even x ≤ round_half_even y)%Z.
Proof.
  intros Hxy. pose proof (Qfloor_resp_le x y Hxy) as Hfloor.
  destruct (decide (Qfloor x = Qfloor y)) as [Heq|Hne].
  - unfold round_half_even. rewrite <-Heq.
    destruct (Qcompare_spec (x - inject_Z (Qfloor x)) (1 # 2)) as [Hx|Hx|Hx],
             (Qcompare_spec (y - inject_Z (Qfloor x)) (1 # 2)) as [Hy|Hy|Hy];
      try (destruct (Z.even (Qfloor x))); try lia;
      exfalso; revert Hx Hy Hxy; generalize (inject_Z (Qfloor x)); intros; lra.
  - destruct (round_half_even_cases x) as [[-> _]|[-> _]],
             (round_half_even_cases y) as [[-> _]|[-> _]]; lia.
Qed.

(** Between two powers of two that follow each other a double lies, and so
    does the double nearest to a number that lies there. *)
Lemma scaled_bounds (x : Q) (k : Z) :
  (2 ^ k <= x)%Q → (x < 2 * 2 ^ k)%Q →
  (2 ^ k <= inject_Z (round_half_even (x / 2 ^ (k - 52))) * 2 ^ (k - 52))%Q ∧
  (inject_Z (round_half_even (x / 2 ^ (k - 52))) * 2 ^ (k - 52) <= 2 * 2 ^ k)%Q.
Proof.
  intros Hlo Hhi. pose proof (pow2_pos (k - 52)) as Hu.
  assert (2 ^ k == inject_Z (2 ^ 52) * 2 ^ (k - 52))%Q as Hk.
  { rewrite pow2_Z by lia. rewrite <-Qpower_plus by done.
    by replace (52 + (k - 52))%Z with k by lia. }
  assert (inject_Z (2 ^ 52) <= x / 2 ^ (k - 52))%Q as Hm1.
  { apply Qle_shift_div_l; [done|]. by rewrite <-Hk. }
  assert (x / 2 ^ (k - 52) <= inject_Z (2 ^ 53))%Q as Hm2.
  { apply Qle_shift_div_r; [done|].
    replace (2 ^ 53)%Z with (2 * 2 ^ 52)%Z by done.
    rewrite inject_Z_mult, <-Qmult_assoc, <-Hk. by apply Qlt_le_weak. }
  apply round_half_even_mono in Hm1, Hm2. rewrite round_half_even_Z in Hm1, Hm2.
  rewrite Hk. split.
  - apply Qmult_le_compat_r; [|by apply Qlt_le_weak]. by rewrite <-Zle_Qle.
  - rewrite Qmult_assoc. apply Qmult_le_compat_r; [|by apply Qlt_le_weak].
    rewrite <-(inject_Z_mult 2). replace (2 * 2 ^ 52)%Z with (2 ^ 53)%Z by done.
    by rewrite <-Zle_Qle.
Qed.

Lemma scaled_bounds_neg (x : Q) (k : Z) :
  (2 ^ k <= - x)%Q → (- x < 2 * 2 ^ k)%Q →
  (- (2 * 2 ^ k) <= inject_Z (round_half_even (x / 2 ^ (k - 52))) * 2 ^ (k - 52))%Q ∧
  (inject_Z (round_half_even (x / 2 ^ (k - 52))) * 2 ^ (k - 52) <= - 2 ^ k)%Q.
Proof.
  intros Hlo Hhi. pose proof (pow2_pos (k - 52)) as Hu.
  assert (2 ^ k == inject_Z (2 ^ 52) * 2 ^ (k - 52))%Q as Hk.
  { rewrite pow2_Z by lia. rewrite <-Qpower_plus by done.
    by replace (52 + (k - 52))%Z with k by lia. }
  assert (inject_Z (- 2 ^ 52) * 2 ^ (k - 52) == - 2 ^ k)%Q as Hk1.
  { rewrite Hk, inject_Z_opp. ring. }
  assert (inject_Z (- 2 ^ 53) * 2 ^ (k - 52) == - (2 * 2 ^ k))%Q as Hk2.
  { rewrite Hk, inject_Z_opp. replace (2 ^ 53)%Z with (2 * 2 ^ 52)%Z by done.
    rewrite inject_Z_mult. ring. }
  assert (x / 2 ^ (k - 52) <= inject_Z (- 2 ^ 52))%Q as Hm1.
  { apply Qle_shift_div_r; [done|]. rewrite Hk1. lra. }
  assert (inject_Z (- 2 ^ 53) <= x / 2 ^ (k - 52))%Q as Hm2.
  { apply Qle_shift_div_l; [done|]. rewrite Hk2. lra. }
  apply round_half_even_mono in Hm1, Hm2. rewrite round_half_even_Z in Hm1, Hm2.
  rewrite <-Hk1, <-Hk2. split.
  - apply Qmult_le_compat_r; [|by apply Qlt_le_weak]. by rewrite <-Zle_Qle.
  - apply Qmult_le_compat_r; [|by apply Qlt_le_weak]. by rewrite <-Zle_Qle.
Qed.

(** The double nearest to a rational other than 0. *)
Lemma binary64_unfold (x : Qc) : x ≠ 0 → binary64 x = Q2Qc (nearest x).
Proof. intros Hx. unfold binary64. by rewrite decide_False. Qed.

Lemma abs_of_pos (x : Q) : (0 < x)%Q → (Z.abs (Qnum x) # Qden x == x)%Q.
Proof. destruct x as [n d]. unfold Qlt, Qeq. simpl. intros H. f_equal. lia. Qed.

Lemma abs_of_neg (x : Q) : (x < 0)%Q → (Z.abs (Qnum x) # Qden x == - x)%Q.
Proof. destruct x as [n d]. unfold Qlt, Qeq, Qopp. simpl. intros H. f_equal. lia. Qed.

Lemma binade_pos (x : Q) :
  (0 < x)%Q → (2 ^ binade x <= x)%Q ∧ (x < 2 * 2 ^ binade x)%Q.
Proof.
  intros Hx. destruct (binade_spec x) as [H1 H2]; [lra|].
  by rewrite (abs_of_pos x Hx) in H1, H2.
Qed.

Lemma binade_neg (x : Q) :
  (x < 0)%Q → (2 ^ binade x <= - x)%Q ∧ (- x < 2 * 2 ^ binade x)%Q.
Proof.
  intros Hx. destruct (binade_spec x) as [H1 H2]; [lra|].
  by rewrite (abs_of_neg x Hx) in H1, H2.
Qed.

(** Two numbers of one sign between the same powers of two have the same
    binade. *)
Lemma binade_lt (x y : Q) (kx ky : Z) :
  (2 ^ kx <= x)%Q → (x <= y)%Q → (y < 2 * 2 ^ ky)%Q → (kx ≤ ky)%Z.
Proof.
  intros Hx Hxy Hy. destruct (decide (kx ≤ ky)%Z) as [|Hgt]; [done|]. exfalso.
  assert (ky + 1 ≤ kx)%Z as Hle by lia. apply pow2_le in Hle.
  rewrite pow2_succ in Hle. lra.
Qed.

Lemma nearest_mono_pos (x y : Q) : (0 < x)%Q → (x <= y)%Q → (nearest x <= nearest y)%Q.
Proof.
  intros Hx Hxy. assert (0 < y)%Q as Hy by lra.
  destruct (binade_pos x Hx) as [Hx1 Hx2]. destruct (binade_pos y Hy) as [Hy1 Hy2].
  destruct (scaled_bounds x (binade x) Hx1 Hx2) as [Bx1 Bx2].
  destruct (scaled_bounds y (binade y) Hy1 Hy2) as [By1 By2].
  pose proof (binade_lt x y _ _ Hx1 Hxy Hy2) as Hk.
  destruct (decide (binade x = binade y)) as [Heq|Hne].
  - unfold nearest. rewrite Heq. pose proof (pow2_pos (binade y - 52)) as Hu.
    apply Qmult_le_compat_r; [|by apply Qlt_le_weak]. rewrite <-Zle_Qle.
    apply round_half_even_mono. apply Qmult_le_compat_r; [done|].
    apply Qlt_le_weak. by apply Qinv_lt_0_compat.
  - assert (binade x + 1 ≤ binade y)%Z as Hle by lia. apply pow2_le in Hle.
    rewrite pow2_succ in Hle. unfold nearest. lra.
Qed.

Lemma nearest_mono_neg (x y : Q) : (y < 0)%Q → (x <= y)%Q → (nearest x <= nearest y)%Q.
Proof.
  intros Hy Hxy. assert (x < 0)%Q as Hx by lra.
  destruct (binade_neg x Hx) as [Hx1 Hx2]. destruct (binade_neg y Hy) as [Hy1 Hy2].
  destruct (scaled_bounds_neg x (binade x) Hx1 Hx2) as [Bx1 Bx2].
  destruct (scaled_bounds_neg y (binade y) Hy1 Hy2) as [By1 By2].
  assert (binade y ≤ binade x)%Z as Hk by (apply (binade_lt (- y) (- x)); lra).
  destruct (decide (binade x = binade y)) as [Heq|Hne].
  - unfold nearest. rewrite Heq. pose proof (pow2_pos (binade y - 52)) as Hu.
    apply Qmult_le_compat_r; [|by apply Qlt_le_weak]. rewrite <-Zle_Qle.
    apply round_half_even_mono. apply Qmult_le_compat_r; [done|].
    apply Qlt_le_weak. by apply Qinv_lt_0_compat.
  - assert (binade y + 1 ≤ binade x)%Z as Hle by lia. apply pow2_le in Hle.
    rewrite pow2_succ in Hle. unfold nearest. lra.
Qed.

Lemma nearest_pos (x : Q) : (0 < x)%Q → (0 < nearest x)%Q.
Proof.
  intros Hx. destruct (binade_pos x Hx) as [Hx1 Hx2].
  destruct (scaled_bounds x (binade x) Hx1 Hx2) as [Bx1 _].
  pose proof (pow2_pos (binade x)). unfold nearest. lra.
Qed.

Lemma nearest_neg (x : Q) : (x < 0)%Q → (nearest x < 0)%Q.
Proof.
  intros Hx. destruct (binade_neg x Hx) as [Hx1 Hx2].
  destruct (scaled_bounds_neg x (binade x) Hx1 Hx2) as [_ Bx2].
  pose proof (pow2_pos (binade x)). unfold nearest. lra.
Qed.

Lemma Q2Qc_le (a b : Q) : (a <= b)%Q → Q2Qc a ≤ Q2Qc b.
Proof. intros H. unfold Qcle. simpl. by rewrite !Qred_correct. Qed.

Lemma Qc_sign (x : Qc) : x ≠ 0 → (x < 0)%Q ∨ (0 < x)%Q.
Proof.
  intros Hx. destruct (Q_dec x 0) as [[H|H]|H]; [by left|by right|].
  destruct Hx. apply Qc_is_canon. exact H.
Qed.

(** Rounding to the nearest double keeps the order. *)
Lemma binary64_mono (x y : Qc) : x ≤ y → binary64 x ≤ binary64 y.
Proof.
  intros Hxy. unfold Qcle in Hxy.
  destruct (decide (x = 0)) as [->|Hx], (decide (y = 0)) as [->|Hy].
  - apply Qcle_refl.
  - rewrite (binary64_unfold y Hy). unfold binary64. rewrite decide_True by done.
    apply (Q2Qc_le 0). apply Qlt_le_weak, nearest_pos.
    destruct (Qc_sign y Hy) as [Hneg|Hpos]; [|done].
    change (0 <= y)%Q in Hxy. lra.
  - rewrite (binary64_unfold x Hx). unfold binary64. rewrite decide_True by done.
    apply (Q2Qc_le _ 0). apply Qlt_le_weak, nearest_neg.
    destruct (Qc_sign x Hx) as [Hneg|Hpos]; [done|].
    change (x <= 0)%Q in Hxy. lra.
  - rewrite (binary64_unfold x Hx), (binary64_unfold y Hy). apply Q2Qc_le.
    destruct (Qc_sign x Hx) as [Hxneg|Hxpos], (Qc_sign y Hy) as [Hyneg|Hypos].
    + by apply nearest_mono_neg.
    + pose proof (nearest_neg x Hxneg) as H1. pose proof (nearest_pos y Hypos) as H2.
      apply Qlt_le_weak. by eapply Qlt_trans.
    + lra.
    + by apply nearest_mono_pos.
Qed.

Lemma binary64_1 : binary64 1 = 1.
Proof. apply Qc_is_canon. vm_compute. reflexivity. Qed.

(** Doubles keep the order, for a limit that is a double. *)
Lemma python_rounds_in_order (limit : Qc) :
  binary64 limit = limit → rounds_in_order python limit.
Proof.
  intros Hlimit. split_and!; [apply binary64_mono|done|].
  intros x y Hy Hxy. simpl. rewrite <-binary64_1. apply binary64_mono.
  pose proof (Qc_pos_ne y Hy) as Hy0.
  apply (Qcmult_lt_0_le_reg_r _ _ y); [done|].
  replace (x / y * y) with x by (by field). by rewrite Qcmult_1_l.
Qed.

(** ** The extent limit, in the arithmetic of the code *)

(** With arithmetic that rounds nothing the two splitters are one. *)
Lemma split_count_with_exact origbin extentlimit :
  split_count_with exact origbin extentlimit = split_count origbin extentlimit.
Proof.
  unfold split_count_with, split_count. destruct (extent origbin) as [e|]; [|done].
  cbn [mbind result_bind subscript]. case_decide; [done|]. f_equal. simpl.
  apply Qceiling_comp. unfold Qcdiv, Qcmult, Qcinv. simpl. by rewrite !Qred_correct.
Qed.

Lemma split_loop_with_exact budget cafepacker extentlimit idx bs :
  split_loop_with exact budget cafepacker extentlimit idx bs
  = split_loop budget cafepacker extentlimit idx bs.
Proof.
  revert idx bs. induction budget as [|budget IH]; intros idx bs; [done|].
  simpl. destruct (bs !! idx) as [origbin|]; [|done].
  rewrite split_count_with_exact.
  destruct (split_count origbin extentlimit) as [n|e]; simpl; [|done].
  case_decide; [apply IH|].
  change (split_bin_with exact cafepacker origbin n) with (split_bin cafepacker origbin n).
  destruct (split_bin cafepacker origbin n) as [newbins|e]; simpl; [apply IH|done].
Qed.

Lemma split_bins_with_exact cafepacker extentlimit :
  split_bins_with exact cafepacker extentlimit = split_bins cafepacker extentlimit.
Proof. unfold split_bins_with, split_bins. by rewrite split_loop_with_exact. Qed.

Section arithmetic_facts.
Context (py : arithmetic).

Lemma split_loop_with_spec budget cafepacker extentlimit idx bs :
  (length bs - idx ≤ budget)%nat →
  split_loop_with py budget cafepacker extentlimit idx bs =
    (rest ← split_list_with py cafepacker extentlimit (drop idx bs); Ok (take idx bs ++ rest)).
Proof.
  revert idx bs. induction budget as [|budget IH]; intros idx bs Hbudget.
  - assert (length bs ≤ idx)%nat as Hidx by lia.
    destruct bs as [|b bs]; simpl; [by rewrite drop_nil, take_nil|].
    rewrite (lookup_ge_None_2 (b :: bs) idx Hidx).
    rewrite drop_ge, take_ge by done. simpl. by rewrite app_nil_r.
  - simpl. destruct (bs !! idx) as [origbin|] eqn:Hidx.
    + rewrite (drop_S bs origbin idx Hidx). simpl. unfold split_one_with.
      apply lookup_lt_Some in Hidx as Hlt.
      destruct (split_count_with py origbin extentlimit) as [n|e]; simpl; [|done].
      case_decide as Hn.
      * rewrite IH by lia. simpl.
        rewrite (take_S_r bs idx origbin Hidx).
        destruct (split_list_with py cafepacker extentlimit (drop (S idx) bs)); simpl; [|done].
        by rewrite <-(assoc (++)).
      * destruct (split_bin_with py cafepacker origbin n) as [newbins|e]; simpl; [|done].
        assert (length (take idx bs) = idx) as Htake by (rewrite length_take; lia).
        rewrite IH.
        -- assert (idx + length newbins = length (take idx bs ++ newbins))%nat as Hlen
             by (rewrite length_app; lia).
           rewrite (assoc (++) (take idx bs)).
           rewrite (drop_app_length' (take idx bs ++ newbins) _ _ Hlen).
           destruct (split_list_with py cafepacker extentlimit (drop (S idx) bs));
             simpl; [|done].
           rewrite (assoc (++) (take idx bs)).
           rewrite (take_app_length' (take idx bs ++ newbins) _ _ Hlen).
           by rewrite <-(assoc (++)).
        -- rewrite !length_app, length_drop, Htake. lia.
    + apply lookup_ge_None_1 in Hidx.
      rewrite drop_ge, take_ge by done. simpl. by rewrite app_nil_r.
Qed.

Lemma split_bins_with_spec cafepacker extentlimit :
  split_bins_with py cafepacker extentlimit =
    (bs ← split_list_with py cafepacker extentlimit (bins cafepacker);
     Ok {| bins := bs;
           offset_vectors := offset_vectors cafepacker;
           max_gap := max_gap cafepacker |}).
Proof.
  unfold split_bins_with. rewrite split_loop_with_spec by lia. rewrite drop_0, take_0.
  by destruct (split_list_with py cafepacker extentlimit (bins cafepacker)).
Qed.

Lemma split_list_with_Ok cafepacker extentlimit bs bs' :
  split_list_with py cafepacker extentlimit bs = Ok bs' →
  ∃ pieces, Forall2 (λ b ps, split_one_with py cafepacker extentlimit b = Ok ps) bs pieces ∧
            bs' = mjoin pieces.
Proof.
  revert bs'. induction bs as [|b bs IH]; intros bs'; simpl.
  - intros [= <-]. exists []. split; [constructor|done].
  - intros H. apply bind_Ok in H as (ps & Hps & H).
    apply bind_Ok in H as (rest & Hrest & [= <-]).
    apply IH in Hrest as (pieces & HF & ->).
    exists (ps :: pieces). split; [by constructor|done].
Qed.

(** The loop does not outrun its budget. *)
Lemma split_bins_with_budget cafepacker extentlimit :
  split_bins_with py cafepacker extentlimit ≠ Raise LoopBudget.
Proof.
  rewrite split_bins_with_spec. intros [H|(bs & _ & H)]%bind_Raise; [|done].
  induction (bins cafepacker) as [|b bs IH]; simpl in H; [done|].
  apply bind_Raise in H as [H|(ps & _ & H)].
  - unfold split_one_with in H. apply bind_Raise in H as [H|(n & _ & H)].
    + unfold split_count_with in H. apply bind_Raise in H as [H|(e0 & _ & H)].
      * by apply subscript_Raise in H.
      * by case_decide.
    + case_decide; [done|]. unfold split_bin_with in H.
      apply bind_Raise in H as [H|(e0 & _ & H)]; [by apply subscript_Raise in H|].
      apply bind_Raise in H as [H|(newbins & _ & H)].
      * apply mapM_result_Raise in H as (split & _ & H). unfold new_split_bin in H.
        apply bind_Raise in H as [H|(? & _ & H)]; [|done].
        by apply extent_all_Raise in H.
      * apply mapM_result_Raise in H as (newbin & _ & H). unfold populate_bin in H.
        apply bind_Raise in H as [H|(? & _ & H)]; [by apply getattr_Raise in H|].
        apply bind_Raise in H as [H|(? & _ & H)]; [by apply getattr_Raise in H|].
        apply bind_Raise in H as [H|(? & _ & H)]; [|done].
        by apply collect_objects_Raise in H.
  - apply bind_Raise in H as [H|(rest & _ & H)]; [by apply IH|done].
Qed.

Lemma split_bin_with_spec cafepacker origbin n newbins :
  split_bin_with py cafepacker origbin n = Ok newbins →
  ∃ e0, extent origbin = Some e0 ∧
        Forall2 (is_piece cafepacker origbin) (split_segments_with py e0 n) newbins.
Proof.
  unfold split_bin_with. intros H. apply bind_Ok in H as (e0 & He0 & H).
  destruct (extent origbin) as [e0'|]; [|done]. injection He0 as ->.
  exists e0. split; [done|].
  apply bind_Ok in H as (empties & Hempties%mapM_result_Ok & Hpop%mapM_result_Ok).
  revert newbins Hpop.
  induction Hempties as [|split b0 splits empties Hb0 _ IH]; intros newbins Hpop.
  - inversion Hpop. constructor.
  - inversion Hpop as [|? b ? newbins' Hb Hpop']; subst. constructor; [|by apply IH].
    unfold new_split_bin in Hb0. apply bind_Ok in Hb0 as (e & He & [= <-]).
    unfold populate_bin in Hb. simpl in Hb.
    apply bind_Ok in Hb as (gap & Hgap & Hb).
    destruct (max_gap cafepacker) as [gap'|] eqn:Hmax; [|done]. injection Hgap as ->.
    apply bind_Ok in Hb as (objs & Hobjs & [= <-]).
    exists e, gap. split_and!; try done. simpl. by apply collect_objects_Ok.
Qed.

Lemma split_segments_with_pairs (e : segment) (n : Z) :
  split_segments_with py e n
  = mk_bounds <$> pairs_from NegInfinity (split_times_with py e n).
Proof.
  unfold split_segments_with, pairs_from. f_equal. f_equal.
  change ([NegInfinity] ++ (Finite <$> split_times_with py e n) ++ [PosInfinity])
    with ((NegInfinity :: (Finite <$> split_times_with py e n)) ++ [PosInfinity]).
  apply removelast_last.
Qed.

Lemma split_segments_with_length (e : segment) (n : Z) :
  (1 ≤ n)%Z → length (split_segments_with py e n) = Z.to_nat n.
Proof.
  intros Hn. rewrite split_segments_with_pairs, length_fmap, pairs_from_length.
  unfold split_times_with. rewrite length_fmap, length_seqZ. lia.
Qed.

End arithmetic_facts.

(** Clipping segments made from cuts that are no further than [δ] from times
    [w] apart stand for stretches of the extent that are [w + 2 δ] long at
    most, also where two cuts have changed places. *)
Lemma pairs_near (e : segment) (w δ : Qc) (cuts : list Qc) (a : Z) (lo : bound) :
  0 ≤ w → 0 ≤ δ → lo ≠ PosInfinity →
  e.1 + Qc_of_Z (a - 1) * w - δ ≤ lower e lo →
  lower e lo ≤ e.1 + Qc_of_Z (a - 1) * w + δ →
  e.2 = e.1 + Qc_of_Z (a + Z.of_nat (length cuts)) * w →
  (∀ (i : nat) c, cuts !! i = Some c →
     e.1 + Qc_of_Z (a + Z.of_nat i) * w - δ ≤ c ∧
     c ≤ e.1 + Qc_of_Z (a + Z.of_nat i) * w + δ) →
  Forall (λ p, upper e p.2 - lower e p.1 ≤ w + 2 * δ) (mk_bounds <$> pairs_from lo cuts).
Proof.
  intros Hw Hδ. revert a lo.
  induction cuts as [|c cuts IH]; intros a lo Hlo Hlo1 Hlo2 Hend Hcuts.
  - rewrite pairs_from_nil. constructor; [|constructor].
    assert (mk_bounds (lo, PosInfinity) = (lo, PosInfinity)) as ->.
    { unfold mk_bounds. simpl. by destruct lo. }
    simpl. simpl in Hend. rewrite Z.add_0_r in Hend.
    assert (Qc_of_Z a * w = Qc_of_Z (a - 1) * w + w) as Ha.
    { replace a with (a - 1 + 1)%Z at 1 by lia. rewrite Qc_of_Z_add, Qc_of_Z_1. ring. }
    rewrite Ha in Hend. revert Hend Hlo1 Hw Hδ.
    generalize (Qc_of_Z (a - 1) * w) (lower e lo) (e.1) (e.2). clear.
    intros. Qc_linear.
  - rewrite pairs_from_cons, fmap_cons.
    destruct (Hcuts 0%nat c eq_refl) as [Hc1 Hc2]. rewrite Z.add_0_r in Hc1, Hc2.
    assert (Qc_of_Z a * w = Qc_of_Z (a - 1) * w + w) as Ha.
    { replace a with (a - 1 + 1)%Z at 1 by lia. rewrite Qc_of_Z_add, Qc_of_Z_1. ring. }
    rewrite Ha in Hc1, Hc2.
    constructor.
    + unfold mk_bounds. destruct (bound_le (lo, Finite c).1 (lo, Finite c).2) eqn:Hle; simpl.
      * revert Hc2 Hlo1 Hw Hδ.
        generalize (Qc_of_Z (a - 1) * w) (lower e lo) (e.1). clear.
        intros. Qc_linear.
      * destruct lo as [|t|]; simpl in *; [done| |done].
        revert Hc1 Hlo2 Hw Hδ. generalize (Qc_of_Z (a - 1) * w) (e.1). clear.
        intros. Qc_linear.
    + apply (IH (a + 1)%Z (Finite c)); [done| | | |].
      * simpl. replace (a + 1 - 1)%Z with a by lia. rewrite Ha. exact Hc1.
      * simpl. replace (a + 1 - 1)%Z with a by lia. rewrite Ha. exact Hc2.
      * rewrite Hend. simpl. do 3 f_equal. lia.
      * intros i c' Hc'. specialize (Hcuts (S i) c' Hc').
        by replace (a + 1 + Z.of_nat i)%Z with (a + Z.of_nat (S i))%Z by lia.
Qed.

Lemma split_one_with_spec (py : arithmetic) cafepacker limit origbin ps :
  bin_consistent origbin →
  split_one_with py cafepacker limit origbin = Ok ps →
  replaces_with py cafepacker limit origbin ps.
Proof.
  intros (e & He & Hsize). unfold split_one_with, split_count_with, replaces_with.
  rewrite He. cbn [mbind result_bind subscript].
  case_decide as Hlimit; [done|]. cbn [mbind result_bind].
  set (n := Qceiling (float_div py (float py (segment_abs e)) limit)).
  intros Hps. exists e, n. split_and!; [done|done| |].
  - intros (Hmono & Hfloat & Hdiv) Hpos Hle.
    assert (n ≤ 1)%Z as Hn.
    { unfold n. rewrite <-(Qceiling_Z 1). apply Qceiling_resp_le.
      assert (float_div py (float py (segment_abs e)) limit ≤ 1) as H1.
      { apply Hdiv; [done|]. rewrite <-Hfloat. by apply Hmono. }
      unfold Qcle in H1. by simpl in H1. }
    rewrite decide_True in Hps by done. by injection Hps as <-.
  - case_decide as Hn; [by injection Hps as <-|].
    apply split_bin_with_spec in Hps as (e' & He' & Hpieces).
    rewrite He in He'. injection He' as <-.
    split_and!.
    + rewrite <-(Forall2_length _ _ _ Hpieces). apply split_segments_with_length. lia.
    + eapply Forall2_impl; [exact Hpieces|]. intros split b Hb. split; [done|].
      destruct (piece_bounds _ _ _ _ _ Hsize Hb) as (eb & Heb & _ & Hin & Hlo & Hhi).
      by exists eb.
    + intros δ Hδ Horder Hnear.
      assert (0 < n)%Z as Hn0 by lia.
      pose proof (Qc_of_Z_pos_ne n Hn0) as Hn0'.
      pose proof (Qc_of_Z_lt 0 n Hn0) as Hnpos.
      set (w := segment_abs e / Qc_of_Z n).
      assert (0 ≤ w) as Hw.
      { apply (Qcmult_lt_0_le_reg_r _ _ (Qc_of_Z n)); [done|].
        rewrite Qcmult_0_l. unfold w.
        replace (segment_abs e / Qc_of_Z n * Qc_of_Z n) with (segment_abs e) by (by field).
        unfold segment_abs. revert Horder. generalize (e.1) (e.2). clear. intros. Qc_linear. }
      assert (Forall (λ p, upper e p.2 - lower e p.1 ≤ w + 2 * δ)
                     (split_segments_with py e n)) as Hwidth.
      { rewrite split_segments_with_pairs. apply (pairs_near e w δ _ 1 NegInfinity);
          [done|done|done| | | |].
        - simpl. replace (Qc_of_Z (1 - 1)) with (Q2Qc 0) by (by apply Qc_is_canon).
          revert Hδ. generalize (e.1). clear. intros. Qc_linear.
        - simpl. replace (Qc_of_Z (1 - 1)) with (Q2Qc 0) by (by apply Qc_is_canon).
          revert Hδ. generalize (e.1). clear. intros. Qc_linear.
        - unfold split_times_with. rewrite length_fmap, length_seqZ.
          replace (1 + Z.of_nat (Z.to_nat (n - 1)))%Z with n by lia.
          unfold w, segment_abs. by field.
        - intros i c Hc. by apply Hnear. }
      eapply Forall2_Forall_r; [exact Hpieces|].
      eapply Forall_impl; [exact Hwidth|]. intros split Hsplit b Hb.
      destruct (piece_extent _ _ _ _ _ Hsize Hb) as (eb & Heb & Hle).
      exists eb. split; [done|].
      assert (segment_abs eb ≤ w + 2 * δ) as Hbound by by eapply Qcle_trans.
      split; [done|]. intros Hpos Hcount.
      assert (w ≤ limit) as Hwl.
      { pose proof (Qc_pos_ne limit Hpos) as Hl0.
        apply (Qcmult_lt_0_le_reg_r _ _ (Qc_of_Z n)); [done|]. unfold w.
        replace (segment_abs e / Qc_of_Z n * Qc_of_Z n)
          with (segment_abs e / limit * limit) by (by field).
        rewrite (Qcmult_comm limit). apply Qcmult_le_compat_r; [done|].
        by apply Qclt_le_weak. }
      revert Hbound Hwl. generalize (segment_abs eb) (2 * δ). clear. intros. Qc_linear.
Qed.

(** Arithmetic that rounds nothing keeps the order, and its cuts are the
    even times. *)
Lemma exact_rounds_in_order (limit : Qc) : rounds_in_order exact limit.
Proof.
  split_and!; [done..|]. intros x y Hy Hxy. simpl.
  pose proof (Qc_pos_ne y Hy) as Hy0.
  apply (Qcmult_lt_0_le_reg_r _ _ y); [done|].
  replace (x / y * y) with x by (by field). by rewrite Qcmult_1_l.
Qed.

Lemma exact_cuts_near (e : segment) (n : Z) : (0 < n)%Z → cuts_near exact 0 e n.
Proof.
  intros Hn i c. unfold split_times_with. simpl. rewrite list_lookup_fmap.
  destruct (seqZ 1 (n - 1) !! i) as [j|] eqn:Hj; [|done]. intros [= <-].
  apply lookup_seqZ in Hj as [-> _].
  pose proof (Qc_of_Z_pos_ne n Hn) as Hn0.
  assert (e.1 + Qc_of_Z (1 + Z.of_nat i) * (e.2 - e.1) / Qc_of_Z n
          = e.1 + Qc_of_Z (1 + Z.of_nat i) * (segment_abs e / Qc_of_Z n)) as ->
    by (unfold segment_abs; by field).
  generalize (e.1 + Qc_of_Z (1 + Z.of_nat i) * (segment_abs e / Qc_of_Z n)).
  intros x. split; Qc_linear.
Qed.



